(** * ngonx: the nginx configuration parser (lib/parsers/nginx/parser.go)

    A shallow embedding of [ParseConfig], [parseLine], [splitDirectives] and
    of the flat printer [printBlock], and the properties of the
    specification settled against it.

    - A Go [string] is modelled by the sequence of its runes (Unicode code
      points, as [for _, char := range line] yields them); this is exact for
      valid UTF-8 text, where a byte is a hash, a semicolon, a brace or a
      quote exactly when it is such a rune.  Where the bytes count, a string
      is the list of its bytes ([bytestring]): [decodeRunes] reads it as
      [range] does, an invalid byte as U+FFFD, and [EncodeRune] writes a
      rune as [WriteRune] does.
    - Pointers to a [Block] are indices into an arena ([heap]); [&Block{...}]
      allocates at the end of the arena.  A mutation through a pointer is an
      update of the arena at that index, so the references to one block (the
      parse stack, [currentBlock], the [Blocks] of the parent) see each
      other's writes.
    - A run-time panic (index out of range, nil dereference) is the [Panic]
      outcome of the [result] monad.
    - An opened file is the bytes that reading it gives and the failure of
      a read, if there is one; [bufio.Scanner] is modelled over these bytes
      with its line splitting and its limit of 64 KiB on a line.

    The embedding comes first, then the vocabulary of the properties, then
    the proofs: strings and the quote scan, the splitter, the effect of one
    line on the arena, the invariants of parsing, and the round trip through
    the printer. *)

From Stdlib Require Import ZArith String Ascii Lia DecimalString.
From stdpp Require Import base list.

Local Open Scope Z_scope.

(** ** Strings *)

Abbreviation rune := Z.
Abbreviation gostring := (list rune).

Definition rune_of_ascii (c : ascii) : rune := Z.of_nat (nat_of_ascii c).
Definition runes (s : string) : gostring := map rune_of_ascii (list_ascii_of_string s).
Arguments runes : simpl never.

(** The runes the parser tests for: hash, single quote, double quote,
    semicolon, left brace, right brace, and the space it prints. *)
Definition r_hash : rune := 35.
Definition r_squote : rune := 39.
Definition r_dquote : rune := 34.
Definition r_semi : rune := 59.
Definition r_lbrace : rune := 123.
Definition r_rbrace : rune := 125.
Definition r_space : rune := 32.

(** [unicode.IsSpace]: the Latin-1 cases, then the White_Space table. *)
Definition isSpace (r : rune) : bool :=
  if (0 <=? r) && (r <=? 255) then
    ((9 <=? r) && (r <=? 13)) || (r =? 32) || (r =? 133) || (r =? 160)
  else
    (r =? 5760) || ((8192 <=? r) && (r <=? 8202)) || (r =? 8232) || (r =? 8233)
    || (r =? 8239) || (r =? 8287) || (r =? 12288).

Fixpoint trimLeft (s : gostring) : gostring :=
  match s with
  | c :: s' => if isSpace c then trimLeft s' else s
  | [] => []
  end.

Definition trimRight (s : gostring) : gostring := reverse (trimLeft (reverse s)).

(** [strings.TrimSpace] *)
Definition TrimSpace (s : gostring) : gostring := trimRight (trimLeft s).

(** [strings.Fields]: the maximal runs of non-space runes. *)
Fixpoint fieldsLoop (s : gostring) (cur : gostring) : list gostring :=
  match s with
  | [] => match cur with [] => [] | _ => [cur] end
  | c :: s' =>
      if isSpace c then
        match cur with
        | [] => fieldsLoop s' []
        | _ => cur :: fieldsLoop s' []
        end
      else fieldsLoop s' (cur ++ [c])
  end.

Definition Fields (s : gostring) : list gostring := fieldsLoop s [].

(** [strings.Index(s, "#")] for a one-rune needle: the position of its first
    occurrence, [None] for Go's -1. *)
Fixpoint IndexRune (s : gostring) (r : rune) : option nat :=
  match s with
  | [] => None
  | c :: s' => if c =? r then Some O else S <$> IndexRune s' r
  end.

Definition gostring_eqb (a b : gostring) : bool := bool_decide (a = b).

(** [strings.HasSuffix(s, "{")] and [strings.TrimSuffix(s, "{")] for a
    one-rune suffix. *)
Definition HasSuffixRune (s : gostring) (r : rune) : bool :=
  match last s with
  | Some c => c =? r
  | None => false
  end.

Definition TrimSuffixRune (s : gostring) (r : rune) : gostring :=
  if HasSuffixRune s r then take (length s - 1)%nat s else s.

(** [strings.Join] *)
Fixpoint Join (elems : list gostring) (sep : gostring) : gostring :=
  match elems with
  | [] => []
  | [e] => e
  | e :: rest => e ++ sep ++ Join rest sep
  end.

(** [strings.Repeat] *)
Fixpoint Repeat (s : gostring) (count : nat) : gostring :=
  match count with
  | O => []
  | S n => s ++ Repeat s n
  end.

(** ** splitDirectives *)

(** The loop of [splitDirectives] from the rune at hand on, with the local
    variables [results], [current], [inQuote] and [quoteMark]. *)
Fixpoint splitLoop (line : gostring) (results : list gostring) (current : gostring)
    (inQuote : bool) (quoteMark : rune) : list gostring :=
  match line with
  | [] =>
      (* Add any remaining content *)
      if (0 <? length current)%nat then results ++ [TrimSpace current] else results
  | char :: rest =>
      if (char =? r_squote) || (char =? r_dquote) then
        if inQuote && (char =? quoteMark) then
          splitLoop rest results (current ++ [char]) false 0
        else if negb inQuote then
          splitLoop rest results (current ++ [char]) true char
        else
          splitLoop rest results (current ++ [char]) inQuote quoteMark
      else if char =? r_semi then
        if inQuote then splitLoop rest results (current ++ [char]) inQuote quoteMark
        else splitLoop rest (results ++ [TrimSpace current]) [] inQuote quoteMark
      else if char =? r_lbrace then
        if negb inQuote then results ++ [TrimSpace (current ++ [char])]
        else splitLoop rest results (current ++ [char]) inQuote quoteMark
      else splitLoop rest results (current ++ [char]) inQuote quoteMark
  end.

Definition splitDirectives (line : gostring) : list gostring :=
  splitLoop line [] [] false 0.

(** ** Outcomes *)

(** What running a piece of the program gives: a value, a run-time panic, or
    (for the recursion of [printBlock] over the arena) no answer within the
    recursion depth allowed. *)
Inductive result (A : Type) : Type :=
  | Done (a : A)
  | Panic
  | OutOfFuel.
Arguments Done {A} a.
Arguments Panic {A}.
Arguments OutOfFuel {A}.

#[export] Instance result_ret : MRet result := fun A a => Done a.
#[export] Instance result_bind : MBind result := fun A B f m =>
  match m with
  | Done a => f a
  | Panic => Panic
  | OutOfFuel => OutOfFuel
  end.

(** [s[i]] *)
Definition index {A} (s : list A) (i : nat) : result A :=
  match s !! i with
  | Some a => Done a
  | None => Panic
  end.

(** [s[lo:hi]] *)
Definition slice {A} (s : list A) (lo hi : nat) : result (list A) :=
  if ((lo <=? hi) && (hi <=? length s))%nat then Done (take (hi - lo) (drop lo s))
  else Panic.

(** ** Data model *)

Inductive LineType : Type :=
  | LineTypeComment
  | LineTypeInclude
  | LineTypeDirective
  | LineTypeBlock.

#[export] Instance LineType_eq_dec : EqDecision LineType.
Proof. solve_decision. Defined.

Record Line : Type := mkLine {
  Line_Name : gostring;
  Line_Params : list gostring;
  Line_Comments : list gostring;
  Line_Type : LineType
}.

Abbreviation ptr := nat.

Record Block : Type := mkBlock {
  Block_Name : gostring;
  Block_Params : list gostring;
  Block_Lines : list Line;
  Block_Blocks : list ptr;
  Block_Comments : list gostring;
  Block_ParentRef : option ptr
}.

Abbreviation heap := (list Block).

Record Config : Type := mkConfig {
  RootBlock : ptr;
  FilePath : gostring
}.

(** Reading through a pointer, and writing back what [f] makes of the block. *)
Definition load (h : heap) (p : ptr) : result Block := index h p.

Definition modify (h : heap) (p : ptr) (f : Block -> Block) : result heap :=
  b ← load h p; mret (<[p := f b]> h).

Definition appendLine (l : Line) (b : Block) : Block :=
  mkBlock (Block_Name b) (Block_Params b) (Block_Lines b ++ [l]) (Block_Blocks b)
          (Block_Comments b) (Block_ParentRef b).

Definition appendBlock (c : ptr) (b : Block) : Block :=
  mkBlock (Block_Name b) (Block_Params b) (Block_Lines b) (Block_Blocks b ++ [c])
          (Block_Comments b) (Block_ParentRef b).

(** ** parseLine *)

(** The state [parseLine] works on: the arena and [*blockStack] (bottom
    first, the innermost open block last, as in the Go slice). *)
Abbreviation pstate := (heap * list ptr)%type.

(** The block parameters of a block-opening directive (the
    [if len(parts) > 1] statement). *)
Definition blockParamsOf (parts : list gostring) : result (list gostring) :=
  if (1 <? length parts)%nat then
    lastParam ← index parts (length parts - 1)%nat;
    if gostring_eqb lastParam [r_lbrace] then
      slice parts 1 (length parts - 1)
    else if HasSuffixRune lastParam r_lbrace then
      blockParams ← slice parts 1 (length parts - 1);
      mret (blockParams ++ [TrimSuffixRune lastParam r_lbrace])
    else
      slice parts 1 (length parts)
  else mret [].

(** The body of [for _, directive := range directives], with the local
    variable [comments] passed from one iteration to the next. *)
Fixpoint directivesLoop (directives : list gostring) (currentBlock : ptr)
    (comments : list gostring) (st : pstate) : result pstate :=
  match directives with
  | [] => mret st
  | directive :: rest =>
      let directive := TrimSpace directive in
      if gostring_eqb directive [] then directivesLoop rest currentBlock comments st
      else
        let parts := Fields directive in
        if (length parts =? 0)%nat then directivesLoop rest currentBlock comments st
        else
          name ← index parts 0;
          params ← (if (1 <? length parts)%nat then slice parts 1 (length parts)
                     else mret []);
          lastChar ← index directive (length directive - 1)%nat;
          if lastChar =? r_lbrace then
            blockName ← index parts 0;
            blockParams ← blockParamsOf parts;
            let newBlock := mkBlock blockName blockParams [] [] comments (Some currentBlock) in
            let newPtr := length st.1 in
            let h := st.1 ++ [newBlock] in
            h ← modify h currentBlock (appendBlock newPtr);
            let blockStack := st.2 ++ [newPtr] in
            h ← modify h currentBlock
                  (appendLine (mkLine blockName blockParams comments LineTypeBlock));
            directivesLoop rest currentBlock [] (h, blockStack)
          else
            let lineType :=
              if gostring_eqb name (runes "include") then LineTypeInclude
              else LineTypeDirective in
            h ← modify st.1 currentBlock (appendLine (mkLine name params comments lineType));
            directivesLoop rest currentBlock [] (h, st.2)
  end.

(** The comment handling at the head of [parseLine]: the comments and the
    line that is left. *)
Definition extractComment (line : gostring) : list gostring * gostring :=
  match IndexRune line r_hash with
  | Some commentStart =>
      ([TrimSpace (drop (commentStart + 1) line)], TrimSpace (take commentStart line))
  | None => ([], line)
  end.

Definition parseLine (line : gostring) (currentBlock : ptr) (st : pstate) : result pstate :=
  let '(comments, line) := extractComment line in
  if gostring_eqb line [] then
    if (0 <? length comments)%nat then
      h ← modify st.1 currentBlock (appendLine (mkLine [] [] comments LineTypeComment));
      mret (h, st.2)
    else mret st
  else if gostring_eqb line [r_rbrace] then
    if (1 <? length st.2)%nat then mret (st.1, take (length st.2 - 1) st.2)
    else mret st
  else directivesLoop (splitDirectives line) currentBlock comments st.

(** ** The bytes of a string *)

(** A byte is a number from 0 to 255. *)
Abbreviation bytestring := (list Z).

Definition RuneError : rune := 0xFFFD.

(** The table [first] of [unicode/utf8], by what it says of a first byte:
    ASCII, invalid, or the size of the sequence and the range accepted for
    the second byte. *)
Inductive firstInfo : Type :=
  | firstASCII
  | firstInvalid
  | firstLead (size : nat) (lo hi : Z).

Definition first (b : Z) : firstInfo :=
  if b <? 0x80 then firstASCII
  else if b <? 0xC2 then firstInvalid
  else if b <? 0xE0 then firstLead 2 0x80 0xBF
  else if b =? 0xE0 then firstLead 3 0xA0 0xBF
  else if b =? 0xED then firstLead 3 0x80 0x9F
  else if b <? 0xF0 then firstLead 3 0x80 0xBF
  else if b =? 0xF0 then firstLead 4 0x90 0xBF
  else if b <? 0xF4 then firstLead 4 0x80 0xBF
  else if b =? 0xF4 then firstLead 4 0x80 0x8F
  else firstInvalid.

(** [utf8.DecodeRuneInString], which is what [range] over a string does at
    each step: the rune at the head of [s] and its width in bytes; an
    invalid or short sequence is [RuneError] of width 1. *)
Definition DecodeRune (s : bytestring) : rune * nat :=
  match s with
  | [] => (RuneError, 0%nat)
  | s0 :: t0 =>
      match first s0 with
      | firstASCII => (s0, 1%nat)
      | firstInvalid => (RuneError, 1%nat)
      | firstLead sz lo hi =>
          if (length s <? sz)%nat then (RuneError, 1%nat)
          else
            match t0 with
            | [] => (RuneError, 1%nat)
            | s1 :: t1 =>
                if (s1 <? lo) || (hi <? s1) then (RuneError, 1%nat)
                else if (sz <=? 2)%nat then
                  (Z.lor (Z.shiftl (Z.land s0 0x1F) 6) (Z.land s1 0x3F), 2%nat)
                else
                  match t1 with
                  | [] => (RuneError, 1%nat)
                  | s2 :: t2 =>
                      if (s2 <? 0x80) || (0xBF <? s2) then (RuneError, 1%nat)
                      else if (sz <=? 3)%nat then
                        (Z.lor (Z.lor (Z.shiftl (Z.land s0 0x0F) 12)
                                      (Z.shiftl (Z.land s1 0x3F) 6))
                               (Z.land s2 0x3F), 3%nat)
                      else
                        match t2 with
                        | [] => (RuneError, 1%nat)
                        | s3 :: _ =>
                            if (s3 <? 0x80) || (0xBF <? s3) then (RuneError, 1%nat)
                            else
                              (Z.lor (Z.lor (Z.lor (Z.shiftl (Z.land s0 0x07) 18)
                                                   (Z.shiftl (Z.land s1 0x3F) 12))
                                            (Z.shiftl (Z.land s2 0x3F) 6))
                                     (Z.land s3 0x3F), 4%nat)
                        end
                  end
            end
      end
  end.

(** The runes that [for _, char := range s] yields; every step takes a
    byte at least, so that the length of [s] is fuel enough. *)
Fixpoint rangeLoop (fuel : nat) (s : bytestring) : gostring :=
  match fuel, s with
  | S fuel', _ :: _ =>
      let '(char, size) := DecodeRune s in char :: rangeLoop fuel' (drop size s)
  | _, _ => []
  end.

Definition decodeRunes (s : bytestring) : gostring := rangeLoop (length s) s.

(** [utf8.AppendRune], the bytes that [WriteRune] adds to a builder: a rune
    out of range, or a surrogate, is written as [RuneError]. *)
Definition encode3 (r : rune) : bytestring :=
  [Z.lor 0xE0 (Z.shiftr r 12); Z.lor 0x80 (Z.land (Z.shiftr r 6) 0x3F);
   Z.lor 0x80 (Z.land r 0x3F)].

Definition EncodeRune (r : rune) : bytestring :=
  if (0 <=? r) && (r <=? 0x7F) then [r]
  else if (0 <=? r) && (r <=? 0x7FF) then
    [Z.lor 0xC0 (Z.shiftr r 6); Z.lor 0x80 (Z.land r 0x3F)]
  else if (r <? 0) || (0x10FFFF <? r) || ((0xD800 <=? r) && (r <=? 0xDFFF)) then
    encode3 RuneError
  else if r <=? 0xFFFF then encode3 r
  else
    [Z.lor 0xF0 (Z.shiftr r 18); Z.lor 0x80 (Z.land (Z.shiftr r 12) 0x3F);
     Z.lor 0x80 (Z.land (Z.shiftr r 6) 0x3F); Z.lor 0x80 (Z.land r 0x3F)].

(** The text of a builder that got the runes [rs] by [WriteRune]. *)
Definition encodes (rs : gostring) : bytestring := concat (EncodeRune <$> rs).

(** [splitDirectives] on the bytes of its argument.  The [range] loop reads
    the runes of the line; the builder [current] gets runes by [WriteRune]
    only, so that its text is the encoding of the runes written, valid
    UTF-8, of which [strings.TrimSpace] trims the runes: the fragments are
    the encodings of the fragments of runes. *)
Definition splitDirectivesBytes (line : bytestring) : list bytestring :=
  encodes <$> splitDirectives (decodeRunes line).

(** ** ParseConfig *)

(** A Go [error] value, by its message. *)
Inductive error : Type := mkError (msg : gostring).

(** An opened file, for its reader: the bytes that [Read] delivers, up to
    the end of the file or to the first [Read] that fails, and the error of
    that [Read]. *)
Record File : Type := mkFile {
  content : bytestring;
  readErr : option error
}.

(** *** bufio.Scanner with bufio.ScanLines *)

(** [bufio.MaxScanTokenSize], the size that the buffer of a scanner made by
    [bufio.NewScanner] grows to, and [bufio.ErrTooLong]. *)
Definition MaxScanTokenSize : Z := 64 * 1024.
Definition ErrTooLong : error := mkError (runes "bufio.Scanner: token too long").

(** The text between the newlines of [data]: the text before each newline,
    and last the text after the last newline, empty or not. *)
Fixpoint splitNewline (data : bytestring) : list bytestring :=
  match data with
  | [] => [[]]
  | c :: rest =>
      if c =? 10 then [] :: splitNewline rest
      else
        match splitNewline rest with
        | seg :: segs => (c :: seg) :: segs
        | [] => [[c]]
        end
  end.

(** [dropCR] of bufio. *)
Definition dropCR (data : bytestring) : bytestring :=
  match last data with
  | Some 13 => take (length data - 1) data
  | _ => data
  end.

(** A line that the buffer cannot hold: [Scan] finds the buffer full, with
    [MaxScanTokenSize] bytes and no newline among them. *)
Definition tooLong (seg : bytestring) : bool :=
  MaxScanTokenSize <=? Z.of_nat (length seg).

(** The calls of [scanner.Scan] until it returns false: the tokens
    delivered, and the error that the scanner stopped on.  A line is
    delivered without its newline and without a carriage return before it;
    the text after the last newline is a line if it is not empty. *)
Fixpoint scanTokens (segs : list bytestring) : list bytestring * option error :=
  match segs with
  | [] => ([], None)
  | [seg] =>
      if tooLong seg then ([], Some ErrTooLong)
      else if bool_decide (seg = []) then ([], None)
      else ([dropCR seg], None)
  | seg :: rest =>
      if tooLong seg then ([], Some ErrTooLong)
      else (dropCR seg :: (scanTokens rest).1, (scanTokens rest).2)
  end.

(** The lines that [scanner.Text()] gives in turn, as the parser reads
    them, and [scanner.Err()] after the loop: the error the scanner stopped
    on, or else the error of the failed read. *)
Definition scanned (file : File) : list gostring :=
  decodeRunes <$> (scanTokens (splitNewline (content file))).1.

Definition scanErr (file : File) : option error :=
  match (scanTokens (splitNewline (content file))).2 with
  | Some err => Some err
  | None => readErr file
  end.

(** The [for scanner.Scan()] loop. *)
Fixpoint scanLoop (lines : list gostring) (currentBlock : ptr) (st : pstate)
    : result pstate :=
  match lines with
  | [] => mret st
  | text :: rest =>
      let line := TrimSpace text in
      if gostring_eqb line [] then scanLoop rest currentBlock st
      else
        st' ← parseLine line currentBlock st;
        if (0 <? length st'.2)%nat then
          top ← index st'.2 (length st'.2 - 1)%nat;
          scanLoop rest top st'
        else scanLoop rest currentBlock st'
  end.

Definition rootBlock : Block := mkBlock (runes "root") [] [] [] [] None.

(** Parsing the lines of an opened file: the arena with the root block at
    address 0, and the final stack. *)
Definition parseLines (lines : list gostring) : result pstate :=
  scanLoop lines 0%nat ([rootBlock], [0%nat]).

Section ParseConfig.
(** [os.Open], whatever the file system holds. *)
Variable os_Open : gostring -> File + error.

(** [(config, nil)] is [inl], with the arena the config points into;
    [(nil, err)] is [inr]. *)
Definition ParseConfig (filePath : gostring) : result (heap * Config + error) :=
  match os_Open filePath with
  | inr err => mret (inr err)
  | inl file =>
      st ← parseLines (scanned file);
      match scanErr file with
      | Some err => mret (inr err)
      | None => mret (inl (st.1, mkConfig 0%nat filePath))
      end
  end.
End ParseConfig.

(** ** The quote state of [splitDirectives], on its own *)

(** [inQuote] and [quoteMark]. *)
Abbreviation qstate := (bool * rune)%type.

Definition q0 : qstate := (false, 0).

(** What the arm for the two quote runes does to the quote state; any other rune
    leaves it as it is. *)
Definition quoteStep (q : qstate) (char : rune) : qstate :=
  if (char =? r_squote) || (char =? r_dquote) then
    if q.1 && (char =? q.2) then (false, 0)
    else if negb q.1 then (true, char)
    else q
  else q.

Definition quoteScan (s : gostring) (q : qstate) : qstate := fold_left quoteStep s q.

(** The position of the first [r] that the scan meets outside quotes. *)
Fixpoint firstUnquoted (r : rune) (s : gostring) (q : qstate) : option nat :=
  match s with
  | [] => None
  | c :: s' =>
      if (c =? r) && negb q.1 then Some O
      else S <$> firstUnquoted r s' (quoteStep q c)
  end.

(** ** printBlock *)

(** What [println] has written: the lines, in order. *)
Fixpoint forEach {A B} (f : A -> result (list B)) (l : list A) : result (list B) :=
  match l with
  | [] => mret []
  | a :: l' => out ← f a; rest ← forEach f l'; mret (out ++ rest)
  end.

(** [lineStr], for a line that is not of type [LineTypeBlock]. *)
Definition lineStrOf (indentStr : gostring) (line : Line) : gostring :=
  let lineStr := indentStr ++ runes "  " ++ Line_Name line in
  let lineStr :=
    if (0 <? length (Line_Params line))%nat
    then lineStr ++ runes " " ++ Join (Line_Params line) (runes " ") else lineStr in
  let lineStr :=
    if bool_decide (Line_Type line <> LineTypeComment)
    then lineStr ++ runes ";" else lineStr in
  if (0 <? length (Line_Comments line))%nat
  then lineStr ++ runes " # " ++ Join (Line_Comments line) (runes " ") else lineStr.

(** [blockStr] *)
Definition blockStrOf (indentStr : gostring) (block : Block) : gostring :=
  let blockStr := indentStr ++ Block_Name block in
  let blockStr :=
    if (0 <? length (Block_Params block))%nat
    then blockStr ++ runes " " ++ Join (Block_Params block) (runes " ") else blockStr in
  let blockStr := blockStr ++ runes " {" in
  if (0 <? length (Block_Comments block))%nat
  then blockStr ++ runes " # " ++ Join (Block_Comments block) (runes " ") else blockStr.

(** The loop over [block.Lines]. *)
Fixpoint printLines (indentStr : gostring) (lines : list Line) : list gostring :=
  match lines with
  | [] => []
  | line :: rest =>
      if bool_decide (Line_Type line = LineTypeBlock) then printLines indentStr rest
      else lineStrOf indentStr line :: printLines indentStr rest
  end.

(** [printBlock], with the recursion depth it may use. *)
Fixpoint printBlock (fuel : nat) (h : heap) (block : ptr) (indent : nat)
    : result (list gostring) :=
  match fuel with
  | O => OutOfFuel
  | S fuel' =>
      b ← load h block;
      let indentStr := Repeat (runes "  ") indent in
      let named := negb (gostring_eqb (Block_Name b) (runes "root")) in
      let header := if named then [blockStrOf indentStr b] else [] in
      let body := printLines indentStr (Block_Lines b) in
      children ← forEach (fun childBlock => printBlock fuel' h childBlock (indent + 1))
                   (Block_Blocks b);
      let footer := if named then [indentStr ++ runes "}"] else [] in
      mret (header ++ body ++ children ++ footer)
  end.

(** [PrintConfig], for a configuration and the arena it points into. *)
Definition PrintConfig (fuel : nat) (h : heap) (config : Config) : result (list gostring) :=
  printBlock fuel h (RootBlock config) 0.

(** ** The structure of a document *)

(** What the specification calls the structural content: the names and the
    arguments of the scopes and of their lines, with the kinds of the lines,
    without the comments. *)
#[warnings="-register-all"]
Inductive Shape : Type :=
  ShapeNode (name : gostring) (params : list gostring)
            (lines : list (LineType * gostring * list gostring))
            (children : list Shape).

Definition lineKey (l : Line) : LineType * gostring * list gostring :=
  (Line_Type l, Line_Name l, Line_Params l).

Fixpoint shapeOf (fuel : nat) (h : heap) (p : ptr) : option Shape :=
  match fuel with
  | O => None
  | S fuel' =>
      b ← h !! p;
      children ← mapM (shapeOf fuel' h) (Block_Blocks b);
      Some (ShapeNode (Block_Name b) (Block_Params b) (lineKey <$> Block_Lines b) children)
  end.

(** Print a parsed document and parse what was printed. *)
Definition reparse (fuel : nat) (h : heap) (config : Config) : result pstate :=
  out ← PrintConfig fuel h config; parseLines out.

(** ** Vocabulary of the properties *)

Definition blank (s : gostring) : Prop := Forall (λ c, isSpace c = true) s.

(** What is asked of a fragment: it is trimmed and holds no unquoted
    semicolon. *)
Definition fragment_ok (f : gostring) : Prop :=
  TrimSpace f = f ∧ firstUnquoted r_semi f q0 = None.

Definition brace_free (f : gostring) : Prop := firstUnquoted r_lbrace f q0 = None.

Definition brace_last (f : gostring) : Prop :=
  firstUnquoted r_lbrace f q0 = None ∨
  firstUnquoted r_lbrace f q0 = Some (length f - 1)%nat ∧ last f = Some r_lbrace.

(** No fragment holds an unquoted left brace, but the last one may end in
    it. *)
Fixpoint braces_ok (frs : list gostring) : Prop :=
  match frs with
  | [] => True
  | [f] => brace_last f
  | f :: frs' => brace_free f ∧ braces_ok frs'
  end.

(** *** What one line adds to the block it is parsed in *)

(** A block with lines and child pointers appended. *)
Definition extendBlock (news : list Line) (ptrs : list ptr) (b : Block) : Block :=
  mkBlock (Block_Name b) (Block_Params b) (Block_Lines b ++ news) (Block_Blocks b ++ ptrs)
          (Block_Comments b) (Block_ParentRef b).

(** [blockParamsOf] without its bounds checks. *)
Definition blockParams (parts : list gostring) : list gostring :=
  if (1 <? length parts)%nat then
    let lastParam := default [] (last parts) in
    let middle := take (length parts - 2) (drop 1 parts) in
    if gostring_eqb lastParam [r_lbrace] then middle
    else if HasSuffixRune lastParam r_lbrace then middle ++ [TrimSuffixRune lastParam r_lbrace]
    else drop 1 parts
  else [].

(** The [Line] that one iteration of the loop of [parseLine] appends for a
    fragment, if it appends one. *)
Definition lineOf (directive : gostring) (comments : list gostring) : option Line :=
  let directive := TrimSpace directive in
  match Fields directive with
  | [] => None
  | name :: params =>
      if HasSuffixRune directive r_lbrace then
        Some (mkLine name (blockParams (name :: params)) comments LineTypeBlock)
      else
        Some (mkLine name params comments
                (if gostring_eqb name (runes "include") then LineTypeInclude
                 else LineTypeDirective))
  end.

(** The lines that the loop appends for the fragments of a line: the first
    of them is given the comments. *)
Fixpoint linesOf (directives : list gostring) (comments : list gostring) : list Line :=
  match directives with
  | [] => []
  | directive :: rest =>
      match lineOf directive comments with
      | None => linesOf rest comments
      | Some l => l :: linesOf rest []
      end
  end.

(** The [LineTypeBlock] lines among the lines of a block. *)
Definition blockLines (ls : list Line) : list Line :=
  filter (λ l, Line_Type l = LineTypeBlock) ls.

(** The block that is allocated with a [LineTypeBlock] line. *)
Definition blockOfLine (parent : ptr) (l : Line) : Block :=
  mkBlock (Line_Name l) (Line_Params l) [] [] (Line_Comments l) (Some parent).

Definition newBlocks (parent : ptr) (news : list Line) : list Block :=
  blockOfLine parent <$> blockLines news.

(** The lines that [parseLine] appends to [currentBlock] for a line. *)
Definition producedLines (line : gostring) : list Line :=
  let '(comments, rest) := extractComment line in
  if gostring_eqb rest [] then
    if (0 <? length comments)%nat then [mkLine [] [] comments LineTypeComment] else []
  else if gostring_eqb rest [r_rbrace] then []
  else linesOf (splitDirectives rest) comments.

(** Whether the line is a closing brace, once its comment is taken off. *)
Definition closes (line : gostring) : bool :=
  gostring_eqb (extractComment line).2 [r_rbrace].

(** The arena after the block at [cur], which was [b], got the lines [news]
    and the blocks that they open. *)
Definition grow (h : heap) (cur : ptr) (b : Block) (news : list Line) : heap :=
  <[cur := extendBlock news (seq (length h) (length (newBlocks cur news))) b]> h
  ++ newBlocks cur news.

(** The stack of [ParseConfig] between two lines: the root block at the
    bottom, [currentBlock] on top, every pointer in the arena. *)
Definition stateOK (st : pstate) (cur : ptr) : Prop :=
  (∃ rest, st.2 = 0%nat :: rest) ∧ last st.2 = Some cur ∧
  Forall (λ p, (p < length st.1)%nat) st.2.

(** *** The shape of the tree in the arena *)

(** The block at [c] has the name and the parameters of the line [l]. *)
Definition mirrors (h : heap) (l : Line) (c : ptr) : Prop :=
  ∃ cb, h !! c = Some cb ∧ Block_Name cb = Line_Name l ∧ Block_Params cb = Line_Params l.

(** In every block, the [LineTypeBlock] lines and the child blocks go by
    pairs, in order. *)
Definition tree_shape (h : heap) : Prop :=
  ∀ p b, h !! p = Some b → Forall2 (mirrors h) (blockLines (Block_Lines b)) (Block_Blocks b).

(** The root block is at address 0. *)
Definition root_at_0 (h : heap) : Prop :=
  ∃ b, h !! 0%nat = Some b ∧ Block_Name b = runes "root" ∧ Block_Params b = [] ∧
       Block_ParentRef b = None.

(** Example lines. *)
Definition quoted (s : gostring) : gostring := [r_dquote] ++ s ++ [r_dquote].
Definition line_alpha : gostring := runes "alpha " ++ quoted (runes "b;c#d") ++ runes " gamma;".

(** *** Words *)

(** A word, as [strings.Fields] gives them: not empty, no space in it. *)
Definition word (w : gostring) : Prop := w ≠ [] ∧ Forall (λ c, isSpace c = false) w.

(** A string without its spaces. *)
Definition squeeze (s : gostring) : gostring := filter (λ c, isSpace c = false) s.

(** *** What every parsed line is like *)

(** A directive or include line: its words hold no hash, no unquoted
    semicolon or left brace, and do not end in a left brace; its type goes
    by its name. *)
Definition directive_wf (l : Line) : Prop :=
  let ws := Line_Name l :: Line_Params l in
  Forall word ws ∧ (r_hash ∉ concat ws) ∧
  firstUnquoted r_semi (concat ws) q0 = None ∧
  firstUnquoted r_lbrace (concat ws) q0 = None ∧
  last (concat ws) ≠ Some r_lbrace ∧
  Line_Type l = (if gostring_eqb (Line_Name l) (runes "include")
                 then LineTypeInclude else LineTypeDirective).

(** The name and the parameters of a block: no hash, no unquoted semicolon,
    and an unquoted left brace only at the end of a name without
    parameters. *)
Definition header_wf (name : gostring) (params : list gostring) : Prop :=
  let ws := name :: params in
  Forall word ws ∧ (r_hash ∉ concat ws) ∧
  firstUnquoted r_semi (concat ws) q0 = None ∧
  (firstUnquoted r_lbrace (concat ws) q0 = None ∨
   params = [] ∧ firstUnquoted r_lbrace name q0 = Some (length name - 1)%nat).

Definition line_wf (l : Line) : Prop :=
  match Line_Type l with
  | LineTypeComment => Line_Name l = [] ∧ Line_Params l = [] ∧ Line_Comments l ≠ []
  | LineTypeBlock => header_wf (Line_Name l) (Line_Params l)
  | _ => directive_wf l
  end.

Definition lines_wf (h : heap) : Prop :=
  ∀ p b, h !! p = Some b →
    Forall line_wf (Block_Lines b) ∧
    (p ≠ 0%nat → header_wf (Block_Name b) (Block_Params b)).

(** What a fragment of a line without hash is like. *)
Definition fragment_wf (f : gostring) : Prop :=
  fragment_ok f ∧ brace_last f ∧ (r_hash ∉ f).

(** *** Printing and parsing again *)

(** The comments that parsing a printed line gives. *)
Definition recomment (text : gostring) : list gostring :=
  (extractComment (TrimSpace text)).1.

(** The quotes of a directive are closed. *)
Definition quotes_closed (l : Line) : Prop :=
  (quoteScan (concat (Line_Name l :: Line_Params l)) q0).1 = false.

(** The line that parsing a printed line gives, when all goes well: the
    same but for the comments. *)
Definition reparsedLine (indentStr : gostring) (l : Line) : Line :=
  mkLine (Line_Name l) (Line_Params l) (recomment (lineStrOf indentStr l)) (Line_Type l).

Definition reparsedHeader (indentStr : gostring) (b : Block) : Line :=
  mkLine (Block_Name b) (Block_Params b) (recomment (blockStrOf indentStr b)) LineTypeBlock.

(** What the printer puts after a line for its comments. *)
Definition commentTail (comments : list gostring) : gostring :=
  if (0 <? length comments)%nat then runes " # " ++ Join comments (runes " ") else [].

(** *** Where the round trip holds *)

(** The child blocks are allocated after their parent. *)
Definition ordered (h : heap) : Prop :=
  ∀ p b, h !! p = Some b → Forall (λ c, (p < c < length h)%nat) (Block_Blocks b).

(** No line of another type comes after a line of type [LineTypeBlock]. *)
Fixpoint linesFirst (ls : list Line) : bool :=
  match ls with
  | [] => true
  | l :: ls' =>
      if bool_decide (Line_Type l = LineTypeBlock)
      then forallb (λ l', bool_decide (Line_Type l' = LineTypeBlock)) ls'
      else linesFirst ls'
  end.

(** The quotes of a line are closed, where it is a directive. *)
Definition quotesClosed (l : Line) : bool :=
  if bool_decide (Line_Type l = LineTypeDirective ∨ Line_Type l = LineTypeInclude)
  then negb (quoteScan (concat (Line_Name l :: Line_Params l)) q0).1
  else true.

(** In every block of the arena, the lines of type [LineTypeBlock] come
    last and the quotes of the directives are closed; no block but the one
    at address 0 is named as the root block is. *)
Definition printable (h : heap) : bool :=
  forallb (λ b, linesFirst (Block_Lines b) && forallb quotesClosed (Block_Lines b)) h
  && forallb (λ b, negb (gostring_eqb (Block_Name b) (runes "root"))) (drop 1 h).

(** The blocks from [base] on are a copy of a tree of shape [s], whatever is
    before them and after them in the arena. *)
Definition SegShape (fuel : nat) (seg : list Block) (base : nat) (s : Shape) : Prop :=
  ∀ pre post, length pre = base → shapeOf fuel (pre ++ seg ++ post) base = Some s.

(** The line of type [LineTypeBlock] of the block at [q]. *)
Definition headerOf (h : heap) (hdr : Line) (q : ptr) : Prop :=
  ∃ bq, h !! q = Some bq ∧ lineKey hdr = (LineTypeBlock, Block_Name bq, Block_Params bq).

(** What parsing the printed block at [p] of the arena [h] does, with the
    recursion depth [fuel]: it gives the current block one line of type
    [LineTypeBlock] and one child, and puts a copy of the tree under [p] at
    the end of the arena. *)
Definition block_spec (h : heap) (fuel : nat) : Prop :=
  ∀ p indent out s bp,
    h !! p = Some bp → p ≠ 0%nat →
    printBlock fuel h p indent = Done out → shapeOf fuel h p = Some s →
    ∀ rest cur (H : heap) stk bcur,
      H !! cur = Some bcur → last stk = Some cur →
      ∃ seg hdr,
        scanLoop (out ++ rest) cur (H, stk) =
          scanLoop rest cur (<[cur := extendBlock [hdr] [length H] bcur]> H ++ seg, stk) ∧
        headerOf h hdr p ∧
        SegShape fuel seg (length H) s.

(** What holds of every arena that parsing gives. *)
Definition parsed_ok (h : heap) : Prop :=
  lines_wf h ∧ tree_shape h ∧ ordered h ∧ root_at_0 h.

(** *** The lines of a file *)

(** One of the lines of the file, with the text after its last newline,
    has [MaxScanTokenSize] bytes or more. *)
Definition hasLongLine (data : bytestring) : bool := existsb tooLong (splitNewline data).

(** A file that opens and reads without a failure: one line of 65536
    letters a. *)
Definition long_line_file : File := mkFile (replicate (Z.to_nat MaxScanTokenSize) 97) None.

(** *** Example documents *)

Definition heap_of (lines : list gostring) : heap :=
  match parseLines lines with Done st => st.1 | _ => [] end.

Definition stack_of (lines : list gostring) : list ptr :=
  match parseLines lines with Done st => st.2 | _ => [] end.

(** The shape of a parsed document, and the shape of what parsing its print
    gives. *)
Definition roundTripShapes (lines : list gostring) : result (option Shape * option Shape) :=
  st ← parseLines lines;
  st2 ← reparse (length st.1) st.1 (mkConfig 0%nat []);
  mret (shapeOf (length st.1) st.1 0%nat, shapeOf (length st.1) st2.1 0%nat).

Definition doc_block_then_directive : list gostring :=
  [runes "a {"; runes "}"; runes "b 1;"].

Definition doc_open_quote : list gostring := [runes "a " ++ [r_dquote] ++ runes "b"].

Definition doc_block_named_root : list gostring := [runes "root {"; runes "x 1;"; runes "}"].

Definition doc_nested : list gostring :=
  [runes "user www; # who"; runes "http { # c"; runes "server {"; runes "listen 80; # x";
   runes "# only"; runes "}"; runes "}"].

(** ** The tree view: formatLineInfo, printTreeBlock, PrintTree *)

(** The branch and indent strings of the tree view, by their code points:
    a tee, a corner, a vertical bar (each with its dashes or spaces), and
    four spaces. *)
Definition branchMid : gostring := [9500; 9472; 9472; 32].
Definition branchLast : gostring := [9492; 9472; 9472; 32].
Definition pipeIndent : gostring := [9474; 32; 32; 32].
Definition blankIndent : gostring := runes "    ".

(** The verb [%d] of [fmt.Sprintf], for a length. *)
Definition itoa (n : nat) : gostring := runes (NilEmpty.string_of_uint (Nat.to_uint n)).

Definition formatLineInfo (line : Line) : gostring :=
  match Line_Type line with
  | LineTypeComment => runes "Comment: " ++ Join (Line_Comments line) (runes " ")
  | LineTypeInclude =>
      runes "Include: " ++ Line_Name line ++ runes " " ++ Join (Line_Params line) (runes " ")
  | LineTypeDirective =>
      runes "Directive: " ++ Line_Name line ++ runes " " ++ Join (Line_Params line) (runes " ")
  | LineTypeBlock =>
      runes "BlockStart: " ++ Line_Name line ++ runes " " ++ Join (Line_Params line) (runes " ")
  end.

(** A loop [for j, comment := range comments] of the tree view, from the
    index [j] on: the last comment of [n] gets the corner when [corner]
    holds. *)
Fixpoint treeComments (commentPrefix : gostring) (n : nat) (corner : bool) (j : nat)
    (comments : list gostring) : list gostring :=
  match comments with
  | [] => []
  | comment :: rest =>
      let commentBranch := if (j =? n - 1)%nat && corner then branchLast else branchMid in
      (commentPrefix ++ commentBranch ++ runes "Comment: " ++ comment)
      :: treeComments commentPrefix n corner (S j) rest
  end.

(** The loop [for i, line := range block.Lines], from the index [i] on. *)
Fixpoint treeLines (prefix : gostring) (nLines nBlocks : nat) (i : nat) (lines : list Line)
    : list gostring :=
  match lines with
  | [] => []
  | line :: rest =>
      let isLast := (i =? nLines - 1)%nat && (nBlocks =? 0)%nat in
      let branch := if isLast then branchLast else branchMid in
      let lineInfo := formatLineInfo line in
      (prefix ++ branch ++ lineInfo)
      :: (if bool_decide (Line_Type line <> LineTypeComment)
             && (0 <? length (Line_Comments line))%nat
          then
            let commentPrefix := prefix ++ (if isLast then blankIndent else pipeIndent) in
            treeComments commentPrefix (length (Line_Comments line)) true 0
              (Line_Comments line)
          else [])
      ++ treeLines prefix nLines nBlocks (S i) rest
  end.

(** [blockInfo] *)
Definition blockInfoOf (childBlock : Block) : gostring :=
  let blockInfo := Block_Name childBlock in
  let blockInfo :=
    if (0 <? length (Block_Params childBlock))%nat
    then blockInfo ++ runes " " ++ Join (Block_Params childBlock) (runes " ") else blockInfo in
  let blockInfo := blockInfo ++ runes " {}" in
  if (0 <? length (Block_Comments childBlock))%nat
  then blockInfo ++ runes " (Comments: " ++ itoa (length (Block_Comments childBlock)) ++ runes ")"
  else blockInfo.

(** A loop with its index, over effects that write lines. *)
Fixpoint forEachI {A B} (f : nat -> A -> result (list B)) (i : nat) (l : list A)
    : result (list B) :=
  match l with
  | [] => mret []
  | a :: l' => out ← f i a; rest ← forEachI f (S i) l'; mret (out ++ rest)
  end.

(** The body of the loop [for i, childBlock := range block.Blocks], with
    the recursive call as [rec]. *)
Definition treeChild (rec : ptr -> gostring -> result (list gostring)) (h : heap)
    (prefix : gostring) (nBlocks : nat) (i : nat) (childPtr : ptr)
    : result (list gostring) :=
  childBlock ← load h childPtr;
  let isLast := (i =? nBlocks - 1)%nat in
  let branch := if isLast then branchLast else branchMid in
  let nextPrefix := prefix ++ (if isLast then blankIndent else pipeIndent) in
  let corner := (length (Block_Lines childBlock) =? 0)%nat
                && (length (Block_Blocks childBlock) =? 0)%nat in
  let commentOut :=
    if (0 <? length (Block_Comments childBlock))%nat
    then treeComments nextPrefix (length (Block_Comments childBlock)) corner 0
           (Block_Comments childBlock)
    else [] in
  out ← rec childPtr nextPrefix;
  mret ((prefix ++ branch ++ runes "Block: " ++ blockInfoOf childBlock)
        :: commentOut ++ out).

(** [printTreeBlock], with the recursion depth it may use. *)
Fixpoint printTreeBlock (fuel : nat) (h : heap) (block : ptr) (prefix : gostring)
    : result (list gostring) :=
  match fuel with
  | O => OutOfFuel
  | S fuel' =>
      b ← load h block;
      let nLines := length (Block_Lines b) in
      let nBlocks := length (Block_Blocks b) in
      let lineOut := treeLines prefix nLines nBlocks 0 (Block_Lines b) in
      blockOut ← forEachI (treeChild (printTreeBlock fuel' h) h prefix nBlocks) 0
                   (Block_Blocks b);
      mret (lineOut ++ blockOut)
  end.

(** [PrintTree], for a configuration and the arena it points into. *)
Definition PrintTree (fuel : nat) (h : heap) (config : Config) : result (list gostring) :=
  out ← printTreeBlock fuel h (RootBlock config) (runes "    ");
  mret ((runes "Configuration File: " ++ FilePath config)
        :: (branchLast ++ runes "Root") :: out).

(** ** Vocabulary of the further properties *)

(** A contiguous piece of a string. *)
Definition piece_of (f line : gostring) : Prop := ∃ a b, line = a ++ f ++ b.

(** A string that [range] and [WriteRune] give back as it is, byte for
    byte: this is the case of the valid UTF-8 strings and of no other, an
    invalid byte being read as U+FFFD and written in three bytes. *)
Definition ValidString (s : bytestring) : Prop := encodes (decodeRunes s) = s.

(** Of the fragments of a line, only the last can end in a left brace. *)
Fixpoint only_last_opens (frs : list gostring) : Prop :=
  match frs with
  | [] => True
  | [f] => True
  | f :: frs' => HasSuffixRune (TrimSpace f) r_lbrace = false ∧ only_last_opens frs'
  end.

(** Lines of which only the last can be of type [LineTypeBlock]. *)
Definition block_line_last (ls : list Line) : Prop :=
  Forall (λ l, Line_Type l ≠ LineTypeBlock) ls ∨
  ∃ ls' l, ls = ls' ++ [l] ∧ Forall (λ l', Line_Type l' ≠ LineTypeBlock) ls' ∧
           Line_Type l = LineTypeBlock.

(** The stack is a chain of parents: each block on it is the parent of the
    one pushed after it. *)
Definition chain (st : pstate) : Prop :=
  ∀ i a c, st.2 !! i = Some a → st.2 !! S i = Some c →
    ∃ cb, st.1 !! c = Some cb ∧ Block_ParentRef cb = Some a.

(** The blocks of the arena are a tree: the children of a block are the
    blocks that name it as their parent, a parent is allocated before its
    children, no block is twice a child, and the root block alone, at
    address 0, has no parent. *)
Definition family (h : heap) : Prop :=
  (∀ p b c, h !! p = Some b → c ∈ Block_Blocks b →
     ∃ cb, h !! c = Some cb ∧ Block_ParentRef cb = Some p) ∧
  (∀ c cb q, h !! c = Some cb → Block_ParentRef cb = Some q →
     (q < c)%nat ∧ ∃ b, h !! q = Some b ∧ c ∈ Block_Blocks b) ∧
  (∀ p b, h !! p = Some b → NoDup (Block_Blocks b)) ∧
  (∀ c cb, h !! c = Some cb → (Block_ParentRef cb = None ↔ c = 0%nat)).

(** The blocks met from [p] by following [ParentRef], [fuel] steps at
    most. *)
Fixpoint ancestors (fuel : nat) (h : heap) (p : ptr) : list ptr :=
  match fuel with
  | O => []
  | S fuel' =>
      match h !! p with
      | Some b =>
          match Block_ParentRef b with
          | Some q => q :: ancestors fuel' h q
          | None => []
          end
      | None => []
      end
  end.

(** The comments of a line or of a block: one at most, trimmed. *)
Definition comments_ok (cs : list gostring) : Prop :=
  (length cs ≤ 1)%nat ∧ Forall (λ c, TrimSpace c = c) cs.

Definition tidy (h : heap) : Prop :=
  ∀ p b, h !! p = Some b →
    comments_ok (Block_Comments b) ∧
    Forall (λ l, comments_ok (Line_Comments l)) (Block_Lines b).

(** What a user can rely on for a parsed line, by its type. *)
Definition line_facts (l : Line) : Prop :=
  comments_ok (Line_Comments l) ∧
  match Line_Type l with
  | LineTypeComment =>
      Line_Name l = [] ∧ Line_Params l = [] ∧ length (Line_Comments l) = 1%nat
  | LineTypeInclude =>
      Line_Name l = runes "include" ∧ Forall word (Line_Params l) ∧
      (r_hash ∉ concat (Line_Params l))
  | LineTypeDirective =>
      Line_Name l ≠ runes "include" ∧ Forall word (Line_Name l :: Line_Params l) ∧
      (r_hash ∉ concat (Line_Name l :: Line_Params l))
  | LineTypeBlock =>
      Forall word (Line_Name l :: Line_Params l) ∧
      (r_hash ∉ concat (Line_Name l :: Line_Params l))
  end.

(** The arena [h'] has all of [h], and more: every block of [h] is in [h']
    at its address, with its name, parameters, comments and parent, and
    with its lines and children followed by new ones. *)
Definition extends (h h' : heap) : Prop :=
  ∀ p b, h !! p = Some b →
    ∃ b', h' !! p = Some b' ∧
      Block_Name b' = Block_Name b ∧ Block_Params b' = Block_Params b ∧
      Block_Comments b' = Block_Comments b ∧ Block_ParentRef b' = Block_ParentRef b ∧
      Block_Lines b `prefix_of` Block_Lines b' ∧
      Block_Blocks b `prefix_of` Block_Blocks b'.

(** *** The drawing of the tree view *)

(** The rune of a printed line in the column [n]. *)
Definition midAt (n : nat) (s : gostring) : Prop := s !! n = Some 9500 ∨ s !! n = Some 9474.
Definition cornerAt (n : nat) (s : gostring) : Prop := s !! n = Some 9492.
Definition blankAt (n : nat) (s : gostring) : Prop := s !! n = Some 32.

(** In the column [n], the lines have a tee or a bar down to one line with
    a corner, and a space from there on. *)
Definition drawn (n : nat) (out : list gostring) : Prop :=
  ∃ before l after,
    out = before ++ l :: after ∧
    Forall (midAt n) before ∧ cornerAt n l ∧ Forall (blankAt n) after.

(** * Properties *)

(** ** Strings *)

Lemma trimLeft_split s : ∃ ws, s = ws ++ trimLeft s ∧ blank ws.
Proof.
  induction s as [|c s IH].
  - exists []. split; [done | constructor].
  - simpl. destruct (isSpace c) eqn:Hc.
    + destruct IH as (ws & Hs & Hws). exists (c :: ws). split.
      * simpl. by f_equal.
      * by constructor.
    + exists []. split; [done | constructor].
Qed.

Lemma trimLeft_head s c t : trimLeft s = c :: t → isSpace c = false.
Proof.
  induction s as [|d s IH]; simpl; [done |].
  destruct (isSpace d) eqn:Hd; [done |]. intros [= -> _]. done.
Qed.

Lemma trimLeft_nonspace c s : isSpace c = false → trimLeft (c :: s) = c :: s.
Proof. intros H. simpl. by rewrite H. Qed.

Lemma trimLeft_blank ws s : blank ws → trimLeft (ws ++ s) = trimLeft s.
Proof. induction 1 as [|c ws Hc _ IH]; simpl; [done |]. by rewrite Hc. Qed.

Lemma trimLeft_snoc s c : isSpace c = false → trimLeft (s ++ [c]) = trimLeft s ++ [c].
Proof.
  intros Hc. induction s as [|d s IH]; simpl.
  - by rewrite Hc.
  - destruct (isSpace d); [done | done].
Qed.

Lemma trimRight_snoc s c : isSpace c = false → trimRight (s ++ [c]) = s ++ [c].
Proof.
  intros Hc. unfold trimRight. rewrite reverse_snoc, trimLeft_nonspace by done.
  by rewrite reverse_cons, reverse_involutive.
Qed.

Lemma trimRight_split s : ∃ ws, s = trimRight s ++ ws ∧ blank ws.
Proof.
  unfold trimRight. destruct (trimLeft_split (reverse s)) as (ws & Hs & Hws).
  exists (reverse ws). split.
  - rewrite <- reverse_app, <- Hs. by rewrite reverse_involutive.
  - unfold blank. by rewrite Forall_reverse.
Qed.

Lemma TrimSpace_split s :
  ∃ ws1 ws2, s = ws1 ++ TrimSpace s ++ ws2 ∧ blank ws1 ∧ blank ws2.
Proof.
  unfold TrimSpace. destruct (trimLeft_split s) as (ws1 & Hs & H1).
  destruct (trimRight_split (trimLeft s)) as (ws2 & Ht & H2).
  exists ws1, ws2. split; [| done]. by rewrite <- Ht.
Qed.

Lemma TrimSpace_snoc s c : isSpace c = false → TrimSpace (s ++ [c]) = trimLeft s ++ [c].
Proof.
  intros Hc. unfold TrimSpace. rewrite trimLeft_snoc by done. by apply trimRight_snoc.
Qed.

(** A string that starts and ends with a non-space rune is its own trim. *)
Lemma TrimSpace_fixed c s d :
  isSpace c = false → isSpace d = false → TrimSpace (c :: s ++ [d]) = c :: s ++ [d].
Proof.
  intros Hc Hd. change (c :: s ++ [d]) with ((c :: s) ++ [d]).
  rewrite TrimSpace_snoc by done. by rewrite trimLeft_nonspace.
Qed.

Lemma TrimSpace_single c : isSpace c = false → TrimSpace [c] = [c].
Proof. intros Hc. by apply (TrimSpace_snoc [] c). Qed.

(** The trimmed string starts and ends with a non-space rune. *)
Lemma TrimSpace_head s c t : TrimSpace s = c :: t → isSpace c = false.
Proof.
  unfold TrimSpace. intros H.
  destruct (trimRight_split (trimLeft s)) as (ws & Ht & Hws).
  rewrite H in Ht. eapply trimLeft_head. exact Ht.
Qed.

Lemma trimRight_last s c : last (trimRight s) = Some c → isSpace c = false.
Proof.
  unfold trimRight. rewrite last_reverse. intros H.
  destruct (trimLeft (reverse s)) as [|d t] eqn:E; [done |].
  simpl in H. injection H as ->. by eapply trimLeft_head.
Qed.

Lemma TrimSpace_last s c : last (TrimSpace s) = Some c → isSpace c = false.
Proof. apply trimRight_last. Qed.

Lemma TrimSpace_idemp s : TrimSpace (TrimSpace s) = TrimSpace s.
Proof.
  destruct (TrimSpace s) as [|c t] eqn:E; [done |].
  pose proof (TrimSpace_head _ _ _ E) as Hc.
  destruct (decide (t = [])) as [-> | Hne].
  - by apply TrimSpace_single.
  - destruct (exists_last Hne) as (t' & d & ->).
    apply TrimSpace_fixed; [done |].
    apply (TrimSpace_last s). rewrite E.
    change (c :: t' ++ [d]) with ((c :: t') ++ [d]). by rewrite last_snoc.
Qed.

(** ** The quote scan *)

Lemma quoteStep_space q c : isSpace c = true → quoteStep q c = q.
Proof.
  intros Hc. unfold quoteStep.
  destruct (c =? r_squote) eqn:E1.
  { apply Z.eqb_eq in E1. subst. discriminate. }
  destruct (c =? r_dquote) eqn:E2.
  { apply Z.eqb_eq in E2. subst. discriminate. }
  done.
Qed.

Lemma quoteStep_other q c : c ≠ r_squote → c ≠ r_dquote → quoteStep q c = q.
Proof.
  intros H1 H2. unfold quoteStep.
  apply Z.eqb_neq in H1, H2. by rewrite H1, H2.
Qed.

Lemma quoteScan_blank ws q : blank ws → quoteScan ws q = q.
Proof.
  induction 1 as [|c ws Hc _ IH]; [done |].
  unfold quoteScan in *. simpl. by rewrite quoteStep_space.
Qed.

Lemma quoteScan_app a b q : quoteScan (a ++ b) q = quoteScan b (quoteScan a q).
Proof. apply fold_left_app. Qed.

Lemma quoteScan_cons c s q : quoteScan (c :: s) q = quoteScan s (quoteStep q c).
Proof. reflexivity. Qed.

Lemma firstUnquoted_app r a b q :
  firstUnquoted r (a ++ b) q =
  match firstUnquoted r a q with
  | Some i => Some i
  | None => (λ i, length a + i)%nat <$> firstUnquoted r b (quoteScan a q)
  end.
Proof.
  revert q. induction a as [|c a IH]; intros q; simpl.
  - by destruct (firstUnquoted r b q).
  - destruct ((c =? r) && negb q.1); [done |].
    rewrite IH. destruct (firstUnquoted r a (quoteStep q c)); [done |].
    unfold quoteScan. simpl. by destruct (firstUnquoted r b _).
Qed.

Lemma firstUnquoted_blank r ws q : isSpace r = false → blank ws → firstUnquoted r ws q = None.
Proof.
  intros Hr Hws. revert q. induction Hws as [|c ws Hc _ IH]; intros q; simpl; [done |].
  destruct (c =? r) eqn:E.
  { apply Z.eqb_eq in E. congruence. }
  simpl. by rewrite IH.
Qed.

Lemma firstUnquoted_lt r s q i : firstUnquoted r s q = Some i → (i < length s)%nat.
Proof.
  revert q i. induction s as [|c s IH]; intros q i; simpl; [done |].
  destruct ((c =? r) && negb q.1).
  - intros [= <-]. lia.
  - destruct (firstUnquoted r s (quoteStep q c)) eqn:E; [| done].
    simpl. intros [= <-]. apply IH in E. lia.
Qed.

Lemma firstUnquoted_lookup r s q i : firstUnquoted r s q = Some i → s !! i = Some r.
Proof.
  revert q i. induction s as [|c s IH]; intros q i; simpl; [done |].
  destruct (c =? r) eqn:E; simpl.
  - destruct (negb q.1).
    + intros [= <-]. apply Z.eqb_eq in E. by subst.
    + destruct (firstUnquoted r s (quoteStep q c)) eqn:E'; [| done].
      simpl. intros [= <-]. simpl. eauto.
  - destruct (firstUnquoted r s (quoteStep q c)) eqn:E'; [| done].
    simpl. intros [= <-]. simpl. eauto.
Qed.

(** Trimming moves the first unquoted [r] by the blanks taken off the front,
    and neither adds nor removes one. *)
Lemma firstUnquoted_TrimSpace r s :
  isSpace r = false →
  ∃ k, firstUnquoted r s q0 = (λ i, k + i)%nat <$> firstUnquoted r (TrimSpace s) q0.
Proof.
  intros Hr. destruct (TrimSpace_split s) as (ws1 & ws2 & Hs & H1 & H2).
  exists (length ws1). rewrite Hs at 1.
  rewrite firstUnquoted_app, (firstUnquoted_blank r ws1) by done.
  rewrite quoteScan_blank by done. rewrite firstUnquoted_app.
  destruct (firstUnquoted r (TrimSpace s) q0); [done |].
  by rewrite (firstUnquoted_blank r ws2).
Qed.

Lemma firstUnquoted_TrimSpace_None r s :
  isSpace r = false → firstUnquoted r s q0 = None → firstUnquoted r (TrimSpace s) q0 = None.
Proof.
  intros Hr H. destruct (firstUnquoted_TrimSpace r s Hr) as (k & Hk).
  rewrite H in Hk. by destruct (firstUnquoted r (TrimSpace s) q0).
Qed.

(** ** One step of [splitDirectives] *)

(** The loop, by what the rune at hand is: an unquoted [;] closes the
    fragment, an unquoted [{] closes it and ends the loop, any other rune
    goes into the fragment and moves the quote state. *)
Lemma splitLoop_cons c rest results current (q : qstate) :
  splitLoop (c :: rest) results current q.1 q.2 =
  if (c =? r_semi) && negb q.1 then
    splitLoop rest (results ++ [TrimSpace current]) [] q.1 q.2
  else if (c =? r_lbrace) && negb q.1 then results ++ [TrimSpace (current ++ [c])]
  else splitLoop rest results (current ++ [c]) (quoteStep q c).1 (quoteStep q c).2.
Proof.
  destruct q as [inQuote quoteMark]. cbn [splitLoop fst snd]. unfold quoteStep.
  cbn [fst snd].
  destruct (c =? r_squote) eqn:E1.
  { apply Z.eqb_eq in E1. subst c.
    change (r_squote =? r_semi) with false. change (r_squote =? r_lbrace) with false.
    cbn [orb andb].
    destruct inQuote; cbn [orb andb negb fst snd]; [| done].
    by destruct (r_squote =? quoteMark). }
  destruct (c =? r_dquote) eqn:E2.
  { apply Z.eqb_eq in E2. subst c.
    change (r_dquote =? r_semi) with false. change (r_dquote =? r_lbrace) with false.
    cbn [orb andb].
    destruct inQuote; cbn [orb andb negb fst snd]; [| done].
    by destruct (r_dquote =? quoteMark). }
  cbn [orb andb fst snd]. destruct (c =? r_semi) eqn:E3.
  { destruct inQuote; cbn [andb negb]; by rewrite ?andb_false_r. }
  cbn [orb andb]. destruct (c =? r_lbrace) eqn:E4; by destruct inQuote.
Qed.

Lemma splitLoop_nil results current (q : qstate) :
  splitLoop [] results current q.1 q.2 =
  if (0 <? length current)%nat then results ++ [TrimSpace current] else results.
Proof. reflexivity. Qed.

(** The fragments already emitted stay: the loop only adds to them. *)
Lemma splitLoop_results line results current (q : qstate) :
  splitLoop line results current q.1 q.2 = results ++ splitLoop line [] current q.1 q.2.
Proof.
  revert results current q. induction line as [|c rest IH]; intros results current q.
  - rewrite !splitLoop_nil. destruct (0 <? length current)%nat; [done |].
    by rewrite app_nil_r.
  - rewrite !splitLoop_cons.
    destruct ((c =? r_semi) && negb q.1).
    { rewrite (IH (results ++ _)), (IH ([] ++ _)). by rewrite <- app_assoc. }
    destruct ((c =? r_lbrace) && negb q.1); [done |].
    apply (IH results (current ++ [c]) (quoteStep q c)).
Qed.

(** ** The fragments of [splitDirectives] *)

(** Outside quotes the quote mark is the zero rune, as at the start. *)
Lemma quoteStep_mark q c : (q.1 = false → q.2 = 0) → (quoteStep q c).1 = false → (quoteStep q c).2 = 0.
Proof.
  destruct q as [b m]. unfold quoteStep. simpl. intros Hq.
  destruct ((c =? r_squote) || (c =? r_dquote)); [| done].
  destruct b; simpl.
  - by destruct (c =? m).
  - done.
Qed.

Lemma quoteScan_mark s q : (q.1 = false → q.2 = 0) → (quoteScan s q).1 = false → (quoteScan s q).2 = 0.
Proof.
  revert q. induction s as [|c s IH]; intros q Hq; [done |].
  rewrite quoteScan_cons. apply IH. by apply quoteStep_mark.
Qed.

Lemma quoteScan_q0 s : (quoteScan s q0).1 = false → quoteScan s q0 = q0.
Proof.
  intros H. pose proof (quoteScan_mark s q0 (λ _, eq_refl) H) as H2.
  destruct (quoteScan s q0) as [b m]. simpl in *. by subst.
Qed.

Lemma firstUnquoted_snoc_None r s c :
  firstUnquoted r s q0 = None →
  (c =? r) && negb (quoteScan s q0).1 = false →
  firstUnquoted r (s ++ [c]) q0 = None.
Proof.
  intros Hs Hc. rewrite firstUnquoted_app, Hs. simpl. by rewrite Hc.
Qed.

Lemma fragment_ok_TrimSpace s : firstUnquoted r_semi s q0 = None → fragment_ok (TrimSpace s).
Proof.
  intros H. split; [apply TrimSpace_idemp |].
  by apply firstUnquoted_TrimSpace_None.
Qed.

Lemma brace_last_snoc current :
  brace_free current → (quoteScan current q0).1 = false →
  brace_last (TrimSpace (current ++ [r_lbrace])).
Proof.
  intros Hb Hq. right. rewrite TrimSpace_snoc by reflexivity.
  destruct (trimLeft_split current) as (ws & Hc & Hws).
  assert (firstUnquoted r_lbrace (trimLeft current) q0 = None) as Ht.
  { unfold brace_free in Hb. rewrite Hc, firstUnquoted_app in Hb.
    rewrite (firstUnquoted_blank _ ws) in Hb by (done || reflexivity).
    rewrite quoteScan_blank in Hb by done.
    by apply fmap_None in Hb. }
  assert (quoteScan (trimLeft current) q0 = quoteScan current q0) as Hs.
  { rewrite Hc at 2. rewrite quoteScan_app. by rewrite (quoteScan_blank ws). }
  split; [| by rewrite last_snoc].
  rewrite firstUnquoted_app, Ht. simpl. rewrite Hs, Hq. simpl.
  f_equal. rewrite length_app. simpl. lia.
Qed.

Lemma braces_ok_cons f frs : brace_free f → braces_ok frs → braces_ok (f :: frs).
Proof. intros Hf Hfrs. destruct frs; [by left | done]. Qed.

Lemma splitLoop_contract line current (q : qstate) :
  firstUnquoted r_semi current q0 = None →
  brace_free current →
  quoteScan current q0 = q →
  Forall fragment_ok (splitLoop line [] current q.1 q.2) ∧
  braces_ok (splitLoop line [] current q.1 q.2).
Proof.
  revert current q. induction line as [|c rest IH]; intros current q Hsemi Hbrace Hq.
  - rewrite splitLoop_nil. destruct (0 <? length current)%nat; simpl.
    + split.
      * constructor; [| constructor]. by apply fragment_ok_TrimSpace.
      * left. by apply firstUnquoted_TrimSpace_None.
    + split; [constructor | done].
  - rewrite splitLoop_cons.
    destruct ((c =? r_semi) && negb q.1) eqn:E1.
    { apply andb_true_iff in E1 as [_ Hq1]. apply negb_true_iff in Hq1.
      assert (q = q0) as -> by (subst q; by apply quoteScan_q0).
      rewrite splitLoop_results.
      destruct (IH [] q0 eq_refl eq_refl eq_refl) as (H1 & H2).
      split.
      - constructor; [by apply fragment_ok_TrimSpace | done].
      - apply braces_ok_cons; [| done]. by apply firstUnquoted_TrimSpace_None. }
    destruct ((c =? r_lbrace) && negb q.1) eqn:E2.
    { apply andb_true_iff in E2 as [Hc Hq1]. apply negb_true_iff in Hq1.
      apply Z.eqb_eq in Hc. subst c. simpl. split.
      - constructor; [| constructor]. apply fragment_ok_TrimSpace.
        apply firstUnquoted_snoc_None; [done |]. reflexivity.
      - apply brace_last_snoc; [done |]. by rewrite Hq. }
    apply IH.
    + apply firstUnquoted_snoc_None; [done |]. by rewrite Hq.
    + apply firstUnquoted_snoc_None; [done |]. by rewrite Hq.
    + by rewrite quoteScan_app, Hq.
Qed.

(** The fragments of a line: each is trimmed and free of unquoted
    semicolons, and only the last can hold an unquoted left brace, as its
    last rune. *)
Lemma splitDirectives_fragments line :
  Forall fragment_ok (splitDirectives line) ∧ braces_ok (splitDirectives line).
Proof. by apply (splitLoop_contract line [] q0). Qed.

(** ** Splitting stops at the first unquoted left brace *)

Lemma firstUnquoted_cons_Some r c s q i :
  firstUnquoted r (c :: s) q = Some i →
  (c =? r) && negb q.1 = true ∧ i = O ∨
  (c =? r) && negb q.1 = false ∧ ∃ j, i = S j ∧ firstUnquoted r s (quoteStep q c) = Some j.
Proof.
  simpl. destruct ((c =? r) && negb q.1).
  - intros [= <-]. by left.
  - destruct (firstUnquoted r s (quoteStep q c)) as [j|]; [| done].
    simpl. intros [= <-]. right. eauto.
Qed.

(** Nothing after the brace is looked at. *)
Lemma splitLoop_discards line results current (q : qstate) i post :
  firstUnquoted r_lbrace line q = Some i →
  splitLoop (take (S i) line ++ post) results current q.1 q.2 =
  splitLoop line results current q.1 q.2.
Proof.
  revert results current q i.
  induction line as [|c rest IH]; intros results current q i H; [done |].
  apply firstUnquoted_cons_Some in H as [[Hc ->] | [Hc (j & -> & Hj)]].
  - simpl take. rewrite <- app_comm_cons, !splitLoop_cons, Hc.
    apply andb_true_iff in Hc as [Hc Hq]. apply Z.eqb_eq in Hc. subst c.
    reflexivity.
  - change (take (S (S j)) (c :: rest)) with (c :: take (S j) rest).
    rewrite <- app_comm_cons, !splitLoop_cons, Hc.
    destruct ((c =? r_semi) && negb q.1) eqn:E.
    + apply IH. apply andb_true_iff in E as [E _]. apply Z.eqb_eq in E. subst c.
      by rewrite quoteStep_other in Hj.
    + by apply (IH results (current ++ [c]) (quoteStep q c)).
Qed.

(** The text before the brace, cut after its last unquoted semicolon: what
    comes before the cut is split as a line of its own, what comes after it
    is the fragment that the brace ends. *)
Lemma splitLoop_brace line results current (q : qstate) i :
  firstUnquoted r_lbrace line q = Some i →
  ∃ before cur,
    take i line = before ++ cur ∧
    firstUnquoted r_semi cur (quoteScan before q) = None ∧
    (before = [] ∨ ∃ b, before = b ++ [r_semi] ∧ (quoteScan b q).1 = false) ∧
    splitLoop line results current q.1 q.2 =
      match before with
      | [] => results ++ [TrimSpace (current ++ cur ++ [r_lbrace])]
      | _ => splitLoop before results current q.1 q.2 ++ [TrimSpace (cur ++ [r_lbrace])]
      end.
Proof.
  revert results current q i.
  induction line as [|c rest IH]; intros results current q i H; [done |].
  apply firstUnquoted_cons_Some in H as [[Hc ->] | [Hc (j & -> & Hj)]].
  - exists [], []. rewrite splitLoop_cons, Hc.
    apply andb_true_iff in Hc as [Hc Hq]. apply Z.eqb_eq in Hc. subst c.
    split_and!; [done | done | by left | done].
  - rewrite splitLoop_cons, Hc.
    destruct ((c =? r_semi) && negb q.1) eqn:E.
    + apply andb_true_iff in E as [E Hq]. apply Z.eqb_eq in E. subst c.
      rewrite quoteStep_other in Hj by done.
      destruct (IH (results ++ [TrimSpace current]) [] q j Hj)
        as (before & cur & Htake & Hsemi & Hbefore & Heq).
      exists (r_semi :: before), cur. split_and!.
      * simpl. by rewrite Htake.
      * rewrite quoteScan_cons. by rewrite quoteStep_other.
      * right. destruct Hbefore as [-> | (b & -> & Hb)].
        -- exists []. split; [done |]. by apply negb_true_iff.
        -- exists (r_semi :: b). split; [done |].
           rewrite quoteScan_cons. by rewrite quoteStep_other.
      * rewrite Heq, splitLoop_cons. rewrite Hq. simpl.
        destruct before; [| done]. by rewrite splitLoop_nil.
    + destruct (IH results (current ++ [c]) (quoteStep q c) j Hj)
        as (before & cur & Htake & Hsemi & Hbefore & Heq).
      destruct before as [|b0 before].
      * exists [], (c :: cur). split_and!.
        -- simpl. by rewrite Htake.
        -- simpl. rewrite E. simpl in Hsemi. by rewrite Hsemi.
        -- by left.
        -- rewrite Heq. by rewrite <- app_assoc.
      * exists (c :: b0 :: before), cur. split_and!.
        -- simpl. by rewrite Htake.
        -- done.
        -- right. destruct Hbefore as [? | (b & Hb & Hqb)]; [done |].
           exists (c :: b). split; [by rewrite Hb | done].
        -- rewrite Heq. by rewrite (splitLoop_cons c), E, Hc.
Qed.

(** ** What [parseLine] does to the arena *)

Lemma extendBlock_nil b : extendBlock [] [] b = b.
Proof. destruct b. unfold extendBlock. simpl. by rewrite !app_nil_r. Qed.

Lemma extendBlock_extendBlock n1 p1 n2 p2 b :
  extendBlock n2 p2 (extendBlock n1 p1 b) = extendBlock (n1 ++ n2) (p1 ++ p2) b.
Proof. unfold extendBlock. simpl. by rewrite !app_assoc. Qed.

Lemma appendLine_extend l b : appendLine l b = extendBlock [l] [] b.
Proof. destruct b. unfold appendLine, extendBlock. simpl. by rewrite app_nil_r. Qed.

Lemma appendBlock_extend c b : appendBlock c b = extendBlock [] [c] b.
Proof. destruct b. unfold appendBlock, extendBlock. simpl. by rewrite app_nil_r. Qed.

Lemma modify_Done (h : heap) p f b : h !! p = Some b → modify h p f = Done (<[p := f b]> h).
Proof. intros H. unfold modify, load, index. by rewrite H. Qed.

Lemma index_Done {A} (s : list A) i a : s !! i = Some a → index s i = Done a.
Proof. intros H. unfold index. by rewrite H. Qed.

Lemma index_last {A} (s : list A) a : last s = Some a → index s (length s - 1) = Done a.
Proof.
  intros H. apply index_Done. rewrite last_lookup in H.
  by replace (length s - 1)%nat with (pred (length s)) by lia.
Qed.

Lemma slice_Done {A} (s : list A) lo hi :
  (lo ≤ hi)%nat → (hi ≤ length s)%nat → slice s lo hi = Done (take (hi - lo) (drop lo s)).
Proof.
  intros H1 H2. unfold slice.
  apply Nat.leb_le in H1, H2. by rewrite H1, H2.
Qed.

Lemma blockParamsOf_Done parts : blockParamsOf parts = Done (blockParams parts).
Proof.
  unfold blockParamsOf, blockParams.
  destruct (1 <? length parts)%nat eqn:E; [| done].
  apply Nat.ltb_lt in E.
  destruct (last parts) as [lastParam|] eqn:El.
  2: { apply last_None in El. subst. simpl in E. lia. }
  rewrite (index_last _ _ El). simpl.
  replace (length parts - 2)%nat with (length parts - 1 - 1)%nat by lia.
  destruct (gostring_eqb lastParam [r_lbrace]).
  { apply slice_Done; lia. }
  destruct (HasSuffixRune lastParam r_lbrace).
  { rewrite slice_Done by lia. done. }
  rewrite slice_Done by lia. f_equal. apply take_ge. rewrite length_drop. lia.
Qed.

Lemma HasSuffixRune_index s c :
  index s (length s - 1) = Done c → HasSuffixRune s r_lbrace = (c =? r_lbrace).
Proof.
  unfold index, HasSuffixRune. rewrite last_lookup.
  replace (pred (length s)) with (length s - 1)%nat by lia.
  destruct (s !! (length s - 1)%nat); [| done]. by intros [= ->].
Qed.

(** One iteration of the loop, for a fragment that gives no line. *)
Lemma directivesLoop_skip directive rest cur comments st :
  lineOf directive comments = None →
  directivesLoop (directive :: rest) cur comments st = directivesLoop rest cur comments st.
Proof.
  unfold lineOf. cbn [directivesLoop].
  destruct (Fields (TrimSpace directive)) as [|name params] eqn:EF; [| by case_match].
  intros _. by destruct (gostring_eqb (TrimSpace directive) []).
Qed.

(** One iteration, for a fragment that gives a line of a directive. *)
Lemma directivesLoop_line directive rest cur comments (h : heap) stack b l :
  lineOf directive comments = Some l →
  Line_Type l ≠ LineTypeBlock →
  h !! cur = Some b →
  directivesLoop (directive :: rest) cur comments (h, stack) =
  directivesLoop rest cur [] (<[cur := extendBlock [l] [] b]> h, stack).
Proof.
  unfold lineOf. cbn [directivesLoop]. intros Hl Hty Hb.
  destruct (Fields (TrimSpace directive)) as [|name params] eqn:EF; [done |].
  assert (TrimSpace directive ≠ []) as Hne by (by intros E; rewrite E in EF).
  unfold gostring_eqb at 1. rewrite bool_decide_eq_false_2 by done.
  cbn [length Nat.eqb]. rewrite (index_Done _ 0%nat name) by done. simpl mbind.
  unfold mbind, result_bind at 1.
  destruct (last (TrimSpace directive)) as [c|] eqn:El; [| by apply last_None in El].
  assert ((if (1 <? S (length params))%nat
           then slice (name :: params) 1 (S (length params)) else mret [])
          = Done params) as ->.
  { destruct params as [|p ps]; [done |].
    rewrite slice_Done by (simpl; lia). simpl. f_equal. f_equal.
    apply take_ge. lia. }
  rewrite (index_last _ _ El). cbn [result_bind].
  rewrite (HasSuffixRune_index _ c) in Hl by (by apply index_last).
  destruct (c =? r_lbrace).
  { injection Hl as <-. done. }
  injection Hl as <-. cbn [fst snd].
  rewrite (modify_Done _ _ _ b) by done. cbn [result_bind].
  by rewrite appendLine_extend.
Qed.

(** One iteration, for a fragment that opens a block. *)
Lemma directivesLoop_block directive rest cur comments (h : heap) stack b l :
  lineOf directive comments = Some l →
  Line_Type l = LineTypeBlock →
  h !! cur = Some b →
  directivesLoop (directive :: rest) cur comments (h, stack) =
  directivesLoop rest cur []
    (<[cur := extendBlock [l] [length h] b]> h ++ [blockOfLine cur l], stack ++ [length h]).
Proof.
  unfold lineOf. cbn [directivesLoop]. intros Hl Hty Hb.
  destruct (Fields (TrimSpace directive)) as [|name params] eqn:EF; [done |].
  assert (TrimSpace directive ≠ []) as Hne by (by intros E; rewrite E in EF).
  unfold gostring_eqb at 1. rewrite bool_decide_eq_false_2 by done.
  cbn [length Nat.eqb]. rewrite (index_Done _ 0%nat name) by done. simpl mbind.
  unfold mbind, result_bind at 1.
  destruct (last (TrimSpace directive)) as [c|] eqn:El; [| by apply last_None in El].
  assert ((if (1 <? S (length params))%nat
           then slice (name :: params) 1 (S (length params)) else mret [])
          = Done params) as ->.
  { destruct params as [|p ps]; [done |].
    rewrite slice_Done by (simpl; lia). simpl. f_equal. f_equal.
    apply take_ge. lia. }
  rewrite (index_last _ _ El). cbn [result_bind].
  rewrite (HasSuffixRune_index _ c) in Hl by (by apply index_last).
  destruct (c =? r_lbrace).
  2: { injection Hl as <-. simpl in Hty. by case_match. }
  injection Hl as <-. cbn [fst snd result_bind].
  rewrite blockParamsOf_Done. cbn [result_bind].
  assert (cur < length h)%nat as Hlt by (by eapply lookup_lt_Some).
  rewrite (modify_Done _ _ _ b) by (by apply lookup_app_l_Some). cbn [result_bind].
  rewrite (modify_Done _ _ _ (appendBlock (length h) b)).
  2: { apply list_lookup_insert_eq. rewrite length_app. lia. }
  cbn [result_bind]. rewrite list_insert_insert_eq.
  rewrite appendLine_extend, appendBlock_extend, extendBlock_extendBlock.
  rewrite insert_app_l by done. done.
Qed.

Lemma blockParamsOf_last_word name params w :
  blockParamsOf (name :: params ++ [w ++ [r_lbrace]]) =
  Done (params ++ match w with [] => [] | _ => [w] end).
Proof.
  rewrite blockParamsOf_Done. f_equal. unfold blockParams.
  cbn [length]. rewrite length_app. cbn [length].
  replace (1 <? S (length params + 1))%nat with true by (symmetry; apply Nat.ltb_lt; lia).
  change (name :: params ++ [w ++ [r_lbrace]]) with ((name :: params) ++ [w ++ [r_lbrace]]).
  rewrite last_snoc. cbn [default].
  replace (S (length params + 1) - 2)%nat with (length params) by lia.
  cbn [app drop id]. rewrite !drop_0, take_app_length.
  unfold HasSuffixRune, TrimSuffixRune, HasSuffixRune. rewrite last_snoc, Z.eqb_refl.
  rewrite length_app. cbn [length].
  replace (length w + 1 - 1)%nat with (length w) by lia. rewrite take_app_length.
  destruct w as [|c w].
  - simpl. by rewrite app_nil_r.
  - unfold gostring_eqb. rewrite bool_decide_eq_false_2; [done |].
    intros E. apply (f_equal length) in E. simpl in E. rewrite length_app in E.
    simpl in E. lia.
Qed.

(** The comment starts at the first hash. *)
Lemma IndexRune_first pre r post :
  IndexRune pre r = None → IndexRune (pre ++ r :: post) r = Some (length pre).
Proof.
  induction pre as [|c pre IH]; simpl.
  - by rewrite Z.eqb_refl.
  - destruct (c =? r); [done |]. intros H.
    destruct (IndexRune pre r); [done |]. by rewrite IH.
Qed.

Lemma extractComment_first pre post :
  IndexRune pre r_hash = None →
  extractComment (pre ++ r_hash :: post) = ([TrimSpace post], TrimSpace pre).
Proof.
  intros H. unfold extractComment. rewrite IndexRune_first by done.
  rewrite take_app_length. f_equal. f_equal. f_equal.
  rewrite drop_app_ge by lia. replace (length pre + 1 - length pre)%nat with 1%nat by lia.
  done.
Qed.

Lemma newBlocks_cons_block cur l news :
  Line_Type l = LineTypeBlock → newBlocks cur (l :: news) = blockOfLine cur l :: newBlocks cur news.
Proof.
  intros H. unfold newBlocks, blockLines. by rewrite filter_cons_True.
Qed.

Lemma newBlocks_cons_line cur l news :
  Line_Type l ≠ LineTypeBlock → newBlocks cur (l :: news) = newBlocks cur news.
Proof.
  intros H. unfold newBlocks, blockLines. by rewrite filter_cons_False.
Qed.

(** The whole loop: the lines go to [currentBlock], the blocks they open go
    to the end of the arena and on the stack. *)
Lemma directivesLoop_effect ds cur comments (h : heap) stack b :
  h !! cur = Some b →
  directivesLoop ds cur comments (h, stack) =
  Done (grow h cur b (linesOf ds comments),
        stack ++ seq (length h) (length (newBlocks cur (linesOf ds comments)))).
Proof.
  revert comments h stack b. unfold grow.
  induction ds as [|d rest IH]; intros comments h stack b Hb.
  - simpl. rewrite extendBlock_nil, list_insert_id, !app_nil_r by done. done.
  - cbn [linesOf]. destruct (lineOf d comments) as [l|] eqn:El.
    2: { rewrite directivesLoop_skip by done. by apply IH. }
    assert (cur < length h)%nat as Hlt by (by eapply lookup_lt_Some).
    destruct (decide (Line_Type l = LineTypeBlock)) as [Hty | Hty].
    + rewrite (directivesLoop_block _ _ _ _ _ _ b l) by done.
      rewrite (IH _ _ _ (extendBlock [l] [length h] b)).
      2: { rewrite lookup_app_l by (rewrite length_insert; lia).
           by apply list_lookup_insert_eq. }
      rewrite newBlocks_cons_block by done.
      rewrite length_app, length_insert. cbn [length].
      rewrite Nat.add_1_r. cbn [seq].
      rewrite insert_app_l by (rewrite length_insert; lia).
      rewrite list_insert_insert_eq, extendBlock_extendBlock.
      by rewrite <- !app_assoc.
    + rewrite (directivesLoop_line _ _ _ _ _ _ b l) by done.
      rewrite (IH _ _ _ (extendBlock [l] [] b)) by (by apply list_lookup_insert_eq).
      rewrite newBlocks_cons_line by done.
      rewrite length_insert, list_insert_insert_eq, extendBlock_extendBlock. done.
Qed.

Lemma grow_nil (h : heap) cur b : h !! cur = Some b → grow h cur b [] = h.
Proof.
  intros H. unfold grow. simpl.
  by rewrite extendBlock_nil, list_insert_id, app_nil_r.
Qed.

(** [parseLine]: it never panics where [currentBlock] points into the
    arena; the arena grows by the lines produced, and the stack is popped by
    a closing line and pushed by the blocks opened. *)
Lemma parseLine_effect line cur (h : heap) stack b :
  h !! cur = Some b →
  parseLine line cur (h, stack) =
  Done (grow h cur b (producedLines line),
        if closes line then
          if (1 <? length stack)%nat then take (length stack - 1) stack else stack
        else stack ++ seq (length h) (length (newBlocks cur (producedLines line)))).
Proof.
  intros Hb. unfold parseLine, producedLines, closes.
  destruct (extractComment line) as [comments rest]. cbn [fst snd].
  destruct (gostring_eqb rest []) eqn:E1.
  { apply bool_decide_eq_true in E1. subst rest.
    change (gostring_eqb [] [r_rbrace]) with false. cbn iota.
    destruct (0 <? length comments)%nat.
    - rewrite (modify_Done _ _ _ b) by done. simpl.
      rewrite appendLine_extend, app_nil_r. unfold grow.
      rewrite newBlocks_cons_line by done. simpl. by rewrite app_nil_r.
    - rewrite grow_nil by done. simpl. by rewrite app_nil_r. }
  destruct (gostring_eqb rest [r_rbrace]) eqn:E2.
  { rewrite grow_nil by done. by destruct (1 <? length stack)%nat. }
  by apply directivesLoop_effect.
Qed.

Lemma length_grow (h : heap) cur b news :
  length (grow h cur b news) = (length h + length (newBlocks cur news))%nat.
Proof. unfold grow. by rewrite length_app, length_insert. Qed.

(** ** The scan loop keeps the stack in order *)

Lemma stateOK_parseLine line cur (h : heap) stack b :
  h !! cur = Some b → stateOK (h, stack) cur →
  ∃ stack' cur',
    parseLine line cur (h, stack) = Done (grow h cur b (producedLines line), stack') ∧
    stateOK (grow h cur b (producedLines line), stack') cur' ∧
    stack' ≠ [] ∧ last stack' = Some cur'.
Proof.
  intros Hb ((rest & Hst) & Hlast & Hall). cbn [fst snd] in *.
  rewrite (parseLine_effect _ _ _ _ b) by done.
  set (h' := grow h cur b (producedLines line)).
  assert (length h ≤ length h')%nat as Hle by (unfold h'; rewrite length_grow; lia).
  destruct (closes line).
  - destruct (1 <? length stack)%nat eqn:E.
    + apply Nat.ltb_lt in E.
      assert (is_Some (last (take (length stack - 1) stack))) as [cur' Hc'].
      { rewrite last_is_Some. intros E0. apply (f_equal length) in E0.
        rewrite length_take in E0. simpl in E0. lia. }
      exists (take (length stack - 1) stack), cur'. split; [done |].
      split; [| split; [| done]].
      * split_and!; cbn [fst snd].
        -- subst stack. destruct rest as [|r0 rest]; [simpl in E; lia |].
           cbn [length]. replace (S (S (length rest)) - 1)%nat with (S (length rest)) by lia.
           cbn [take]. eauto.
        -- done.
        -- apply Forall_take. eapply Forall_impl; [done |]. simpl. lia.
      * intros E0. by rewrite E0 in Hc'.
    + exists stack, cur. split; [done |]. split; [| split; [by subst | done]].
      split_and!; cbn [fst snd]; [eauto | done |].
      eapply Forall_impl; [done |]. simpl. lia.
  - set (k := length (newBlocks cur (producedLines line))).
    assert (length h' = length h + k)%nat as Hlen by apply length_grow.
    assert (is_Some (last (stack ++ seq (length h) k))) as [cur' Hc'].
    { rewrite last_is_Some. subst stack. done. }
    exists (stack ++ seq (length h) k), cur'. split; [done |].
    split; [| split; [| done]].
    + split_and!; cbn [fst snd].
      * subst stack. simpl. eauto.
      * done.
      * apply Forall_app. split.
        -- eapply Forall_impl; [done |]. simpl. lia.
        -- apply Forall_seq. intros j Hj. lia.
    + subst stack. done.
Qed.

(** An invariant of the arena that every [grow] keeps holds after the scan
    loop, which always ends without a panic. *)
Lemma scanLoop_invariant (P : heap → Prop) :
  (∀ (h : heap) cur b line, P h → h !! cur = Some b → P (grow h cur b (producedLines line))) →
  ∀ lines cur (st : pstate),
    P st.1 → stateOK st cur →
    ∃ st' cur', scanLoop lines cur st = Done st' ∧ P st'.1 ∧ stateOK st' cur'.
Proof.
  intros Hgrow. induction lines as [|text lines IH]; intros cur [h stack] HP Hok.
  - exists (h, stack), cur. done.
  - cbn [scanLoop]. destruct (gostring_eqb (TrimSpace text) []).
    { by apply IH. }
    assert (is_Some (h !! cur)) as [b Hb].
    { destruct Hok as (_ & Hlast & Hall). cbn [fst snd] in *.
      apply lookup_lt_is_Some. rewrite Forall_forall in Hall. apply Hall.
      rewrite last_Some in Hlast. destruct Hlast as (l' & ->).
      apply elem_of_app. right. by apply list_elem_of_singleton. }
    destruct (stateOK_parseLine (TrimSpace text) cur h stack b Hb Hok)
      as (stack' & cur' & -> & Hok' & Hne & Hlast').
    cbn [mbind result_bind snd].
    assert ((0 <? length stack')%nat = true) as ->.
    { apply Nat.ltb_lt. destruct stack'; [done | simpl; lia]. }
    rewrite (index_last _ cur') by done.
    cbn [result_bind]. apply IH; [| done].
    cbn [fst] in *. by eapply Hgrow.
Qed.

(** A closing line only pops the stack. *)
Lemma parseLine_close line cur (h : heap) stack :
  (extractComment line).2 = [r_rbrace] →
  parseLine line cur (h, stack) =
  Done (h, if (1 <? length stack)%nat then take (length stack - 1) stack else stack).
Proof.
  intros H. unfold parseLine. destruct (extractComment line) as [comments rest].
  simpl in H. subst rest. change (gostring_eqb [r_rbrace] []) with false.
  change (gostring_eqb [r_rbrace] [r_rbrace]) with true. cbn iota. cbn [fst snd].
  by destruct (1 <? length stack)%nat.
Qed.

(** ** Invariants of the arena *)

Lemma grow_lookup_cur (h : heap) cur b news :
  h !! cur = Some b →
  grow h cur b news !! cur =
  Some (extendBlock news (seq (length h) (length (newBlocks cur news))) b).
Proof.
  intros Hb. assert (cur < length h)%nat by (by eapply lookup_lt_Some).
  unfold grow. rewrite lookup_app_l by (rewrite length_insert; lia).
  by apply list_lookup_insert_eq.
Qed.

Lemma grow_lookup_old (h : heap) cur b news p :
  p ≠ cur → (p < length h)%nat → grow h cur b news !! p = h !! p.
Proof.
  intros Hne Hlt. unfold grow. rewrite lookup_app_l by (rewrite length_insert; lia).
  by apply list_lookup_insert_ne.
Qed.

Lemma grow_lookup_new (h : heap) cur b news i :
  grow h cur b news !! (length h + i)%nat = newBlocks cur news !! i.
Proof.
  unfold grow. rewrite lookup_app_r by (rewrite length_insert; lia).
  rewrite length_insert. f_equal. lia.
Qed.

(** The three kinds of block in a grown arena. *)
Lemma grow_lookup_inv (h : heap) cur b news p bp :
  h !! cur = Some b → grow h cur b news !! p = Some bp →
  (p = cur ∧ bp = extendBlock news (seq (length h) (length (newBlocks cur news))) b) ∨
  (p ≠ cur ∧ h !! p = Some bp) ∨
  (∃ i, p = (length h + i)%nat ∧ newBlocks cur news !! i = Some bp).
Proof.
  intros Hb Hp. destruct (decide (p = cur)) as [-> | Hne].
  - left. rewrite grow_lookup_cur in Hp by done. by injection Hp as <-.
  - right. destruct (decide (p < length h)%nat) as [Hlt | Hge].
    + left. by rewrite grow_lookup_old in Hp.
    + right. exists (p - length h)%nat.
      replace p with (length h + (p - length h))%nat in Hp at 1 by lia.
      rewrite grow_lookup_new in Hp. split; [lia | done].
Qed.

(** Growing keeps the name and the parameters of every block. *)
Lemma grow_keeps_names (h : heap) cur b news c cb :
  h !! cur = Some b → h !! c = Some cb →
  ∃ cb', grow h cur b news !! c = Some cb' ∧
         Block_Name cb' = Block_Name cb ∧ Block_Params cb' = Block_Params cb.
Proof.
  intros Hb Hc. destruct (decide (c = cur)) as [-> | Hne].
  - rewrite grow_lookup_cur by done. eexists. split; [done |].
    rewrite Hb in Hc. by injection Hc as ->.
  - exists cb. rewrite grow_lookup_old; [done | done | by eapply lookup_lt_Some].
Qed.

Lemma mirrors_grow (h : heap) cur b news l c :
  h !! cur = Some b → mirrors h l c → mirrors (grow h cur b news) l c.
Proof.
  intros Hb (cb & Hc & Hn & Hp).
  destruct (grow_keeps_names h cur b news c cb Hb Hc) as (cb' & Hc' & Hn' & Hp').
  exists cb'. split; [done |]. by rewrite Hn', Hp'.
Qed.

Lemma Forall2_seq {A} (R : A → nat → Prop) (ls : list A) base :
  (∀ i l, ls !! i = Some l → R l (base + i)%nat) → Forall2 R ls (seq base (length ls)).
Proof.
  revert base. induction ls as [|l ls IH]; intros base H; simpl; [constructor |].
  constructor.
  - specialize (H 0%nat l eq_refl). by rewrite Nat.add_0_r in H.
  - apply IH. intros i l' Hi. specialize (H (S i) l' Hi).
    by replace (S base + i)%nat with (base + S i)%nat by lia.
Qed.

Lemma tree_shape_grow (h : heap) cur b line :
  tree_shape h → h !! cur = Some b → tree_shape (grow h cur b (producedLines line)).
Proof.
  set (news := producedLines line). clearbody news.
  intros Hshape Hb p bp Hp.
  destruct (grow_lookup_inv _ _ _ _ _ _ Hb Hp) as [[-> ->] | [[Hne Hold] | (i & -> & Hnew)]].
  - cbn [extendBlock Block_Lines Block_Blocks]. unfold blockLines. rewrite filter_app.
    apply Forall2_app.
    + eapply Forall2_impl; [by apply (Hshape cur b) |]. intros l c. by apply mirrors_grow.
    + fold (blockLines news). unfold newBlocks at 1. rewrite length_fmap.
      apply Forall2_seq.
      intros i l Hi. exists (blockOfLine cur l). split; [| done].
      rewrite grow_lookup_new. unfold newBlocks. rewrite list_lookup_fmap.
      by rewrite Hi.
  - eapply Forall2_impl; [by apply (Hshape p bp) |]. intros l c. by apply mirrors_grow.
  - unfold newBlocks in Hnew. rewrite list_lookup_fmap in Hnew.
    destruct (blockLines news !! i) as [l|]; [| done].
    injection Hnew as <-. constructor.
Qed.

Lemma root_at_0_grow (h : heap) cur b line :
  root_at_0 h → h !! cur = Some b → root_at_0 (grow h cur b (producedLines line)).
Proof.
  intros (rb & Hr & Hn & Hps & Hp) Hb. destruct (decide (cur = 0%nat)) as [-> | Hne].
  - rewrite Hb in Hr. injection Hr as ->. eexists. rewrite grow_lookup_cur by done.
    split; [done |]. done.
  - exists rb. rewrite grow_lookup_old; [done | done | by eapply lookup_lt_Some].
Qed.

Lemma stateOK_init : stateOK ([rootBlock], [0%nat]) 0%nat.
Proof.
  split_and!; cbn [fst snd]; [by exists [] | done |].
  constructor; [simpl; lia | constructor].
Qed.

(** Parsing ends without a panic, whatever the lines, with the root block
    at the bottom of the stack, and keeps what every [grow] keeps. *)
Lemma parseLines_invariant (P : heap → Prop) :
  P [rootBlock] →
  (∀ (h : heap) cur b line, P h → h !! cur = Some b → P (grow h cur b (producedLines line))) →
  ∀ lines, ∃ h rest, parseLines lines = Done (h, 0%nat :: rest) ∧ P h.
Proof.
  intros Hinit Hgrow lines.
  destruct (scanLoop_invariant P Hgrow lines 0%nat ([rootBlock], [0%nat]) Hinit stateOK_init)
    as ([h stack] & cur' & Hrun & HP & (rest & Hst) & _).
  cbn [fst snd] in *. subst stack. by exists h, rest.
Qed.

(** ** Words, [strings.Fields] and [strings.Join] *)

Lemma squeeze_app a b : squeeze (a ++ b) = squeeze a ++ squeeze b.
Proof. apply filter_app. Qed.

Lemma squeeze_blank ws : blank ws → squeeze ws = [].
Proof.
  induction 1 as [|c ws Hc _ IH]; [done |].
  unfold squeeze in *. rewrite filter_cons_False by (by rewrite Hc). done.
Qed.

Lemma squeeze_spacefree w : Forall (λ c, isSpace c = false) w → squeeze w = w.
Proof.
  induction 1 as [|c w Hc _ IH]; [done |].
  unfold squeeze in *. rewrite filter_cons_True by done. by rewrite IH.
Qed.

(** The scan does not see the spaces. *)
Lemma quoteScan_squeeze s q : quoteScan (squeeze s) q = quoteScan s q.
Proof.
  revert q. induction s as [|c s IH]; intros q; [done |].
  unfold squeeze in *. destruct (isSpace c) eqn:Hc.
  - rewrite filter_cons_False by (by rewrite Hc).
    rewrite quoteScan_cons, quoteStep_space by done. apply IH.
  - rewrite filter_cons_True by done. rewrite !quoteScan_cons. apply IH.
Qed.

Lemma firstUnquoted_squeeze r s q :
  isSpace r = false →
  firstUnquoted r (squeeze s) q = None ↔ firstUnquoted r s q = None.
Proof.
  intros Hr. revert q. induction s as [|c s IH]; intros q; [done |].
  unfold squeeze in *. destruct (isSpace c) eqn:Hc.
  - rewrite filter_cons_False by (by rewrite Hc). simpl.
    assert ((c =? r) = false) as -> by (apply Z.eqb_neq; congruence).
    simpl. rewrite quoteStep_space by done. rewrite IH.
    by destruct (firstUnquoted r s q).
  - rewrite filter_cons_True by done. simpl.
    destruct ((c =? r) && negb q.1); [done |].
    specialize (IH (quoteStep q c)).
    rewrite !fmap_None. apply IH.
Qed.

(** *** Fields *)

Lemma fieldsLoop_word c s cur :
  isSpace c = false → fieldsLoop (c :: s) cur = fieldsLoop s (cur ++ [c]).
Proof. intros H. simpl. by rewrite H. Qed.

Lemma fieldsLoop_space c s cur :
  isSpace c = true →
  fieldsLoop (c :: s) cur = match cur with [] => fieldsLoop s [] | _ => cur :: fieldsLoop s [] end.
Proof. intros H. simpl. by rewrite H. Qed.

Lemma fieldsLoop_spacefree w s cur :
  Forall (λ c, isSpace c = false) w → fieldsLoop (w ++ s) cur = fieldsLoop s (cur ++ w).
Proof.
  intros Hw. revert cur. induction Hw as [|c w Hc _ IH]; intros cur.
  - by rewrite app_nil_r.
  - cbn [app]. rewrite fieldsLoop_word by done. rewrite IH. by rewrite <- app_assoc.
Qed.

(** The fields are words, and together they are the string without its
    spaces. *)
Lemma fieldsLoop_words s cur :
  Forall (λ c, isSpace c = false) cur →
  Forall word (fieldsLoop s cur) ∧ concat (fieldsLoop s cur) = cur ++ squeeze s.
Proof.
  revert cur. induction s as [|c s IH]; intros cur Hcur.
  - simpl. destruct cur as [|d cur]; [done |]. split.
    + constructor; [| constructor]. split; [done | done].
    + simpl. by rewrite !app_nil_r.
  - unfold squeeze. destruct (isSpace c) eqn:Hc.
    + rewrite fieldsLoop_space, filter_cons_False by (done || by rewrite Hc).
      destruct (IH [] (Forall_nil_2 _)) as [H1 H2].
      destruct cur as [|d cur]; [done |]. split.
      * constructor; [split; [done | done] | done].
      * simpl. unfold squeeze in H2. by rewrite H2.
    + rewrite fieldsLoop_word, filter_cons_True by done.
      destruct (IH (cur ++ [c])) as [H1 H2].
      { apply Forall_app. split; [done |]. by constructor. }
      split; [done |]. rewrite H2. by rewrite <- app_assoc.
Qed.

Lemma Fields_words s : Forall word (Fields s).
Proof. by apply (fieldsLoop_words s []). Qed.

Lemma Fields_concat s : concat (Fields s) = squeeze s.
Proof. by apply (fieldsLoop_words s []). Qed.

Lemma word_spacefree w : word w → Forall (λ c, isSpace c = false) w.
Proof. by intros [_ H]. Qed.

(** *** Join *)

Lemma Join_cons e rest sep :
  rest ≠ [] → Join (e :: rest) sep = e ++ sep ++ Join rest sep.
Proof. by destruct rest. Qed.

Lemma squeeze_Join ws :
  Forall word ws → squeeze (Join ws (runes " ")) = concat ws.
Proof.
  induction 1 as [|w ws Hw Hws IH]; [done |].
  destruct ws as [|w' ws].
  - simpl. rewrite app_nil_r. by apply squeeze_spacefree, word_spacefree.
  - rewrite Join_cons by done. rewrite !squeeze_app, IH.
    rewrite (squeeze_spacefree w) by (by apply word_spacefree). done.
Qed.

(** Joining words with one space and taking the fields gives the words
    back. *)
Lemma fieldsLoop_Join ws cur :
  Forall word ws → Forall (λ c, isSpace c = false) cur →
  fieldsLoop (Join ws (runes " ")) cur =
  match ws with
  | [] => match cur with [] => [] | _ => [cur] end
  | w :: ws' => (cur ++ w) :: ws'
  end.
Proof.
  intros Hws. revert cur. induction Hws as [|w ws Hw Hws IH]; intros cur Hcur; [done |].
  destruct ws as [|w' ws].
  - cbn [Join]. rewrite <- (app_nil_r w) at 1.
    rewrite fieldsLoop_spacefree by (by apply word_spacefree). simpl.
    destruct (cur ++ w) eqn:E; [| done].
    apply app_eq_nil in E as [_ ->]. by destruct Hw.
  - rewrite Join_cons by done.
    rewrite fieldsLoop_spacefree by (by apply word_spacefree).
    change (runes " " ++ Join (w' :: ws) (runes " "))
      with (r_space :: Join (w' :: ws) (runes " ")).
    rewrite fieldsLoop_space by done.
    rewrite (IH []) by constructor.
    destruct (cur ++ w) eqn:E; [| done].
    apply app_eq_nil in E as [_ ->]. by destruct Hw.
Qed.

Lemma Fields_Join ws : Forall word ws → Fields (Join ws (runes " ")) = ws.
Proof.
  intros H. unfold Fields. rewrite fieldsLoop_Join by (done || constructor).
  by destruct ws.
Qed.

(** A joined list of words is trimmed. *)
Lemma Join_head w ws c t :
  word w → Join (w :: ws) (runes " ") = c :: t → isSpace c = false.
Proof.
  intros [Hne Hw] H. destruct w as [|d w]; [done |].
  apply Forall_cons in Hw as [Hd _].
  destruct ws; simpl in H; by injection H as <-.
Qed.

Lemma last_app_ne {A} (a b : list A) : b ≠ [] → last (a ++ b) = last b.
Proof.
  intros Hb. rewrite last_app. destruct (last b) eqn:E; [done |].
  by apply last_None in E.
Qed.

Lemma Join_last ws :
  Forall word ws → ws ≠ [] → last (Join ws (runes " ")) = last (concat ws).
Proof.
  induction 1 as [|w ws Hw Hws IH]; [done |]. intros _.
  destruct ws as [|w' ws].
  - simpl. by rewrite app_nil_r.
  - rewrite Join_cons by done.
    assert (Join (w' :: ws) (runes " ") ≠ []) as Hne.
    { apply Forall_cons in Hws as [[Hne' _] _]. destruct w'; [done |].
      destruct ws; simpl; discriminate. }
    assert (concat (w' :: ws) ≠ []) as Hne2.
    { apply Forall_cons in Hws as [[Hne' _] _]. by destruct w'. }
    rewrite app_assoc, (last_app_ne _ _ Hne), IH by done.
    change (concat (w :: w' :: ws)) with (w ++ concat (w' :: ws)).
    by rewrite (last_app_ne _ _ Hne2).
Qed.

Lemma concat_words_last ws c :
  Forall word ws → last (concat ws) = Some c → isSpace c = false.
Proof.
  intros Hws Hl. assert (Forall (λ c, isSpace c = false) (concat ws)) as Hall.
  { apply Forall_concat. eapply Forall_impl; [done |]. by intros w [_ Hw]. }
  rewrite Forall_forall in Hall. apply Hall.
  rewrite last_Some in Hl. destruct Hl as (l' & ->).
  apply elem_of_app. right. by apply list_elem_of_singleton.
Qed.

Lemma TrimSpace_Join ws :
  Forall word ws → TrimSpace (Join ws (runes " ")) = Join ws (runes " ").
Proof.
  intros Hws. destruct ws as [|w ws]; [done |].
  destruct (Join (w :: ws) (runes " ")) as [|c t] eqn:E; [done |].
  assert (isSpace c = false) as Hc.
  { eapply Join_head; [| done]. by apply Forall_cons in Hws as [? _]. }
  destruct (decide (t = [])) as [-> | Hne]; [by apply TrimSpace_single |].
  destruct (exists_last Hne) as (t' & d & ->).
  apply TrimSpace_fixed; [done |].
  apply (concat_words_last (w :: ws)); [done |].
  rewrite <- Join_last by done. rewrite E.
  change (c :: t' ++ [d]) with ((c :: t') ++ [d]). by rewrite last_snoc.
Qed.

(** ** Every parsed line is well formed *)

Lemma IndexRune_None s r : IndexRune s r = None ↔ r ∉ s.
Proof.
  induction s as [|c s IH]; simpl.
  - split; [intros _; apply not_elem_of_nil | done].
  - rewrite not_elem_of_cons. destruct (c =? r) eqn:E.
    + apply Z.eqb_eq in E. subst. split; [done | by intros [? _]].
    + apply Z.eqb_neq in E. rewrite fmap_None, IH. split; [by split | by intros [_ ?]].
Qed.

Lemma IndexRune_Some_take s r i : IndexRune s r = Some i → r ∉ take i s.
Proof.
  revert i. induction s as [|c s IH]; intros i; simpl; [done |].
  destruct (c =? r) eqn:E.
  - intros [= <-]. apply not_elem_of_nil.
  - destruct (IndexRune s r) as [j|] eqn:Ej; [| done]. simpl. intros [= <-].
    simpl. apply not_elem_of_cons. split; [| by apply IH].
    apply Z.eqb_neq in E. congruence.
Qed.

Lemma TrimSpace_subseteq s : TrimSpace s ⊆ s.
Proof.
  destruct (TrimSpace_split s) as (ws1 & ws2 & Hs & _).
  intros c Hc. rewrite Hs. rewrite !elem_of_app. auto.
Qed.

Lemma squeeze_subseteq s : squeeze s ⊆ s.
Proof. intros c Hc. by apply list_elem_of_filter in Hc as [_ ?]. Qed.

(** What is left of a line once its comment is off holds no hash. *)
Lemma extractComment_hashfree line : r_hash ∉ (extractComment line).2.
Proof.
  unfold extractComment. destruct (IndexRune line r_hash) as [i|] eqn:E; simpl.
  - intros H. apply TrimSpace_subseteq in H. by apply IndexRune_Some_take in E.
  - by apply IndexRune_None.
Qed.

(** The runes of the fragments are runes of the line. *)
Lemma splitLoop_subseteq line current (q : qstate) :
  Forall (λ f, f ⊆ current ++ line) (splitLoop line [] current q.1 q.2).
Proof.
  revert current q. induction line as [|c rest IH]; intros current q.
  - rewrite splitLoop_nil, app_nil_r. destruct (0 <? length current)%nat; [| constructor].
    constructor; [apply TrimSpace_subseteq | constructor].
  - rewrite splitLoop_cons.
    destruct ((c =? r_semi) && negb q.1).
    { rewrite splitLoop_results. constructor.
      - intros x Hx. apply TrimSpace_subseteq in Hx. apply elem_of_app. by left.
      - eapply Forall_impl; [apply (IH [] q) |]. simpl. intros f Hf x Hx.
        apply Hf in Hx. rewrite elem_of_app, elem_of_cons. auto. }
    destruct ((c =? r_lbrace) && negb q.1).
    { constructor; [| constructor]. intros x Hx. apply TrimSpace_subseteq in Hx.
      rewrite elem_of_app in Hx. rewrite elem_of_app, elem_of_cons.
      destruct Hx as [? | Hx]; [auto |]. apply list_elem_of_singleton in Hx. auto. }
    eapply Forall_impl; [apply (IH (current ++ [c]) (quoteStep q c)) |].
    simpl. intros f Hf x Hx. apply Hf in Hx. by rewrite <- app_assoc in Hx.
Qed.

Lemma braces_ok_Forall frs : braces_ok frs → Forall brace_last frs.
Proof.
  induction frs as [|f frs IH]; [constructor |]. simpl.
  destruct frs as [|f' frs]; [intros H; by constructor |].
  intros [H1 H2]. constructor; [by left | by apply IH].
Qed.

Lemma splitDirectives_wf rest : r_hash ∉ rest → Forall fragment_wf (splitDirectives rest).
Proof.
  intros Hh. destruct (splitDirectives_fragments rest) as [H1 H2].
  apply braces_ok_Forall in H2. pose proof (splitLoop_subseteq rest [] q0) as H3.
  fold (splitDirectives rest) in H3.
  rewrite Forall_forall in H1, H2, H3. apply Forall_forall. intros f Hf.
  split_and!; [by apply H1 | by apply H2 |].
  intros Hx. apply (H3 f Hf) in Hx. done.
Qed.

Lemma squeeze_snoc s c : isSpace c = false → squeeze (s ++ [c]) = squeeze s ++ [c].
Proof.
  intros Hc. rewrite squeeze_app. f_equal. unfold squeeze.
  by rewrite filter_cons_True, filter_nil.
Qed.

Lemma last_squeeze s c : last s = Some c → isSpace c = false → last (squeeze s) = Some c.
Proof.
  intros Hl Hc. rewrite last_Some in Hl. destruct Hl as (s' & ->).
  rewrite squeeze_snoc by done. by rewrite last_snoc.
Qed.

Lemma firstUnquoted_prefix_None r a b q :
  firstUnquoted r (a ++ b) q = None → firstUnquoted r a q = None.
Proof. rewrite firstUnquoted_app. by destruct (firstUnquoted r a q). Qed.

(** A first unquoted [r] that is the last rune of the string is still so
    without the spaces. *)
Lemma firstUnquoted_last_squeeze r s :
  isSpace r = false →
  firstUnquoted r s q0 = Some (length s - 1)%nat →
  ∃ s', squeeze s = s' ++ [r] ∧ firstUnquoted r s' q0 = None ∧
        firstUnquoted r (squeeze s) q0 = Some (length (squeeze s) - 1)%nat.
Proof.
  intros Hr H.
  pose proof (firstUnquoted_lookup _ _ _ _ H) as Hl.
  assert (last s = Some r) as Hlast.
  { rewrite last_lookup. by replace (pred (length s)) with (length s - 1)%nat by lia. }
  rewrite last_Some in Hlast. destruct Hlast as (s' & ->).
  rewrite length_app in H. simpl in H.
  replace (length s' + 1 - 1)%nat with (length s') in H by lia.
  rewrite firstUnquoted_app in H.
  destruct (firstUnquoted r s' q0) as [i|] eqn:E.
  { injection H as ->. apply firstUnquoted_lt in E. lia. }
  exists (squeeze s'). rewrite squeeze_snoc by done.
  split; [done |]. split; [by apply firstUnquoted_squeeze |].
  rewrite firstUnquoted_app.
  replace (firstUnquoted r (squeeze s') q0) with (@None nat)
    by (symmetry; by apply firstUnquoted_squeeze).
  rewrite quoteScan_squeeze. simpl in *.
  destruct ((r =? r) && negb (quoteScan s' q0).1); [| done].
  simpl. f_equal. rewrite length_app. simpl. lia.
Qed.

Lemma blockParams_last_word name params w :
  blockParams (name :: params ++ [w ++ [r_lbrace]]) =
  params ++ match w with [] => [] | _ => [w] end.
Proof.
  pose proof (blockParamsOf_last_word name params w) as H.
  rewrite blockParamsOf_Done in H. by injection H.
Qed.

Lemma HasSuffixRune_true s r : HasSuffixRune s r = true → last s = Some r.
Proof.
  unfold HasSuffixRune. destruct (last s) as [c|]; [| done].
  intros H. apply Z.eqb_eq in H. by subst.
Qed.

Lemma HasSuffixRune_false s r : HasSuffixRune s r = false → last s ≠ Some r.
Proof.
  unfold HasSuffixRune. destruct (last s) as [c|]; [| done].
  intros H. apply Z.eqb_neq in H. congruence.
Qed.

Lemma last_concat_snoc {A} (ls : list (list A)) (l : list A) :
  l ≠ [] → last (concat (ls ++ [l])) = last l.
Proof.
  intros Hl. rewrite concat_app. simpl. rewrite app_nil_r. by apply last_app_ne.
Qed.

(** The line of a well-formed fragment is well formed. *)
Lemma lineOf_wf F cs l : fragment_wf F → lineOf F cs = Some l → line_wf l.
Proof.
  intros ((Htrim & Hsemi) & Hbrace & Hhash). unfold lineOf. rewrite Htrim.
  destruct (Fields F) as [|name params] eqn:EF; [done |].
  pose proof (Fields_words F) as Hw. pose proof (Fields_concat F) as Hc.
  rewrite EF in Hw, Hc.
  assert (r_hash ∉ squeeze F) as Hhash' by (intros H; by apply squeeze_subseteq in H).
  assert (firstUnquoted r_semi (squeeze F) q0 = None) as Hsemi'
    by (by apply firstUnquoted_squeeze).
  assert (∃ c, last F = Some c ∧ isSpace c = false) as (c & Hlast & Hcs).
  { destruct (last F) as [c|] eqn:E.
    - exists c. split; [done |]. apply (TrimSpace_last F). by rewrite Htrim.
    - apply last_None in E. subst F. done. }
  pose proof (last_squeeze _ _ Hlast Hcs) as Hlast'.
  destruct (HasSuffixRune F r_lbrace) eqn:Hsuf.
  - (* a block *)
    apply HasSuffixRune_true in Hsuf. rewrite Hsuf in Hlast. injection Hlast as <-.
    intros [= <-]. unfold line_wf. cbn [Line_Type Line_Name Line_Params].
    destruct (decide (params = [])) as [-> | Hne].
    + change (blockParams [name]) with (@nil gostring).
      simpl in Hc. rewrite app_nil_r in Hc. subst name.
      split_and!; [done | by simpl; rewrite app_nil_r | by simpl; rewrite app_nil_r |].
      destruct Hbrace as [Hb | [Hb _]].
      * left. simpl. rewrite app_nil_r. by apply firstUnquoted_squeeze.
      * right. split; [done |].
        by destruct (firstUnquoted_last_squeeze r_lbrace F eq_refl Hb) as (_ & _ & _ & ?).
    + destruct (exists_last Hne) as (mid & wk & ->).
      assert (word wk) as Hwk.
      { apply Forall_cons in Hw as [_ Hw]. apply Forall_app in Hw as [_ Hw].
        by apply Forall_cons in Hw as [? _]. }
      assert (last wk = Some r_lbrace) as Hlk.
      { rewrite <- Hlast', <- Hc.
        change (name :: mid ++ [wk]) with ((name :: mid) ++ [wk]).
        symmetry. apply last_concat_snoc. by destruct Hwk. }
      rewrite last_Some in Hlk. destruct Hlk as (x & ->).
      rewrite blockParams_last_word.
      assert (squeeze F = concat (name :: mid) ++ x ++ [r_lbrace]) as Hsq.
      { rewrite <- Hc. change (name :: mid ++ [x ++ [r_lbrace]])
          with ((name :: mid) ++ [x ++ [r_lbrace]]).
        rewrite concat_app. simpl. by rewrite app_nil_r. }
      assert (concat (name :: mid ++ match x with [] => [] | _ => [x] end)
              = concat (name :: mid) ++ x) as Hc'.
      { change (name :: mid ++ match x with [] => [] | _ => [x] end)
          with ((name :: mid) ++ match x with [] => [] | _ => [x] end).
        rewrite concat_app. f_equal. destruct x; [done |]. simpl. by rewrite app_nil_r. }
      unfold header_wf. rewrite Hc'.
      rewrite app_assoc in Hsq.
      split_and!.
      * apply Forall_cons in Hw as [Hn Hw]. apply Forall_app in Hw as [Hmid _].
        constructor; [done |]. apply Forall_app. split; [done |].
        destruct x as [|x0 x]; [constructor |]. constructor; [| constructor].
        split; [done |]. destruct Hwk as [_ Hwk].
        by apply Forall_app in Hwk as [? _].
      * intros H. apply Hhash'. rewrite Hsq. apply elem_of_app. by left.
      * rewrite Hsq in Hsemi'. by apply firstUnquoted_prefix_None in Hsemi'.
      * left. destruct Hbrace as [Hb | [Hb _]].
        -- apply (firstUnquoted_squeeze r_lbrace F q0 eq_refl) in Hb.
           rewrite Hsq in Hb. by apply firstUnquoted_prefix_None in Hb.
        -- destruct (firstUnquoted_last_squeeze r_lbrace F eq_refl Hb) as (s' & Hs' & Hn' & _).
           rewrite Hsq in Hs'. apply app_inj_tail in Hs' as [-> _]. done.
  - (* a directive *)
    apply HasSuffixRune_false in Hsuf. intros [= <-].
    assert (directive_wf
              (mkLine name params cs
                 (if gostring_eqb name (runes "include") then LineTypeInclude
                  else LineTypeDirective))) as Hd.
    { unfold directive_wf. cbn [Line_Type Line_Name Line_Params]. rewrite Hc.
      split_and!; [done | done | done | | | done].
      - destruct Hbrace as [Hb | [_ Hb]]; [| done]. by apply firstUnquoted_squeeze.
      - rewrite Hlast'. congruence. }
    unfold line_wf. cbn [Line_Type].
    by destruct (gostring_eqb name (runes "include")).
Qed.

Lemma linesOf_wf ds cs : Forall fragment_wf ds → Forall line_wf (linesOf ds cs).
Proof.
  intros H. revert cs. induction H as [|d ds Hd _ IH]; intros cs; simpl; [constructor |].
  destruct (lineOf d cs) as [l|] eqn:E; [| done].
  constructor; [by eapply lineOf_wf | done].
Qed.

Lemma producedLines_wf line : Forall line_wf (producedLines line).
Proof.
  unfold producedLines. pose proof (extractComment_hashfree line) as Hh.
  destruct (extractComment line) as [comments rest]. simpl in Hh.
  destruct (gostring_eqb rest []).
  { destruct (0 <? length comments)%nat eqn:E; [| constructor].
    constructor; [| constructor]. unfold line_wf. simpl.
    split_and!; [done | done |]. intros ->. done. }
  destruct (gostring_eqb rest [r_rbrace]); [constructor |].
  by apply linesOf_wf, splitDirectives_wf.
Qed.

Lemma lines_wf_init : lines_wf [rootBlock].
Proof.
  intros p b Hp. destruct p; [| done]. injection Hp as <-. split; [constructor | done].
Qed.

Lemma lines_wf_grow (h : heap) cur b line :
  lines_wf h → h !! cur = Some b → lines_wf (grow h cur b (producedLines line)).
Proof.
  intros Hwf Hb p bp Hp.
  pose proof (producedLines_wf line) as Hnews.
  set (news := producedLines line) in *. clearbody news.
  destruct (grow_lookup_inv _ _ _ _ _ _ Hb Hp) as [[-> ->] | [[Hne Hold] | (i & -> & Hnew)]].
  - destruct (Hwf cur b Hb) as [H1 H2]. cbn. split; [| done].
    apply Forall_app. by split.
  - by apply Hwf.
  - unfold newBlocks in Hnew. rewrite list_lookup_fmap in Hnew.
    destruct (blockLines news !! i) as [l|] eqn:El; [| done].
    injection Hnew as <-. split; [constructor |]. intros _. cbn.
    apply list_elem_of_lookup_2 in El. apply list_elem_of_filter in El as [Hty Hin].
    rewrite Forall_forall in Hnews. specialize (Hnews l Hin).
    unfold line_wf in Hnews. by rewrite Hty in Hnews.
Qed.

(** ** Parsing a printed line *)

(** *** More on trimming *)

Lemma trimLeft_app s t :
  trimLeft (s ++ t) = match trimLeft s with [] => trimLeft t | _ => trimLeft s ++ t end.
Proof.
  induction s as [|c s IH]; simpl.
  - by destruct (trimLeft t).
  - destruct (isSpace c); [done | done].
Qed.

Lemma trimRight_app a b d :
  last a = Some d → isSpace d = false → trimRight (a ++ b) = a ++ trimRight b.
Proof.
  intros Hl Hd. rewrite last_Some in Hl. destruct Hl as (a' & ->).
  unfold trimRight. rewrite reverse_app, trimLeft_app.
  destruct (trimLeft (reverse b)) as [|c t] eqn:E.
  - rewrite reverse_snoc, trimLeft_nonspace by done.
    rewrite reverse_cons, reverse_involutive. by rewrite app_nil_r.
  - by rewrite reverse_app, reverse_involutive.
Qed.

(** Trimming a string that starts with a trimmed, non-empty one. *)
Lemma TrimSpace_app a b :
  a ≠ [] → TrimSpace a = a → TrimSpace (a ++ b) = a ++ trimRight b.
Proof.
  intros Hne Ha. destruct a as [|c a]; [done |].
  assert (isSpace c = false) as Hc by (by eapply TrimSpace_head).
  destruct (last (c :: a)) as [d|] eqn:El; [| by apply last_None in El].
  assert (isSpace d = false) as Hd by (apply (TrimSpace_last (c :: a)); by rewrite Ha).
  unfold TrimSpace. cbn [app]. rewrite trimLeft_nonspace by done.
  by apply (trimRight_app (c :: a) b d).
Qed.

Lemma TrimSpace_blank_l ws s : blank ws → TrimSpace (ws ++ s) = TrimSpace s.
Proof. intros H. unfold TrimSpace. by rewrite trimLeft_blank. Qed.

Lemma TrimSpace_word w : word w → TrimSpace w = w.
Proof.
  intros Hw. pose proof (TrimSpace_Join [w]) as H. simpl in H. apply H.
  by constructor.
Qed.

Lemma blank_Repeat n : blank (Repeat (runes "  ") n).
Proof.
  induction n as [|n IH]; [constructor |]. simpl. by repeat constructor.
Qed.

(** *** The scan of plain text *)

(** Text without an unquoted semicolon or left brace goes into the current
    fragment as it is. *)
Lemma splitLoop_plain s rest results current (q : qstate) :
  firstUnquoted r_semi s q = None → firstUnquoted r_lbrace s q = None →
  splitLoop (s ++ rest) results current q.1 q.2 =
  splitLoop rest results (current ++ s) (quoteScan s q).1 (quoteScan s q).2.
Proof.
  revert current q. induction s as [|c s IH]; intros current q Hs Hb.
  - by rewrite app_nil_r.
  - cbn [app]. rewrite splitLoop_cons. simpl in Hs, Hb.
    destruct ((c =? r_semi) && negb q.1); [done |].
    destruct ((c =? r_lbrace) && negb q.1); [done |].
    apply fmap_None in Hs, Hb.
    rewrite (IH (current ++ [c]) (quoteStep q c)) by done.
    by rewrite <- app_assoc.
Qed.

(** A trimmed text without unquoted marks and with its quotes closed, then a
    semicolon: one fragment. *)
Lemma splitDirectives_one s :
  s ≠ [] → TrimSpace s = s →
  firstUnquoted r_semi s q0 = None → firstUnquoted r_lbrace s q0 = None →
  (quoteScan s q0).1 = false →
  splitDirectives (s ++ [r_semi]) = [s].
Proof.
  intros Hne Ht Hs Hb Hq. unfold splitDirectives.
  change (splitLoop (s ++ [r_semi]) [] [] false 0)
    with (splitLoop (s ++ [r_semi]) [] [] q0.1 q0.2).
  rewrite splitLoop_plain by done.
  destruct (quoteScan s q0) as [b m]. simpl in Hq. subst b. cbn [fst snd app].
  change (splitLoop [r_semi] [] s false m) with ([] ++ [TrimSpace s]).
  by rewrite Ht.
Qed.

(** The same text, then a space and a left brace: one fragment, with the
    brace, whether the quotes are closed or not. *)
Lemma splitDirectives_header s :
  s ≠ [] → TrimSpace s = s →
  firstUnquoted r_semi s q0 = None → firstUnquoted r_lbrace s q0 = None →
  splitDirectives (s ++ runes " {") = [s ++ runes " {"].
Proof.
  intros Hne Ht Hs Hb. unfold splitDirectives.
  change (splitLoop (s ++ runes " {") [] [] false 0)
    with (splitLoop (s ++ runes " {") [] [] q0.1 q0.2).
  rewrite splitLoop_plain by done. cbn [app].
  change (runes " {") with [r_space; r_lbrace].
  assert (TrimSpace ((s ++ [r_space]) ++ [r_lbrace]) = s ++ [r_space; r_lbrace]) as Htrim.
  { rewrite <- app_assoc. cbn [app]. by rewrite TrimSpace_app. }
  destruct (quoteScan s q0) as [b m]. cbn [fst snd]. destruct b.
  - change (splitLoop [r_space; r_lbrace] [] s true m)
      with (if (0 <? length ((s ++ [r_space]) ++ [r_lbrace]))%nat
            then [] ++ [TrimSpace ((s ++ [r_space]) ++ [r_lbrace])] else []).
    rewrite length_app. simpl. rewrite Nat.add_1_r. simpl. by rewrite Htrim.
  - change (splitLoop [r_space; r_lbrace] [] s false m)
      with ([] ++ [TrimSpace ((s ++ [r_space]) ++ [r_lbrace])]).
    simpl. by rewrite Htrim.
Qed.

(** A word that ends in its first unquoted left brace: one fragment, and
    nothing after the brace counts. *)
Lemma splitDirectives_brace_word name post :
  word name → firstUnquoted r_semi name q0 = None →
  firstUnquoted r_lbrace name q0 = Some (length name - 1)%nat →
  splitDirectives (name ++ post) = [name].
Proof.
  intros Hw Hs Hb. unfold splitDirectives.
  pose proof (firstUnquoted_lookup _ _ _ _ Hb) as Hl.
  assert (last name = Some r_lbrace) as Hlast.
  { rewrite last_lookup. by replace (pred (length name)) with (length name - 1)%nat by lia. }
  rewrite last_Some in Hlast. destruct Hlast as (x & ->).
  rewrite length_app in Hb. simpl in Hb.
  replace (length x + 1 - 1)%nat with (length x) in Hb by lia.
  rewrite firstUnquoted_app in Hb.
  destruct (firstUnquoted r_lbrace x q0) as [i|] eqn:Ex.
  { injection Hb as ->. apply firstUnquoted_lt in Ex. lia. }
  apply firstUnquoted_prefix_None in Hs.
  change (splitLoop ((x ++ [r_lbrace]) ++ post) [] [] false 0)
    with (splitLoop ((x ++ [r_lbrace]) ++ post) [] [] q0.1 q0.2).
  rewrite <- app_assoc. rewrite splitLoop_plain by done. cbn [app].
  rewrite splitLoop_cons. change (r_lbrace =? r_semi) with false. cbn [andb].
  simpl in Hb. destruct (quoteScan x q0) as [b m]. destruct b; [done |].
  change ((r_lbrace =? r_lbrace) && negb (false, m).1) with true. cbn iota.
  simpl. f_equal. by apply TrimSpace_word.
Qed.

(** *** The printed strings *)

Lemma Join_name_params name params :
  name ++ (if (0 <? length params)%nat then runes " " ++ Join params (runes " ") else [])
  = Join (name :: params) (runes " ").
Proof. destruct params; simpl; [by rewrite app_nil_r | done]. Qed.

Lemma lineStrOf_directive indentStr l :
  Line_Type l ≠ LineTypeComment →
  lineStrOf indentStr l =
  (indentStr ++ runes "  ") ++
  (Join (Line_Name l :: Line_Params l) (runes " ") ++ [r_semi]) ++
  commentTail (Line_Comments l).
Proof.
  intros Hty. unfold lineStrOf, commentTail. rewrite bool_decide_eq_true_2 by done.
  rewrite <- Join_name_params.
  destruct (0 <? length (Line_Params l))%nat, (0 <? length (Line_Comments l))%nat;
    by rewrite <- ?app_assoc, ?app_nil_r.
Qed.

Lemma lineStrOf_comment indentStr l :
  Line_Type l = LineTypeComment → Line_Name l = [] → Line_Params l = [] →
  lineStrOf indentStr l = (indentStr ++ runes "  ") ++ commentTail (Line_Comments l).
Proof.
  intros Hty Hn Hp. unfold lineStrOf, commentTail. rewrite Hn, Hp.
  rewrite bool_decide_eq_false_2 by (by intros H). simpl.
  destruct (0 <? length (Line_Comments l))%nat; by rewrite <- ?app_assoc, ?app_nil_r.
Qed.

Lemma blockStrOf_eq indentStr b :
  blockStrOf indentStr b =
  indentStr ++ (Join (Block_Name b :: Block_Params b) (runes " ") ++ runes " {") ++
  commentTail (Block_Comments b).
Proof.
  unfold blockStrOf, commentTail. rewrite <- Join_name_params.
  destruct (0 <? length (Block_Params b))%nat, (0 <? length (Block_Comments b))%nat;
    by rewrite <- ?app_assoc, ?app_nil_r.
Qed.

(** *** Taking the comment off a printed line *)

Lemma commentTail_cases cs :
  commentTail cs = [] ∨ ∃ J, commentTail cs = [r_space; r_hash] ++ J.
Proof.
  unfold commentTail. destruct (0 <? length cs)%nat; [| by left].
  right. by eexists.
Qed.

(** A trimmed text without hash, printed with blanks before it and the
    comments after it, is what parsing finds before the comment. *)
Lemma extractComment_printed pad a cs :
  blank pad → a ≠ [] → TrimSpace a = a → r_hash ∉ a →
  TrimSpace (pad ++ a ++ commentTail cs) ≠ [] ∧
  (extractComment (TrimSpace (pad ++ a ++ commentTail cs))).2 = a.
Proof.
  intros Hpad Hne Ha Hh. rewrite TrimSpace_blank_l, TrimSpace_app by done.
  split; [by destruct a |].
  destruct (commentTail_cases cs) as [-> | (J & ->)].
  - rewrite app_nil_r. unfold extractComment.
    by replace (IndexRune a r_hash) with (@None nat) by (symmetry; by apply IndexRune_None).
  - rewrite (trimRight_app [r_space; r_hash] J r_hash) by done.
    change (a ++ [r_space; r_hash] ++ trimRight J)
      with (a ++ [r_space] ++ r_hash :: trimRight J).
    rewrite app_assoc, extractComment_first.
    + cbn [snd]. rewrite TrimSpace_app by done. by rewrite app_nil_r.
    + apply IndexRune_None. rewrite not_elem_of_app. split; [done |].
      apply not_elem_of_cons; split; [done | apply not_elem_of_nil].
Qed.

Lemma word_hashfree_ne ws : Forall word ws → ws ≠ [] → Join ws (runes " ") ≠ [].
Proof.
  intros Hws Hne. destruct ws as [|w ws]; [done |].
  apply Forall_cons in Hws as [[Hw _] _]. destruct w; [done |].
  destruct ws; simpl; discriminate.
Qed.

Lemma Join_hashfree ws : Forall word ws → r_hash ∉ concat ws → r_hash ∉ Join ws (runes " ").
Proof.
  intros Hws Hh Hin. apply Hh. rewrite <- squeeze_Join by done.
  apply list_elem_of_filter. by split.
Qed.

(** *** A directive *)

Lemma reparse_directive indentStr l :
  blank indentStr → directive_wf l → quotes_closed l →
  TrimSpace (lineStrOf indentStr l) ≠ [] ∧
  closes (TrimSpace (lineStrOf indentStr l)) = false ∧
  producedLines (TrimSpace (lineStrOf indentStr l)) = [reparsedLine indentStr l].
Proof.
  intros Hind (Hws & Hhash & Hsemi & Hbrace & Hlast & Hty) Hq.
  set (ws := Line_Name l :: Line_Params l) in *.
  set (core := Join ws (runes " ")).
  assert (Line_Type l ≠ LineTypeComment) as Hnc.
  { rewrite Hty. by destruct (gostring_eqb (Line_Name l) (runes "include")). }
  assert (core ≠ []) as Hcne by (by apply word_hashfree_ne).
  assert (TrimSpace core = core) as Hct by (by apply TrimSpace_Join).
  assert (TrimSpace (core ++ [r_semi]) = core ++ [r_semi]) as Hat.
  { rewrite TrimSpace_app by done. done. }
  assert (r_hash ∉ core ++ [r_semi]) as Hah.
  { rewrite not_elem_of_app. split; [by apply Join_hashfree |].
    apply not_elem_of_cons; split; [done | apply not_elem_of_nil]. }
  assert (blank (indentStr ++ runes "  ")) as Hpad.
  { apply Forall_app. split; [done |]. by repeat constructor. }
  destruct (extractComment_printed (indentStr ++ runes "  ") (core ++ [r_semi])
              (Line_Comments l) Hpad) as [H1 H2]; [by destruct core | done | done |].
  unfold core, ws in H1, H2.
  rewrite <- (lineStrOf_directive indentStr l Hnc) in H1, H2. fold ws in H2. fold core in H2.
  split; [done |]. unfold closes, producedLines, reparsedLine, recomment.
  destruct (extractComment (TrimSpace (lineStrOf indentStr l))) as [cs rest].
  cbn [fst snd] in *. subst rest.
  assert (gostring_eqb (core ++ [r_semi]) [] = false) as ->
    by (apply bool_decide_eq_false; by destruct core).
  assert (gostring_eqb (core ++ [r_semi]) [r_rbrace] = false) as ->.
  { apply bool_decide_eq_false. intros E.
    assert (last (core ++ [r_semi]) = last [r_rbrace]) as El by (by rewrite E).
    by rewrite last_snoc in El. }
  split; [done |].
  rewrite splitDirectives_one; [| done | done | | |].
  2: { apply (firstUnquoted_squeeze r_semi core q0 eq_refl). unfold core.
       by rewrite squeeze_Join. }
  2: { apply (firstUnquoted_squeeze r_lbrace core q0 eq_refl). unfold core.
       by rewrite squeeze_Join. }
  2: { rewrite <- quoteScan_squeeze. unfold core. by rewrite squeeze_Join. }
  cbn [linesOf]. unfold lineOf. rewrite Hct. unfold core at 1.
  rewrite Fields_Join by done. unfold ws at 1.
  assert (HasSuffixRune core r_lbrace = false) as ->.
  { unfold HasSuffixRune, core. rewrite Join_last by done.
    destruct (last (concat ws)) as [c|]; [| done].
    apply Z.eqb_neq. congruence. }
  by rewrite Hty.
Qed.

(** *** A comment line *)

Lemma reparse_comment indentStr l :
  blank indentStr → Line_Type l = LineTypeComment → line_wf l →
  TrimSpace (lineStrOf indentStr l) ≠ [] ∧
  closes (TrimSpace (lineStrOf indentStr l)) = false ∧
  producedLines (TrimSpace (lineStrOf indentStr l)) = [reparsedLine indentStr l].
Proof.
  intros Hind Hty Hwf. unfold line_wf in Hwf. rewrite Hty in Hwf.
  destruct Hwf as (Hn & Hp & Hc).
  unfold closes, producedLines, reparsedLine, recomment.
  rewrite (lineStrOf_comment indentStr l Hty Hn Hp).
  unfold commentTail. destruct (Line_Comments l) as [|c0 cs0] eqn:Ecs; [done |].
  cbn [length Nat.ltb Nat.leb].
  rewrite TrimSpace_blank_l by (apply Forall_app; split; [done | by repeat constructor]).
  change (runes " # " ++ Join (c0 :: cs0) (runes " "))
    with ([r_space] ++ [r_hash] ++ r_space :: Join (c0 :: cs0) (runes " ")).
  rewrite TrimSpace_blank_l by (by repeat constructor).
  rewrite (TrimSpace_app [r_hash]) by done.
  cbn [app]. split; [done |].
  unfold extractComment. cbn [IndexRune]. rewrite Z.eqb_refl. cbn [take fst snd].
  change (TrimSpace []) with (@nil rune).
  change (gostring_eqb [] [r_rbrace]) with false.
  change (gostring_eqb [] []) with true. cbn iota.
  split; [done |]. cbn [length Nat.ltb Nat.leb]. by rewrite Hn, Hp, Hty.
Qed.

(** *** The opening line of a block *)

Lemma Join_snoc ws w sep : ws ≠ [] → Join (ws ++ [w]) sep = Join ws sep ++ sep ++ w.
Proof.
  induction ws as [|w0 ws IH]; [done |]. intros _.
  destruct ws as [|w1 ws]; [done |].
  change ((w0 :: w1 :: ws) ++ [w]) with (w0 :: ((w1 :: ws) ++ [w])).
  rewrite Join_cons by done. rewrite IH by done.
  rewrite (Join_cons w0 (w1 :: ws)) by done. by rewrite <- !app_assoc.
Qed.

Lemma word_lbrace : word [r_lbrace].
Proof. split; [done |]. by repeat constructor. Qed.

Lemma HasSuffixRune_snoc s r : HasSuffixRune (s ++ [r]) r = true.
Proof. unfold HasSuffixRune. rewrite last_snoc. apply Z.eqb_refl. Qed.

Lemma reparse_header indentStr b :
  blank indentStr → header_wf (Block_Name b) (Block_Params b) →
  TrimSpace (blockStrOf indentStr b) ≠ [] ∧
  closes (TrimSpace (blockStrOf indentStr b)) = false ∧
  producedLines (TrimSpace (blockStrOf indentStr b)) = [reparsedHeader indentStr b].
Proof.
  intros Hind (Hws & Hhash & Hsemi & Hbrace).
  set (name := Block_Name b) in *. set (params := Block_Params b) in *.
  set (ws := name :: params) in *.
  set (core := Join ws (runes " ")).
  assert (core ≠ []) as Hcne by (by apply word_hashfree_ne).
  assert (TrimSpace core = core) as Hct by (by apply TrimSpace_Join).
  assert (TrimSpace (core ++ runes " {") = core ++ runes " {") as Hat.
  { by rewrite TrimSpace_app. }
  assert (r_hash ∉ core ++ runes " {") as Hah.
  { rewrite not_elem_of_app. split; [by apply Join_hashfree |].
    apply not_elem_of_cons; split; [done |].
    apply not_elem_of_cons; split; [done | apply not_elem_of_nil]. }
  destruct (extractComment_printed indentStr (core ++ runes " {")
              (Block_Comments b) Hind) as [H1 H2]; [by destruct core | done | done |].
  unfold core, ws, name, params in H1, H2.
  rewrite <- (blockStrOf_eq indentStr b) in H1, H2.
  fold name params in H2. fold ws in H2. fold core in H2.
  split; [done |]. unfold closes, producedLines, reparsedHeader, recomment.
  destruct (extractComment (TrimSpace (blockStrOf indentStr b))) as [cs rest].
  cbn [fst snd] in *. subst rest.
  assert (gostring_eqb (core ++ runes " {") [] = false) as ->
    by (apply bool_decide_eq_false; by destruct core).
  assert (gostring_eqb (core ++ runes " {") [r_rbrace] = false) as ->.
  { apply bool_decide_eq_false. intros E.
    assert (last (core ++ runes " {") = last [r_rbrace]) as El by (by rewrite E).
    change (runes " {") with ([r_space] ++ [r_lbrace]) in El.
    by rewrite app_assoc, last_snoc in El. }
  split; [done |].
  assert (firstUnquoted r_semi core q0 = None) as Hsc.
  { apply (firstUnquoted_squeeze r_semi core q0 eq_refl). unfold core.
    by rewrite squeeze_Join. }
  destruct Hbrace as [Hb | [Hp Hb]].
  - rewrite splitDirectives_header; [| done | done | done |].
    2: { apply (firstUnquoted_squeeze r_lbrace core q0 eq_refl). unfold core.
         by rewrite squeeze_Join. }
    cbn [linesOf]. unfold lineOf. rewrite Hat.
    assert (core ++ runes " {" = Join (ws ++ [[r_lbrace]]) (runes " ")) as Ej
      by (by rewrite Join_snoc).
    rewrite Ej at 1. rewrite Fields_Join.
    2: { apply Forall_app. split; [done |]. constructor; [apply word_lbrace | constructor]. }
    change (runes " {") with ([r_space] ++ [r_lbrace]).
    rewrite app_assoc, HasSuffixRune_snoc.
    unfold ws. cbn [app].
    change [r_lbrace] with ([] ++ [r_lbrace]) at 1.
    rewrite blockParams_last_word. by rewrite app_nil_r.
  - assert (core = name) as Ecore by (unfold core, ws; by rewrite Hp).
    rewrite Ecore in *.
    assert (word name) as Hwn by (by apply Forall_cons in Hws as [? _]).
    rewrite splitDirectives_brace_word; [| done | done | done].
    cbn [linesOf]. unfold lineOf. rewrite Hct.
    pose proof (Fields_Join [name]) as HF. simpl in HF. rewrite HF by (by constructor).
    assert (HasSuffixRune name r_lbrace = true) as ->.
    { apply firstUnquoted_lookup in Hb. unfold HasSuffixRune. rewrite last_lookup.
      replace (pred (length name)) with (length name - 1)%nat by lia.
      rewrite Hb. apply Z.eqb_refl. }
    change (blockParams [name]) with (@nil gostring).
    unfold params in Hp. by rewrite Hp.
Qed.

(** *** The closing line of a block *)

Lemma reparse_footer indentStr :
  blank indentStr →
  TrimSpace (indentStr ++ runes "}") ≠ [] ∧
  closes (TrimSpace (indentStr ++ runes "}")) = true ∧
  producedLines (TrimSpace (indentStr ++ runes "}")) = [].
Proof.
  intros Hind. rewrite TrimSpace_blank_l by done. by vm_compute.
Qed.

(** ** One line of the scan loop *)

Lemma scanLoop_cons text rest cur (st st' : pstate) top :
  TrimSpace text ≠ [] →
  parseLine (TrimSpace text) cur st = Done st' →
  last st'.2 = Some top →
  scanLoop (text :: rest) cur st = scanLoop rest top st'.
Proof.
  intros Hne Hp Hl. cbn [scanLoop]. unfold gostring_eqb.
  rewrite bool_decide_eq_false_2 by done. rewrite Hp. cbn [mbind result_bind].
  assert ((0 <? length st'.2)%nat = true) as ->.
  { apply Nat.ltb_lt. destruct st'.2; [done | simpl; lia]. }
  by rewrite (index_last _ top).
Qed.

(** A line that gives lines to the current block and opens no block. *)
Lemma scanLoop_plain text rest cur (H : heap) stk b :
  TrimSpace text ≠ [] → closes (TrimSpace text) = false →
  newBlocks cur (producedLines (TrimSpace text)) = [] →
  H !! cur = Some b → last stk = Some cur →
  scanLoop (text :: rest) cur (H, stk) =
  scanLoop rest cur (<[cur := extendBlock (producedLines (TrimSpace text)) [] b]> H, stk).
Proof.
  intros Hne Hcl Hnb Hb Hl.
  rewrite (scanLoop_cons text rest cur (H, stk)
             (<[cur := extendBlock (producedLines (TrimSpace text)) [] b]> H, stk) cur);
    [done | done | | done].
  rewrite (parseLine_effect _ _ _ _ b) by done. rewrite Hcl. unfold grow.
  rewrite Hnb. simpl. by rewrite !app_nil_r.
Qed.

(** A line that opens a block. *)
Lemma scanLoop_open text rest cur (H : heap) stk b hdr :
  TrimSpace text ≠ [] → closes (TrimSpace text) = false →
  producedLines (TrimSpace text) = [hdr] → Line_Type hdr = LineTypeBlock →
  H !! cur = Some b →
  scanLoop (text :: rest) cur (H, stk) =
  scanLoop rest (length H)
    (<[cur := extendBlock [hdr] [length H] b]> H ++ [blockOfLine cur hdr], stk ++ [length H]).
Proof.
  intros Hne Hcl Hp Hty Hb.
  rewrite (scanLoop_cons text rest cur (H, stk)
             (<[cur := extendBlock [hdr] [length H] b]> H ++ [blockOfLine cur hdr],
              stk ++ [length H]) (length H));
    [done | done | | cbn [snd]; by rewrite last_snoc].
  rewrite (parseLine_effect _ _ _ _ b) by done. rewrite Hcl, Hp. unfold grow.
  by rewrite newBlocks_cons_block.
Qed.

(** A line that closes a block. *)
Lemma scanLoop_close text rest cur (H : heap) stk c top :
  TrimSpace text ≠ [] → closes (TrimSpace text) = true →
  last stk = Some top →
  scanLoop (text :: rest) cur (H, stk ++ [c]) = scanLoop rest top (H, stk).
Proof.
  intros Hne Hcl Hl.
  rewrite (scanLoop_cons text rest cur (H, stk ++ [c]) (H, stk) top); [done | done | | done].
  rewrite parseLine_close by (by apply bool_decide_eq_true in Hcl).
  rewrite length_app. cbn [length].
  assert ((1 <? length stk + 1)%nat = true) as ->.
  { apply Nat.ltb_lt. destruct stk; [done | simpl; lia]. }
  replace (length stk + 1 - 1)%nat with (length stk) by lia.
  by rewrite take_app_length.
Qed.

(** ** The lines of a block, printed and parsed again *)

Lemma printLines_app indentStr ds bs :
  Forall (λ l, Line_Type l ≠ LineTypeBlock) ds →
  Forall (λ l, Line_Type l = LineTypeBlock) bs →
  printLines indentStr (ds ++ bs) = lineStrOf indentStr <$> ds.
Proof.
  intros Hds Hbs. induction Hds as [|d ds Hd _ IH]; simpl.
  - induction Hbs as [|l bs Hl _ IH]; [done |]. simpl.
    by rewrite bool_decide_eq_true_2.
  - rewrite bool_decide_eq_false_2 by done. by rewrite IH.
Qed.

Lemma reparse_line indentStr l :
  blank indentStr → Line_Type l ≠ LineTypeBlock → line_wf l → quotesClosed l = true →
  TrimSpace (lineStrOf indentStr l) ≠ [] ∧
  closes (TrimSpace (lineStrOf indentStr l)) = false ∧
  producedLines (TrimSpace (lineStrOf indentStr l)) = [reparsedLine indentStr l].
Proof.
  intros Hind Hty Hwf Hq. unfold line_wf in Hwf. unfold quotesClosed in Hq.
  destruct (Line_Type l) eqn:E.
  - apply reparse_comment; [done | done |]. unfold line_wf. by rewrite E.
  - apply reparse_directive; [done | done |].
    rewrite bool_decide_eq_true_2 in Hq by (by right). by apply negb_true_iff in Hq.
  - apply reparse_directive; [done | done |].
    rewrite bool_decide_eq_true_2 in Hq by (by left). by apply negb_true_iff in Hq.
  - done.
Qed.

Lemma scanLoop_lines indentStr ds rest cur (H : heap) stk b :
  blank indentStr →
  Forall (λ l, Line_Type l ≠ LineTypeBlock) ds →
  Forall line_wf ds → Forall (λ l, quotesClosed l = true) ds →
  H !! cur = Some b → last stk = Some cur →
  scanLoop ((lineStrOf indentStr <$> ds) ++ rest) cur (H, stk) =
  scanLoop rest cur (<[cur := extendBlock (reparsedLine indentStr <$> ds) [] b]> H, stk).
Proof.
  intros Hind Hty. revert H b.
  induction Hty as [|d ds Hd _ IH]; intros H b Hwf Hq Hb Hl.
  - simpl. by rewrite extendBlock_nil, list_insert_id.
  - apply Forall_cons in Hwf as [Hwd Hwf]. apply Forall_cons in Hq as [Hqd Hq].
    destruct (reparse_line indentStr d Hind Hd Hwd Hqd) as (H1 & H2 & H3).
    cbn [fmap list_fmap app].
    rewrite (scanLoop_plain _ _ _ _ _ b); [| done | done | | done | done].
    2: { rewrite H3. by apply newBlocks_cons_line. }
    rewrite H3.
    rewrite (IH _ (extendBlock [reparsedLine indentStr d] [] b));
      [| done | done | | done].
    2: { apply list_lookup_insert_eq. by eapply lookup_lt_Some. }
    by rewrite list_insert_insert_eq, extendBlock_extendBlock.
Qed.

(** ** A printed block, parsed again *)

Lemma forEach_cons_Done {A B} (f : A → result (list B)) a l outs :
  forEach f (a :: l) = Done outs →
  ∃ o os, f a = Done o ∧ forEach f l = Done os ∧ outs = o ++ os.
Proof.
  cbn [forEach]. destruct (f a) as [o | |]; [| done | done]. cbn.
  destruct (forEach f l) as [os | |]; [| done | done]. cbn.
  intros [= <-]. eauto.
Qed.

Lemma linesFirst_split ls :
  linesFirst ls = true →
  ∃ ds bs, ls = ds ++ bs ∧
    Forall (λ l, Line_Type l ≠ LineTypeBlock) ds ∧
    Forall (λ l, Line_Type l = LineTypeBlock) bs.
Proof.
  induction ls as [|l ls IH]; simpl.
  - intros _. exists [], []. by repeat constructor.
  - destruct (bool_decide (Line_Type l = LineTypeBlock)) eqn:E.
    + apply bool_decide_eq_true in E. intros Hall.
      exists [], (l :: ls). split; [done |]. split; [constructor |].
      constructor; [done |]. apply Forall_forall. intros x Hx.
      rewrite forallb_forall in Hall. apply list_elem_of_In in Hx.
      specialize (Hall x Hx). by apply bool_decide_eq_true in Hall.
    + apply bool_decide_eq_false in E. intros H.
      destruct (IH H) as (ds & bs & -> & Hds & Hbs).
      exists (l :: ds), bs. split; [done |]. split; [by constructor | done].
Qed.

Lemma blockLines_split ds bs :
  Forall (λ l, Line_Type l ≠ LineTypeBlock) ds →
  Forall (λ l, Line_Type l = LineTypeBlock) bs →
  blockLines (ds ++ bs) = bs.
Proof.
  intros Hds Hbs. unfold blockLines. rewrite filter_app.
  replace (filter _ ds) with (@nil Line).
  - simpl. induction Hbs as [|l bs Hl _ IH]; [done |].
    rewrite filter_cons_True by done. by rewrite IH.
  - symmetry. induction Hds as [|l ds Hl _ IH]; [done |].
    by rewrite filter_cons_False.
Qed.

(** The lines of type [LineTypeBlock] have the keys of the headers of
    the children. *)
Lemma header_keys (h : heap) bs hdrs cs :
  Forall (λ l, Line_Type l = LineTypeBlock) bs →
  Forall2 (mirrors h) bs cs → Forall2 (headerOf h) hdrs cs →
  lineKey <$> hdrs = lineKey <$> bs.
Proof.
  intros Hty Hm. revert hdrs. induction Hm as [|l c bs cs Hlc _ IH]; intros hdrs Hh.
  - by apply Forall2_nil_inv_r in Hh as ->.
  - apply Forall2_cons_inv_r in Hh as (hdr & hdrs' & Hhdr & Hh & ->).
    apply Forall_cons in Hty as [Hl Hty]. cbn [fmap list_fmap]. f_equal; [| by apply IH].
    destruct Hlc as (cb & Hc & Hn & Hp). destruct Hhdr as (bq & Hq & Hk).
    rewrite Hc in Hq. injection Hq as <-. rewrite Hk. unfold lineKey.
    by rewrite Hl, Hn, Hp.
Qed.

Section RoundTrip.
(** The arena that is printed, and what is known of it. *)
Variable h : heap.
Hypothesis Hwf : lines_wf h.
Hypothesis Hshape : tree_shape h.
Hypothesis Hord : ordered h.
Hypothesis Hfirst : ∀ p b, h !! p = Some b → linesFirst (Block_Lines b) = true.
Hypothesis Hquotes :
  ∀ p b, h !! p = Some b → Forall (λ l, quotesClosed l = true) (Block_Lines b).
Hypothesis Hnames :
  ∀ p b, h !! p = Some b → p ≠ 0%nat →
         gostring_eqb (Block_Name b) (runes "root") = false.

Lemma children_spec fuel indent :
  block_spec h fuel →
  ∀ cs couts ss,
    Forall (λ q, q ≠ 0%nat) cs →
    forEach (λ q, printBlock fuel h q indent) cs = Done couts →
    Forall2 (λ q s, shapeOf fuel h q = Some s) cs ss →
    ∀ rest c (H : heap) stk bc,
      H !! c = Some bc → last stk = Some c →
      ∃ segs hdrs ptrs,
        scanLoop (couts ++ rest) c (H, stk) =
          scanLoop rest c (<[c := extendBlock hdrs ptrs bc]> H ++ segs, stk) ∧
        Forall2 (headerOf h) hdrs cs ∧
        (∀ pre post, length pre = length H →
           Forall2 (λ a s, shapeOf fuel (pre ++ segs ++ post) a = Some s) ptrs ss).
Proof.
  intros IH. induction cs as [|q cs IHcs]; intros couts ss Hnz Hprint Hss rest c H stk bc Hc Hl.
  - injection Hprint as <-. apply Forall2_nil_inv_l in Hss as ->.
    exists [], [], []. split_and!; [| constructor | constructor].
    simpl. by rewrite extendBlock_nil, list_insert_id, app_nil_r.
  - apply forEach_cons_Done in Hprint as (o & os & Hq & Hos & ->).
    apply Forall2_cons_inv_l in Hss as (s & ss' & Hs & Hss' & ->).
    apply Forall_cons in Hnz as [Hqz Hnz].
    assert (is_Some (h !! q)) as [bq Hbq].
    { destruct fuel; [done |]. simpl in Hs. by destruct (h !! q). }
    destruct (IH q indent o s bq Hbq Hqz Hq Hs (os ++ rest) c H stk bc Hc Hl)
      as (seg & hdr & Hrun & Hhdr & Hseg).
    set (H1 := <[c := extendBlock [hdr] [length H] bc]> H ++ seg) in *.
    assert (c < length H)%nat as Hlt by (by eapply lookup_lt_Some).
    assert (H1 !! c = Some (extendBlock [hdr] [length H] bc)) as Hc1.
    { unfold H1. rewrite lookup_app_l by (rewrite length_insert; lia).
      by apply list_lookup_insert_eq. }
    destruct (IHcs os ss' Hnz Hos Hss' rest c H1 stk _ Hc1 Hl)
      as (segs & hdrs & ptrs & Hrun' & Hhdrs & Hsegs).
    exists (seg ++ segs), (hdr :: hdrs), (length H :: ptrs). split_and!.
    + rewrite <- app_assoc, Hrun, Hrun'. f_equal. f_equal. unfold H1.
      rewrite insert_app_l by (rewrite length_insert; lia).
      rewrite list_insert_insert_eq, extendBlock_extendBlock.
      by rewrite <- app_assoc.
    + by constructor.
    + intros pre post Hpre. constructor.
      * rewrite <- app_assoc. by apply Hseg.
      * specialize (Hsegs (pre ++ seg) post). rewrite <- !app_assoc in Hsegs.
        rewrite <- app_assoc. apply Hsegs. unfold H1.
        rewrite !length_app, length_insert. lia.
Qed.

Lemma lineKey_reparsedLine indentStr (ds : list Line) :
  lineKey <$> (reparsedLine indentStr <$> ds) = lineKey <$> ds.
Proof. rewrite <- list_fmap_compose. by apply list_fmap_ext. Qed.

(** The lines and the children of the block at [p], printed and parsed
    into the block at [c]. *)
Lemma content_spec fuel indent :
  block_spec h fuel →
  ∀ p b couts ss,
    h !! p = Some b →
    forEach (λ q, printBlock fuel h q (indent + 1)) (Block_Blocks b) = Done couts →
    Forall2 (λ q s, shapeOf fuel h q = Some s) (Block_Blocks b) ss →
    ∀ rest c (H : heap) stk bc,
      H !! c = Some bc → last stk = Some c →
      ∃ segs news ptrs,
        scanLoop (printLines (Repeat (runes "  ") indent) (Block_Lines b) ++ couts ++ rest)
                 c (H, stk) =
          scanLoop rest c (<[c := extendBlock news ptrs bc]> H ++ segs, stk) ∧
        lineKey <$> news = lineKey <$> Block_Lines b ∧
        (∀ pre post, length pre = length H →
           Forall2 (λ a s, shapeOf fuel (pre ++ segs ++ post) a = Some s) ptrs ss).
Proof.
  intros IH p b couts ss Hb Hprint Hss rest c H stk bc Hc Hl.
  destruct (linesFirst_split _ (Hfirst p b Hb)) as (ds & bs & Hlines & Hds & Hbs).
  destruct (Hwf p b Hb) as [Hlwf _]. pose proof (Hquotes p b Hb) as Hq.
  rewrite Hlines in Hlwf, Hq. apply Forall_app in Hlwf as [Hdwf _].
  apply Forall_app in Hq as [Hdq _].
  assert (c < length H)%nat as Hlt by (by eapply lookup_lt_Some).
  rewrite Hlines, printLines_app by done.
  rewrite (scanLoop_lines _ _ _ _ _ _ bc) by (done || apply blank_Repeat).
  set (bc' := extendBlock (reparsedLine (Repeat (runes "  ") indent) <$> ds) [] bc).
  destruct (children_spec fuel (indent + 1) IH (Block_Blocks b) couts ss)
    with (rest := rest) (c := c) (H := <[c := bc']> H) (stk := stk) (bc := bc')
    as (segs & hdrs & ptrs & Hrun & Hhdrs & Hsegs); [| done | done | | done |].
  { eapply Forall_impl; [by apply (Hord p b) |]. simpl. lia. }
  { by apply list_lookup_insert_eq. }
  exists segs, ((reparsedLine (Repeat (runes "  ") indent) <$> ds) ++ hdrs), ptrs.
  split_and!.
  - rewrite Hrun. unfold bc'.
    by rewrite list_insert_insert_eq, extendBlock_extendBlock.
  - rewrite !fmap_app, lineKey_reparsedLine. f_equal.
    apply (header_keys h bs hdrs (Block_Blocks b)); [done | | done].
    pose proof (Hshape p b Hb) as Hm. rewrite Hlines in Hm.
    by rewrite blockLines_split in Hm.
  - intros pre post Hpre. apply Hsegs. by rewrite length_insert.
Qed.

Lemma block_spec_S fuel : block_spec h fuel → block_spec h (S fuel).
Proof.
  intros IH p indent out s bp Hbp Hpz Hprint Hs rest cur H stk bcur Hcur Hl.
  cbn [printBlock] in Hprint. unfold load in Hprint.
  rewrite (index_Done _ _ bp) in Hprint by done. cbn [mbind result_bind] in Hprint.
  rewrite (Hnames p bp Hbp Hpz) in Hprint. cbn [negb] in Hprint.
  destruct (forEach _ (Block_Blocks bp)) as [couts | |] eqn:Hcouts; [| done | done].
  cbn in Hprint. injection Hprint as <-.
  cbn [shapeOf] in Hs. rewrite Hbp in Hs. cbn in Hs.
  destruct (mapM (shapeOf fuel h) (Block_Blocks bp)) as [ss|] eqn:Hss; [| done].
  cbn in Hs. injection Hs as <-. apply mapM_Some_1 in Hss.
  set (indentStr := Repeat (runes "  ") indent) in *.
  assert (blank indentStr) as Hblank by apply blank_Repeat.
  destruct (Hwf p bp Hbp) as [_ Hhdr]. specialize (Hhdr Hpz).
  destruct (reparse_header indentStr bp Hblank Hhdr) as (Hh1 & Hh2 & Hh3).
  destruct (reparse_footer indentStr Hblank) as (Hf1 & Hf2 & _).
  set (hdr := reparsedHeader indentStr bp) in *.
  set (blk0 := blockOfLine cur hdr).
  set (A := <[cur := extendBlock [hdr] [length H] bcur]> H).
  assert (length A = length H) as HlenA by apply length_insert.
  cbn [app]. rewrite <- ?app_assoc. cbn [app].
  rewrite (scanLoop_open _ _ _ _ _ bcur hdr) by done. fold A blk0.
  destruct (content_spec fuel indent IH p bp couts ss Hbp Hcouts Hss
              ((indentStr ++ runes "}") :: rest) (length H) (A ++ [blk0])
              (stk ++ [length H]) blk0)
    as (segs & news & ptrs & Hrun & Hkeys & Hsegs).
  { rewrite <- HlenA. by apply list_lookup_middle. }
  { by rewrite last_snoc. }
  fold indentStr in Hrun. cbn [app] in Hrun. rewrite Hrun.
  rewrite (scanLoop_close _ _ _ _ _ _ cur) by done.
  set (X := extendBlock news ptrs blk0).
  assert (<[length H := X]> (A ++ [blk0]) = A ++ [X]) as HX.
  { rewrite <- HlenA. rewrite <- (Nat.add_0_r (length A)). by rewrite insert_app_r. }
  exists (X :: segs), hdr. split_and!.
  - f_equal. f_equal. rewrite HX. by rewrite <- app_assoc.
  - by exists bp.
  - intros pre post Hpre. cbn [shapeOf].
    assert ((pre ++ (X :: segs) ++ post) !! length H = Some X) as ->.
    { rewrite <- Hpre. by apply list_lookup_middle. }
    cbn [mbind option_bind].
    assert (mapM (shapeOf fuel (pre ++ (X :: segs) ++ post)) (Block_Blocks X) = Some ss) as ->.
    { apply mapM_Some_2. cbn [X extendBlock Block_Blocks blk0 blockOfLine app].
      specialize (Hsegs (pre ++ [X]) post). rewrite <- !app_assoc in Hsegs.
      apply Hsegs. rewrite !length_app. simpl. lia. }
    cbn. f_equal. f_equal. cbn [app]. done.
Qed.

Lemma block_spec_all fuel : block_spec h fuel.
Proof.
  induction fuel as [|fuel IH]; [| by apply block_spec_S].
  intros p indent out s bp _ _ Hprint. done.
Qed.
End RoundTrip.

(** ** The recursion of the printer ends *)

Lemma ordered_init : ordered [rootBlock].
Proof. intros p b Hp. destruct p; [| done]. injection Hp as <-. constructor. Qed.

Lemma ordered_grow (h : heap) cur b line :
  ordered h → h !! cur = Some b → ordered (grow h cur b (producedLines line)).
Proof.
  set (news := producedLines line). clearbody news.
  intros Hord Hb p bp Hp. rewrite length_grow.
  assert (cur < length h)%nat as Hlt by (by eapply lookup_lt_Some).
  destruct (grow_lookup_inv _ _ _ _ _ _ Hb Hp) as [[-> ->] | [[Hne Hold] | (i & -> & Hnew)]].
  - cbn. apply Forall_app. split.
    + eapply Forall_impl; [by apply (Hord cur b) |]. simpl. lia.
    + apply Forall_seq. intros j Hj. lia.
  - eapply Forall_impl; [by apply (Hord p bp) |]. simpl. lia.
  - unfold newBlocks in Hnew. rewrite list_lookup_fmap in Hnew.
    destruct (blockLines news !! i); [| done]. injection Hnew as <-. constructor.
Qed.

Lemma forEach_Done {A B} (f : A → result (list B)) l :
  Forall (λ a, ∃ out, f a = Done out) l → ∃ outs, forEach f l = Done outs.
Proof.
  induction 1 as [|a l [out Ha] _ [outs IH]]; [by exists [] |].
  exists (out ++ outs). cbn [forEach]. by rewrite Ha, IH.
Qed.

(** With as much depth as there are blocks after [p], the shape of the
    tree under [p] is read and the block is printed. *)
Lemma fuel_enough (h : heap) :
  ordered h →
  ∀ fuel p, (p < length h)%nat → (length h - p ≤ fuel)%nat →
    is_Some (shapeOf fuel h p) ∧ ∀ indent, ∃ out, printBlock fuel h p indent = Done out.
Proof.
  intros Hord. induction fuel as [|fuel IH]; intros p Hp Hfuel; [lia |].
  destruct (lookup_lt_is_Some_2 h p Hp) as [b Hb].
  pose proof (Hord p b Hb) as Hcs.
  assert (Forall (λ c, is_Some (shapeOf fuel h c) ∧
                       ∀ indent, ∃ out, printBlock fuel h c indent = Done out)
                 (Block_Blocks b)) as Hall.
  { eapply Forall_impl; [done |]. simpl. intros c Hc. apply IH; lia. }
  split.
  - cbn [shapeOf]. rewrite Hb. cbn.
    assert (is_Some (mapM (shapeOf fuel h) (Block_Blocks b))) as [ss ->].
    { apply mapM_is_Some. eapply Forall_impl; [done |]. by intros c [? _]. }
    done.
  - intros indent. cbn [printBlock]. unfold load. rewrite (index_Done _ _ b) by done.
    cbn [mbind result_bind].
    destruct (forEach_Done (λ c, printBlock fuel h c (indent + 1)) (Block_Blocks b))
      as [outs ->]; [| by eexists].
    eapply Forall_impl; [done |]. simpl. intros c [_ Hc]. apply Hc.
Qed.

(** ** The round trip, from the root *)

Lemma printable_blocks (h : heap) :
  printable h = true →
  (∀ p b, h !! p = Some b → linesFirst (Block_Lines b) = true) ∧
  (∀ p b, h !! p = Some b → Forall (λ l, quotesClosed l = true) (Block_Lines b)) ∧
  (∀ p b, h !! p = Some b → p ≠ 0%nat →
          gostring_eqb (Block_Name b) (runes "root") = false).
Proof.
  unfold printable. intros H. apply andb_true_iff in H as [H1 H2].
  rewrite forallb_forall in H1, H2. split_and!.
  - intros p b Hb. apply list_elem_of_lookup_2, list_elem_of_In, H1 in Hb.
    by apply andb_true_iff in Hb as [? _].
  - intros p b Hb. apply list_elem_of_lookup_2, list_elem_of_In, H1 in Hb.
    apply andb_true_iff in Hb as [_ Hb]. rewrite forallb_forall in Hb.
    apply Forall_forall. intros l Hl. by apply Hb, list_elem_of_In.
  - intros p b Hb Hp. destruct p as [|p]; [done |].
    assert (drop 1 h !! p = Some b) as Hd by (by rewrite lookup_drop).
    apply list_elem_of_lookup_2, list_elem_of_In, H2 in Hd.
    by apply negb_true_iff in Hd.
Qed.

Lemma reparse_root (h : heap) fuel out s :
  lines_wf h → tree_shape h → ordered h → root_at_0 h → printable h = true →
  printBlock fuel h 0%nat 0 = Done out → shapeOf fuel h 0%nat = Some s →
  ∃ h2 stack2, parseLines out = Done (h2, stack2) ∧ shapeOf fuel h2 0%nat = Some s.
Proof.
  intros Hwf Hshape Hord (b0 & Hb0 & Hname & Hparams & _) Hpr Hprint Hs.
  destruct (printable_blocks h Hpr) as (Hfirst & Hquotes & Hnames).
  destruct fuel as [|fuel]; [done |].
  cbn [printBlock] in Hprint. unfold load in Hprint.
  rewrite (index_Done _ _ b0) in Hprint by done. cbn [mbind result_bind] in Hprint.
  rewrite Hname in Hprint. change (gostring_eqb (runes "root") (runes "root")) with true in Hprint.
  cbn [negb] in Hprint.
  destruct (forEach _ (Block_Blocks b0)) as [couts | |] eqn:Hcouts; [| done | done].
  cbn in Hprint. injection Hprint as <-.
  cbn [shapeOf] in Hs. rewrite Hb0 in Hs. cbn in Hs.
  destruct (mapM (shapeOf fuel h) (Block_Blocks b0)) as [ss|] eqn:Hss; [| done].
  cbn in Hs. injection Hs as <-. apply mapM_Some_1 in Hss.
  destruct (content_spec h Hwf Hshape Hord Hfirst Hquotes fuel 0
              (block_spec_all h Hwf Hshape Hord Hfirst Hquotes Hnames fuel)
              0%nat b0 couts ss Hb0 Hcouts Hss [] 0%nat [rootBlock] [0%nat] rootBlock
              eq_refl eq_refl)
    as (segs & news & ptrs & Hrun & Hkeys & Hsegs).
  set (X := extendBlock news ptrs rootBlock) in *.
  exists ([X] ++ segs), [0%nat]. split.
  - unfold parseLines. rewrite app_nil_r in *.
    change (Repeat (runes "  ") 0) with (@nil rune) in Hrun. by rewrite Hrun.
  - cbn [shapeOf app lookup list_lookup mbind option_bind].
    assert (mapM (shapeOf fuel (X :: segs)) (Block_Blocks X) = Some ss) as ->.
    { apply mapM_Some_2. specialize (Hsegs [X] [] eq_refl).
      by rewrite app_nil_r in Hsegs. }
    cbn. rewrite Hname, Hparams. f_equal. f_equal. done.
Qed.

Lemma parsed_ok_init : parsed_ok [rootBlock].
Proof.
  split_and!; [apply lines_wf_init | | apply ordered_init | by exists rootBlock].
  intros p b Hp. destruct p; [| done]. injection Hp as <-. constructor.
Qed.

Lemma parsed_ok_grow (h : heap) cur b line :
  parsed_ok h → h !! cur = Some b → parsed_ok (grow h cur b (producedLines line)).
Proof.
  intros (H1 & H2 & H3 & H4) Hb. split_and!.
  - by apply lines_wf_grow.
  - by apply tree_shape_grow.
  - by apply ordered_grow.
  - by apply root_at_0_grow.
Qed.

Lemma parseLines_parsed_ok lines h stack :
  parseLines lines = Done (h, stack) → parsed_ok h.
Proof.
  intros Hrun.
  destruct (parseLines_invariant parsed_ok parsed_ok_init parsed_ok_grow lines)
    as (h' & rest & Hrun' & Hok).
  rewrite Hrun in Hrun'. by injection Hrun' as -> _.
Qed.

(** Printing a printable parsed document and parsing the print gives a
    document of the same shape. *)
Lemma round_trip lines h stack :
  parseLines lines = Done (h, stack) → printable h = true →
  ∃ out h2 stack2 s,
    printBlock (length h) h 0%nat 0 = Done out ∧
    parseLines out = Done (h2, stack2) ∧
    shapeOf (length h) h 0%nat = Some s ∧
    shapeOf (length h) h2 0%nat = Some s.
Proof.
  intros Hrun Hpr. destruct (parseLines_parsed_ok _ _ _ Hrun) as (Hwf & Hshape & Hord & Hroot).
  assert (0 < length h)%nat as Hlen.
  { destruct Hroot as (b & Hb & _). by eapply lookup_lt_Some. }
  destruct (fuel_enough h Hord (length h) 0%nat Hlen) as [[s Hs] Hout]; [lia |].
  destruct (Hout 0%nat) as [out Hprint].
  destruct (reparse_root h (length h) out s Hwf Hshape Hord Hroot Hpr Hprint Hs)
    as (h2 & stack2 & Hrun2 & Hs2).
  by exists out, h2, stack2, s.
Qed.

(** ** Comment extraction *)

(** C1, as the code has it: the comment starts at the first hash of the
    line, inside quotes or not.  The line [alpha "b;c#d" gamma;] is cut
    inside its quoted argument: the directive [alpha] gets the one argument
    that is left of the hash, and the rest of the line is its comment. *)
Theorem C1_hash_in_quotes_starts_the_comment :
  extractComment line_alpha =
    ([runes "d" ++ [r_dquote] ++ runes " gamma;"], runes "alpha " ++ [r_dquote] ++ runes "b;c") ∧
  parseLines [line_alpha] =
    Done ([mkBlock (runes "root") []
             [mkLine (runes "alpha") [[r_dquote] ++ runes "b;c"]
                     [runes "d" ++ [r_dquote] ++ runes " gamma;"] LineTypeDirective]
             [] [] None],
          [0%nat]) ∧
  ∀ pre post, IndexRune pre r_hash = None →
    extractComment (pre ++ r_hash :: post) = ([TrimSpace post], TrimSpace pre).
Proof.
  split; [by vm_compute |]. split; [by vm_compute |]. apply extractComment_first.
Qed.

Lemma C1_hash_in_quotes_witness :
  extractComment (runes "a " ++ [r_dquote] ++ r_hash :: [r_dquote] ++ runes ";") =
  ([[r_dquote] ++ runes ";"], runes "a " ++ [r_dquote]).
Proof.
  apply (proj2 (proj2 C1_hash_in_quotes_starts_the_comment)
           (runes "a " ++ [r_dquote]) ([r_dquote] ++ runes ";")).
  reflexivity.
Defined.

(** ** Block parameters *)

(** C2, as the code has it: the brace is taken off the last word only when
    the fragment has more than one word.  The one-word fragment [server{]
    opens a block whose name is [server{], brace and all; with two words or
    more the last word loses its brace, or goes if it was the brace. *)
Theorem C2_one_word_block_keeps_its_brace :
  parseLines [runes "server{"] =
    Done ([mkBlock (runes "root") [] [mkLine (runes "server{") [] [] LineTypeBlock]
             [1%nat] [] None;
           mkBlock (runes "server{") [] [] [] [] (Some 0%nat)],
          [0%nat; 1%nat]) ∧
  ∀ name params w,
    blockParamsOf (name :: params ++ [w ++ [r_lbrace]]) =
    Done (params ++ match w with [] => [] | _ => [w] end).
Proof. split; [by vm_compute | apply blockParamsOf_last_word]. Qed.

(** ** Closing lines *)

Lemma root_at_0_init : root_at_0 [rootBlock].
Proof. by exists rootBlock. Qed.

(** C3: a line that is a closing brace once its comment is off pops the
    stack when a block other than the root is open, and does nothing else;
    the root block stays at the bottom of the stack whatever the lines, and
    the single line [}] leaves the root block without lines or children. *)
Theorem C3_stray_close_is_ignored :
  parseLines [runes "}"] = Done ([rootBlock], [0%nat]) ∧
  (∀ line cur (h : heap) stack,
     (extractComment line).2 = [r_rbrace] →
     parseLine line cur (h, stack) =
     Done (h, if (1 <? length stack)%nat then take (length stack - 1) stack else stack)) ∧
  (∀ lines, ∃ h rest, parseLines lines = Done (h, 0%nat :: rest) ∧ root_at_0 h).
Proof.
  split; [by vm_compute |]. split; [apply parseLine_close |].
  apply parseLines_invariant; [apply root_at_0_init |].
  intros h cur b line. apply root_at_0_grow.
Qed.

Lemma C3_stray_close_witness :
  parseLine (runes "} # end") 0%nat ([rootBlock], [0%nat]) = Done ([rootBlock], [0%nat]).
Proof.
  apply (proj1 (proj2 C3_stray_close_is_ignored) (runes "} # end") 0%nat [rootBlock] [0%nat]).
  reflexivity.
Defined.

(** C4: whatever the lines, parsing ends with an arena in which, for every
    block, the lines of type [LineTypeBlock] and the child blocks go by
    pairs in order, each child with the name and the parameters of its
    line. *)
Theorem C4_block_lines_mirror_children lines :
  ∃ h stack, parseLines lines = Done (h, stack) ∧ tree_shape h.
Proof.
  destruct (parseLines_invariant tree_shape) with (lines := lines) as (h & rest & Hrun & Hs).
  - intros p b Hp. destruct p; [| done]. injection Hp as <-. constructor.
  - intros h cur b line. apply tree_shape_grow.
  - eauto.
Qed.

(** ** Two documents of the specification *)

(** Several directives on one line are so many lines of the same block. *)
Example multi_directive_line :
  parseLines [runes "a 1; b 2; c 3;"] =
    Done ([mkBlock (runes "root") []
             [mkLine (runes "a") [runes "1"] [] LineTypeDirective;
              mkLine (runes "b") [runes "2"] [] LineTypeDirective;
              mkLine (runes "c") [runes "3"] [] LineTypeDirective]
             [] [] None],
          [0%nat]).
Proof. by vm_compute. Qed.

(** Nested blocks, closed one after the other: the stack is back at the
    root block. *)
Example nested_blocks :
  parseLines [runes "http {"; runes "  server {"; runes "    listen 80;"; runes "  }"; runes "}"] =
    Done ([mkBlock (runes "root") [] [mkLine (runes "http") [] [] LineTypeBlock]
             [1%nat] [] None;
           mkBlock (runes "http") [] [mkLine (runes "server") [] [] LineTypeBlock]
             [2%nat] [] (Some 0%nat);
           mkBlock (runes "server") []
             [mkLine (runes "listen") [runes "80"] [] LineTypeDirective]
             [] [] (Some 1%nat)],
          [0%nat]).
Proof. by vm_compute. Qed.

(** ** The contract of the splitter *)

(** C5 fails as it is written: the two unquoted semicolons of [;;] give two
    empty fragments, which [splitDirectives] returns. *)
Lemma C5_empty_fragments_are_returned :
  splitDirectives (runes ";;") = [[]; []] ∧ splitDirectives (runes ";;") ≠ [].
Proof. split; [by vm_compute | by vm_compute]. Qed.

Lemma directivesLoop_blank f rest cur comments st :
  TrimSpace f = [] →
  directivesLoop (f :: rest) cur comments st = directivesLoop rest cur comments st.
Proof. intros H. apply directivesLoop_skip. unfold lineOf. by rewrite H. Qed.

(** C5, amended: every fragment that [splitDirectives] returns is trimmed
    and holds no unquoted semicolon, and an unquoted left brace is in the
    last fragment only, as its last rune; the empty fragments are returned
    all the same, and it is the loop of [parseLine] that passes over a
    fragment that is empty once trimmed, so that [;;] gives no line. *)
Theorem C5_splitter_contract :
  (∀ line, Forall fragment_ok (splitDirectives line) ∧ braces_ok (splitDirectives line)) ∧
  (∀ f rest cur comments st,
     TrimSpace f = [] →
     directivesLoop (f :: rest) cur comments st = directivesLoop rest cur comments st) ∧
  parseLines [runes ";;"] = Done ([rootBlock], [0%nat]).
Proof.
  split; [apply splitDirectives_fragments |].
  split; [apply directivesLoop_blank | by vm_compute].
Qed.

Lemma C5_splitter_contract_witness :
  directivesLoop [runes "  "; runes "a"] 0%nat [] ([rootBlock], [0%nat]) =
  directivesLoop [runes "a"] 0%nat [] ([rootBlock], [0%nat]).
Proof.
  apply (proj1 (proj2 C5_splitter_contract)). reflexivity.
Defined.

(** C6: where the line has a first unquoted left brace, at [i], the text
    before it is cut after its last unquoted semicolon; what is before the
    cut is split as a line of its own, what is after the cut, with the
    brace as its last rune, is the last fragment; and the fragments are the
    same whatever follows the brace on the line. *)
Theorem C6_splitting_stops_at_the_first_brace line i :
  firstUnquoted r_lbrace line q0 = Some i →
  (∃ before cur,
     take i line = before ++ cur ∧
     firstUnquoted r_semi cur (quoteScan before q0) = None ∧
     (before = [] ∨ ∃ b, before = b ++ [r_semi] ∧ (quoteScan b q0).1 = false) ∧
     splitDirectives line = splitDirectives before ++ [TrimSpace (cur ++ [r_lbrace])] ∧
     last (TrimSpace (cur ++ [r_lbrace])) = Some r_lbrace) ∧
  ∀ post, splitDirectives (take (S i) line ++ post) = splitDirectives line.
Proof.
  intros H. split.
  - destruct (splitLoop_brace line [] [] q0 i H) as (before & cur & Ht & Hs & Hb & Heq).
    exists before, cur. split_and!; [done | done | done | |].
    + unfold splitDirectives. change (splitLoop line [] [] false 0) with
        (splitLoop line [] [] q0.1 q0.2). rewrite Heq. by destruct before.
    + rewrite TrimSpace_snoc by reflexivity. by rewrite last_snoc.
  - intros post. by apply (splitLoop_discards line [] [] q0).
Qed.

Lemma C6_splitting_stops_witness :
  splitDirectives (take 13 (runes "a 1; server { listen 80; }") ++ runes " x; y {") =
  splitDirectives (runes "a 1; server { listen 80; }").
Proof.
  apply (proj2 (C6_splitting_stops_at_the_first_brace
                  (runes "a 1; server { listen 80; }") 12 eq_refl)).
Defined.

(** ** Comments *)

Lemma lineOf_comments d comments l : lineOf d comments = Some l → Line_Comments l = comments.
Proof.
  unfold lineOf. destruct (Fields (TrimSpace d)); [done |].
  destruct (HasSuffixRune (TrimSpace d) r_lbrace); by intros [= <-].
Qed.

Lemma linesOf_no_comments ds : Forall (λ l, Line_Comments l = []) (linesOf ds []).
Proof.
  induction ds as [|d ds IH]; simpl; [constructor |].
  destruct (lineOf d []) as [l|] eqn:E; [| done].
  constructor; [by eapply lineOf_comments | done].
Qed.

Lemma linesOf_first ds comments :
  match linesOf ds comments with
  | [] => True
  | l :: rest => Line_Comments l = comments ∧ Forall (λ l', Line_Comments l' = []) rest
  end.
Proof.
  induction ds as [|d ds IH]; simpl; [done |].
  destruct (lineOf d comments) as [l|] eqn:E; [| done].
  split; [by eapply lineOf_comments | apply linesOf_no_comments].
Qed.

Lemma producedLines_first line :
  match producedLines line with
  | [] => True
  | l :: rest =>
      Line_Comments l = (extractComment line).1 ∧ Forall (λ l', Line_Comments l' = []) rest
  end.
Proof.
  unfold producedLines. destruct (extractComment line) as [comments rest]. cbn [fst].
  destruct (gostring_eqb rest []).
  { destruct (0 <? length comments)%nat; [| done]. split; [done | constructor]. }
  destruct (gostring_eqb rest [r_rbrace]); [done |]. apply linesOf_first.
Qed.

(** C7: of the lines that a line of the file adds to the current block, the
    first has the comment taken from the line and the others have none; a
    block that the line opens has the comments of its own line of type
    [LineTypeBlock], so it has the comment only if that line is the first. *)
Theorem C7_comment_goes_to_the_first_line :
  (∀ line cur (h : heap) stack b,
     h !! cur = Some b →
     ∃ h' stack' b' news,
       parseLine line cur (h, stack) = Done (h', stack') ∧
       h' !! cur = Some b' ∧
       Block_Lines b' = Block_Lines b ++ news ∧
       drop (length h) h' = blockOfLine cur <$> blockLines news ∧
       match news with
       | [] => True
       | l :: rest =>
           Line_Comments l = (extractComment line).1 ∧
           Forall (λ l', Line_Comments l' = []) rest
       end) ∧
  parseLines [runes "foo bar; # note"] =
    Done ([mkBlock (runes "root") []
             [mkLine (runes "foo") [runes "bar"] [runes "note"] LineTypeDirective]
             [] [] None],
          [0%nat]) ∧
  parseLines [runes "a 1; server { # c"] =
    Done ([mkBlock (runes "root") []
             [mkLine (runes "a") [runes "1"] [runes "c"] LineTypeDirective;
              mkLine (runes "server") [] [] LineTypeBlock]
             [1%nat] [] None;
           mkBlock (runes "server") [] [] [] [] (Some 0%nat)],
          [0%nat; 1%nat]).
Proof.
  split; [| split; by vm_compute].
  intros line cur h stack b Hb.
  eexists _, _, _, (producedLines line).
  split; [by apply parseLine_effect |].
  split; [by apply grow_lookup_cur |].
  split; [done |]. split; [| apply producedLines_first].
  unfold grow. rewrite drop_app_length'; [done |]. by rewrite length_insert.
Qed.

Lemma C7_comment_witness :
  ∃ h' stack' b' news,
    parseLine (runes "a 1; b 2; # c") 0%nat ([rootBlock], [0%nat]) = Done (h', stack') ∧
    h' !! 0%nat = Some b' ∧
    Block_Lines b' = Block_Lines rootBlock ++ news ∧
    drop (length [rootBlock]) h' = blockOfLine 0%nat <$> blockLines news ∧
    match news with
    | [] => True
    | l :: rest =>
        Line_Comments l = (extractComment (runes "a 1; b 2; # c")).1 ∧
        Forall (λ l', Line_Comments l' = []) rest
    end.
Proof.
  apply (proj1 C7_comment_goes_to_the_first_line (runes "a 1; b 2; # c") 0%nat
           [rootBlock] [0%nat] rootBlock).
  reflexivity.
Defined.

(** ** Errors *)

Lemma scanTokens_err segs :
  (scanTokens segs).2 = if existsb tooLong segs then Some ErrTooLong else None.
Proof.
  induction segs as [|seg rest IH]; [done |].
  cbn [existsb]. destruct rest as [|seg' rest].
  - cbn [scanTokens existsb]. rewrite orb_false_r.
    destruct (tooLong seg); [done |]. by destruct (bool_decide (seg = [])).
  - change (scanTokens (seg :: seg' :: rest)) with
      (if tooLong seg then ([], Some ErrTooLong)
       else (dropCR seg :: (scanTokens (seg' :: rest)).1, (scanTokens (seg' :: rest)).2)).
    destruct (tooLong seg); [done |]. by rewrite IH.
Qed.

(** C8, counterexample: a file that opens and reads without a failure, with
    one line of 65536 bytes: [ParseConfig] returns the error
    [bufio.ErrTooLong] of its scanner and no configuration. *)
Lemma C8_long_line_is_an_error :
  readErr long_line_file = None ∧
  ParseConfig (λ _, inl long_line_file) (runes "nginx.conf") = Done (inr ErrTooLong).
Proof. split; [done | by vm_compute]. Qed.

(** C8, as the code has it: [ParseConfig] never panics, and it returns an
    error in three cases only: the error of [os.Open] when the file cannot
    be opened; [bufio.ErrTooLong] when a line of the file has 65536 bytes or
    more, readable as the file is; and the error of the read that failed.
    In every other case it returns a configuration, whatever the lines
    are. *)
Theorem C8_ParseConfig_fails_on_io_or_long_line os_Open filePath :
  match os_Open filePath with
  | inr err => ParseConfig os_Open filePath = Done (inr err)
  | inl file =>
      if hasLongLine (content file) then
        ParseConfig os_Open filePath = Done (inr ErrTooLong)
      else
        match readErr file with
        | Some err => ParseConfig os_Open filePath = Done (inr err)
        | None =>
            ∃ h stack,
              parseLines (scanned file) = Done (h, stack) ∧
              ParseConfig os_Open filePath = Done (inl (h, mkConfig 0%nat filePath))
        end
  end.
Proof.
  unfold ParseConfig. destruct (os_Open filePath) as [file | err]; [| done].
  destruct (parseLines_invariant (λ _, True) I (λ _ _ _ _ _ _, I) (scanned file))
    as (h & rest & Hrun & _).
  rewrite Hrun. cbn [mbind result_bind]. unfold scanErr, hasLongLine.
  rewrite scanTokens_err. destruct (existsb tooLong (splitNewline (content file))); [done |].
  destruct (readErr file); [done |]. by exists h, (0%nat :: rest).
Qed.

(** ** Closing braces with company *)

(** C10: a line that is not a bare closing brace once its comment is off
    never pops the stack: it leaves it as it is, or pushes on it.  So [};]
    is a directive named [}], and [} name {] opens a block named [}]. *)
Theorem C10_only_a_bare_brace_closes :
  (∀ line cur (h : heap) stack b,
     (extractComment line).2 ≠ [r_rbrace] → h !! cur = Some b →
     ∃ h' pushed, parseLine line cur (h, stack) = Done (h', stack ++ pushed)) ∧
  parseLines [runes "};"] =
    Done ([mkBlock (runes "root") [] [mkLine (runes "}") [] [] LineTypeDirective]
             [] [] None],
          [0%nat]) ∧
  parseLines [runes "} name {"] =
    Done ([mkBlock (runes "root") []
             [mkLine (runes "}") [runes "name"] [] LineTypeBlock] [1%nat] [] None;
           mkBlock (runes "}") [runes "name"] [] [] [] (Some 0%nat)],
          [0%nat; 1%nat]).
Proof.
  split; [| split; by vm_compute].
  intros line cur h stack b Hne Hb.
  rewrite (parseLine_effect _ _ _ _ b) by done.
  unfold closes, gostring_eqb. rewrite bool_decide_eq_false_2 by done. eauto.
Qed.

Lemma C10_only_a_bare_brace_witness :
  ∃ h' pushed,
    parseLine (runes "} }") 0%nat ([rootBlock; rootBlock], [0%nat; 1%nat]) =
    Done (h', [0%nat; 1%nat] ++ pushed).
Proof.
  apply (proj1 C10_only_a_bare_brace_closes (runes "} }") 0%nat
           [rootBlock; rootBlock] [0%nat; 1%nat] rootBlock).
  - by vm_compute.
  - reflexivity.
Defined.

(** ** The round trip through the printer *)


(** Two more documents that do not come back: a directive with a quote left
    open takes the semicolon that is printed after it into its last
    argument, and a block named as the root block is printed without its
    braces. *)
Lemma round_trip_open_quote :
  roundTripShapes doc_open_quote =
    Done (Some (ShapeNode (runes "root") []
                  [(LineTypeDirective, runes "a", [[r_dquote] ++ runes "b"])] []),
          Some (ShapeNode (runes "root") []
                  [(LineTypeDirective, runes "a", [[r_dquote] ++ runes "b;"])] [])).
Proof. by vm_compute. Qed.

Lemma round_trip_block_named_root :
  roundTripShapes doc_block_named_root =
    Done (Some (ShapeNode (runes "root") [] [(LineTypeBlock, runes "root", [])]
                  [ShapeNode (runes "root") [] [(LineTypeDirective, runes "x", [runes "1"])] []]),
          Some (ShapeNode (runes "root") [] [(LineTypeDirective, runes "x", [runes "1"])] [])).
Proof. by vm_compute. Qed.



(** * Further properties *)

(** ** The splitter *)

Lemma piece_of_TrimSpace s : piece_of (TrimSpace s) s.
Proof.
  destruct (TrimSpace_split s) as (ws1 & ws2 & Hs & _). by exists ws1, ws2.
Qed.

Lemma splitLoop_pieces line current (q : qstate) :
  Forall (λ f, piece_of f (current ++ line)) (splitLoop line [] current q.1 q.2).
Proof.
  revert current q. induction line as [|c rest IH]; intros current q.
  - rewrite splitLoop_nil, app_nil_r. destruct (0 <? length current)%nat; [| constructor].
    constructor; [apply piece_of_TrimSpace | constructor].
  - rewrite splitLoop_cons.
    destruct ((c =? r_semi) && negb q.1).
    { rewrite splitLoop_results. constructor.
      - destruct (piece_of_TrimSpace current) as (a & b & Hc).
        exists a, (b ++ c :: rest). rewrite Hc at 1. by rewrite <- !app_assoc.
      - eapply Forall_impl; [apply (IH [] q) |]. simpl. intros f (a & b & Hf).
        exists (current ++ c :: a), b. rewrite Hf. by rewrite <- app_assoc. }
    destruct ((c =? r_lbrace) && negb q.1).
    { constructor; [| constructor].
      destruct (piece_of_TrimSpace (current ++ [c])) as (a & b & Hc).
      exists a, (b ++ rest).
      replace (current ++ c :: rest) with ((current ++ [c]) ++ rest)
        by (by rewrite <- app_assoc).
      rewrite Hc at 1. by rewrite <- !app_assoc. }
    eapply Forall_impl; [apply (IH (current ++ [c]) (quoteStep q c)) |].
    simpl. intros f Hf. by rewrite <- app_assoc in Hf.
Qed.

Lemma splitDirectives_pieces line : Forall (λ f, piece_of f line) (splitDirectives line).
Proof. apply (splitLoop_pieces line [] q0). Qed.

Lemma splitDirectives_plain line :
  firstUnquoted r_semi line q0 = None → firstUnquoted r_lbrace line q0 = None →
  splitDirectives line = match line with [] => [] | _ => [TrimSpace line] end.
Proof.
  intros Hs Hb. unfold splitDirectives.
  change (splitLoop line [] [] false 0) with (splitLoop line [] [] q0.1 q0.2).
  rewrite <- (app_nil_r line) at 1. rewrite splitLoop_plain by done.
  rewrite splitLoop_nil. by destruct line.
Qed.

(** *** On the bytes of the line *)

Lemma encodes_app a b : encodes (a ++ b) = encodes a ++ encodes b.
Proof. unfold encodes. by rewrite fmap_app, concat_app. Qed.

Lemma decodeRunes_cons c s : decodeRunes (c :: s) ≠ [].
Proof.
  unfold decodeRunes. cbn [length rangeLoop]. by destruct (DecodeRune (c :: s)).
Qed.

Lemma splitDirectivesBytes_pieces line :
  Forall (λ f, piece_of f (encodes (decodeRunes line))) (splitDirectivesBytes line).
Proof.
  unfold splitDirectivesBytes. apply Forall_fmap.
  eapply Forall_impl; [apply splitDirectives_pieces |].
  intros f (a & b & Hf). exists (encodes a), (encodes b). cbn.
  by rewrite Hf, !encodes_app.
Qed.

(** A byte that is not valid UTF-8 is read as U+FFFD and comes back in
    three bytes, which are nowhere in the line. *)
Example invalid_byte_is_rewritten :
  splitDirectivesBytes [97; 255] = [[97; 239; 191; 189]] ∧
  ¬ piece_of [97; 239; 191; 189] [97; 255].
Proof.
  split; [by vm_compute |]. intros (a & b & H).
  apply (f_equal length) in H. rewrite !length_app in H. cbn in H. lia.
Qed.

(** X1: on a line that is valid UTF-8 the splitter invents nothing and
    moves nothing: every fragment it returns is a contiguous piece of the
    bytes of the line. *)
Theorem X1_fragments_are_pieces_of_the_line (line : bytestring) :
  ValidString line →
  Forall (λ f, piece_of f line) (splitDirectivesBytes line).
Proof.
  intros Hv. pose proof (splitDirectivesBytes_pieces line) as H. by rewrite Hv in H.
Qed.

Lemma X1_fragments_are_pieces_witness :
  Forall (λ f, piece_of f [97; 32; 195; 169; 59; 32; 226; 130; 172; 32; 123; 32; 98])
    (splitDirectivesBytes [97; 32; 195; 169; 59; 32; 226; 130; 172; 32; 123; 32; 98]).
Proof.
  apply (X1_fragments_are_pieces_of_the_line
           [97; 32; 195; 169; 59; 32; 226; 130; 172; 32; 123; 32; 98]).
  reflexivity.
Defined.

(** X2: a line that is valid UTF-8 and holds no unquoted semicolon and no
    unquoted left brace is one fragment, whatever it holds inside quotes:
    the line without the white space at its two ends.  The empty line has
    no fragment. *)
Theorem X2_no_unquoted_mark_one_fragment (line : bytestring) :
  ValidString line →
  firstUnquoted r_semi (decodeRunes line) q0 = None →
  firstUnquoted r_lbrace (decodeRunes line) q0 = None →
  splitDirectivesBytes line =
    match line with
    | [] => []
    | _ => [encodes (TrimSpace (decodeRunes line))]
    end ∧
  ∃ ws1 ws2,
    blank ws1 ∧ blank ws2 ∧
    line = encodes ws1 ++ encodes (TrimSpace (decodeRunes line)) ++ encodes ws2.
Proof.
  intros Hv Hs Hb. split.
  - unfold splitDirectivesBytes. rewrite splitDirectives_plain by done.
    destruct line as [|c s]; [done |].
    pose proof (decodeRunes_cons c s). by destruct (decodeRunes (c :: s)).
  - destruct (TrimSpace_split (decodeRunes line)) as (ws1 & ws2 & Hsplit & H1 & H2).
    exists ws1, ws2. split; [done |]. split; [done |].
    rewrite <- !encodes_app, <- Hsplit. by rewrite Hv.
Qed.

Lemma X2_no_unquoted_mark_witness :
  splitDirectivesBytes
    (encodes (160 :: runes "set $x " ++ quoted (runes "a;b{c") ++ [233; 32])) =
    [encodes (TrimSpace (decodeRunes
       (encodes (160 :: runes "set $x " ++ quoted (runes "a;b{c") ++ [233; 32]))))] ∧
  ∃ ws1 ws2,
    blank ws1 ∧ blank ws2 ∧
    encodes (160 :: runes "set $x " ++ quoted (runes "a;b{c") ++ [233; 32]) =
    encodes ws1 ++
    encodes (TrimSpace (decodeRunes
       (encodes (160 :: runes "set $x " ++ quoted (runes "a;b{c") ++ [233; 32])))) ++
    encodes ws2.
Proof.
  apply (X2_no_unquoted_mark_one_fragment
           (encodes (160 :: runes "set $x " ++ quoted (runes "a;b{c") ++ [233; 32])));
    reflexivity.
Defined.

(** ** One block for a line, at most *)

Lemma quoteScan_TrimSpace s : quoteScan (TrimSpace s) q0 = quoteScan s q0.
Proof.
  destruct (TrimSpace_split s) as (ws1 & ws2 & Hs & H1 & H2).
  rewrite Hs at 2. rewrite !quoteScan_app, (quoteScan_blank ws1) by done.
  by rewrite (quoteScan_blank ws2).
Qed.

(** A text with its quotes closed and no unquoted left brace does not end
    in a left brace. *)
Lemma closed_no_brace_at_end s :
  firstUnquoted r_lbrace s q0 = None → (quoteScan s q0).1 = false →
  HasSuffixRune (TrimSpace s) r_lbrace = false.
Proof.
  intros Hb Hq. apply (firstUnquoted_TrimSpace_None r_lbrace s eq_refl) in Hb.
  rewrite <- quoteScan_TrimSpace in Hq.
  unfold HasSuffixRune. destruct (last (TrimSpace s)) as [c|] eqn:El; [| done].
  apply Z.eqb_neq. intros ->. rewrite last_Some in El. destruct El as (t & Ht).
  rewrite Ht in Hb, Hq. rewrite firstUnquoted_app in Hb.
  destruct (firstUnquoted r_lbrace t q0); [done |].
  rewrite quoteScan_app in Hq.
  change (quoteScan [r_lbrace] (quoteScan t q0))
    with (quoteStep (quoteScan t q0) r_lbrace) in Hq.
  rewrite quoteStep_other in Hq by done.
  simpl in Hb. rewrite Hq in Hb. done.
Qed.

Lemma only_last_opens_cons f frs :
  HasSuffixRune (TrimSpace f) r_lbrace = false → only_last_opens frs →
  only_last_opens (f :: frs).
Proof. intros Hf Hfrs. by destruct frs. Qed.

Lemma splitLoop_only_last line current (q : qstate) :
  brace_free current → quoteScan current q0 = q →
  only_last_opens (splitLoop line [] current q.1 q.2).
Proof.
  revert current q. induction line as [|c rest IH]; intros current q Hbrace Hq.
  - rewrite splitLoop_nil. by destruct (0 <? length current)%nat.
  - rewrite splitLoop_cons.
    destruct ((c =? r_semi) && negb q.1) eqn:E1.
    { apply andb_true_iff in E1 as [_ Hq1]. apply negb_true_iff in Hq1.
      rewrite splitLoop_results. apply only_last_opens_cons.
      - rewrite TrimSpace_idemp. apply closed_no_brace_at_end; [done |]. by rewrite Hq.
      - assert (q = q0) as -> by (subst q; by apply quoteScan_q0).
        by apply (IH [] q0). }
    destruct ((c =? r_lbrace) && negb q.1) eqn:E2; [done |].
    apply IH.
    + apply firstUnquoted_snoc_None; [done |]. by rewrite Hq.
    + by rewrite quoteScan_app, Hq.
Qed.

Lemma lineOf_type f cs l :
  lineOf f cs = Some l →
  HasSuffixRune (TrimSpace f) r_lbrace = false → Line_Type l ≠ LineTypeBlock.
Proof.
  unfold lineOf. destruct (Fields (TrimSpace f)); [done |]. intros H Hs.
  rewrite Hs in H. injection H as <-. simpl. by case_match.
Qed.

Lemma block_line_last_cons l ls :
  Line_Type l ≠ LineTypeBlock → block_line_last ls → block_line_last (l :: ls).
Proof.
  intros Hl [H | (ls' & l' & -> & H1 & H2)].
  - left. by constructor.
  - right. exists (l :: ls'), l'. split; [done |]. split; [by constructor | done].
Qed.

Lemma linesOf_block_last frs cs : only_last_opens frs → block_line_last (linesOf frs cs).
Proof.
  revert cs. induction frs as [|f frs IH]; intros cs H; [by left |].
  cbn [linesOf]. destruct frs as [|f' frs].
  - destruct (lineOf f cs) as [l|]; [| by left]. cbn [linesOf].
    destruct (decide (Line_Type l = LineTypeBlock)).
    + right. exists [], l. by repeat split.
    + left. by repeat constructor.
  - destruct H as [Hf H]. destruct (lineOf f cs) as [l|] eqn:El; [| by apply IH].
    apply block_line_last_cons; [by eapply lineOf_type | by apply IH].
Qed.

Lemma producedLines_block_last line : block_line_last (producedLines line).
Proof.
  unfold producedLines. destruct (extractComment line) as [comments rest].
  destruct (gostring_eqb rest []).
  { left. destruct (0 <? length comments)%nat; by repeat constructor. }
  destruct (gostring_eqb rest [r_rbrace]); [by left |].
  apply linesOf_block_last. by apply (splitLoop_only_last rest [] q0).
Qed.

Lemma newBlocks_nonblock cur ls :
  Forall (λ l, Line_Type l ≠ LineTypeBlock) ls → newBlocks cur ls = [].
Proof.
  induction 1 as [|l ls Hl _ IH]; [done |]. by rewrite newBlocks_cons_line.
Qed.

Lemma newBlocks_block_last cur ls l :
  Forall (λ l', Line_Type l' ≠ LineTypeBlock) ls → Line_Type l = LineTypeBlock →
  newBlocks cur (ls ++ [l]) = [blockOfLine cur l].
Proof.
  induction 1 as [|l0 ls Hl0 _ IH]; intros Hl.
  - cbn [app]. by rewrite newBlocks_cons_block.
  - cbn [app]. rewrite newBlocks_cons_line by done. by apply IH.
Qed.

Lemma producedLines_closes line : closes line = true → producedLines line = [].
Proof.
  unfold closes, producedLines. destruct (extractComment line) as [comments rest].
  cbn [snd]. intros H. apply bool_decide_eq_true in H. by subst.
Qed.

(** X3: one line of the file opens one block at most, and the line of type
    [LineTypeBlock] that goes with it is the last line that the current
    block gets: either the arena keeps its size, and the stack is kept or
    popped, or one block is allocated, pushed, and made the last child of
    the current block. *)
Theorem X3_a_line_opens_one_block_at_most line cur (h : heap) stack b :
  h !! cur = Some b →
  ∃ h' stack',
    parseLine line cur (h, stack) = Done (h', stack') ∧
    ((length h' = length h ∧
      (stack' = stack ∨ stack' = take (length stack - 1) stack)) ∨
     (∃ l b',
        h' = <[cur := b']> h ++ [blockOfLine cur l] ∧
        stack' = stack ++ [length h] ∧
        last (Block_Lines b') = Some l ∧ Line_Type l = LineTypeBlock ∧
        last (Block_Blocks b') = Some (length h))).
Proof.
  intros Hb. eexists _, _. split; [by apply parseLine_effect |].
  destruct (producedLines_block_last line) as [Hno | (ls & l & Hls & Hno & Hl)].
  - left. rewrite length_grow, newBlocks_nonblock by done. split; [simpl; lia |].
    destruct (closes line); [| left; simpl; by rewrite app_nil_r].
    destruct (1 <? length stack)%nat; [by right | by left].
  - right. destruct (closes line) eqn:Hc.
    { apply producedLines_closes in Hc. rewrite Hc in Hls. by destruct ls. }
    unfold grow. rewrite Hls, newBlocks_block_last by done.
    eexists l, _. split; [done |]. split; [done |]. cbn.
    split; [by rewrite app_assoc, last_snoc |]. split; [done |]. by rewrite last_snoc.
Qed.

Lemma X3_a_line_opens_witness :
  ∃ h' stack',
    parseLine (runes "a 1; b { c 2; d {") 0%nat ([rootBlock], [0%nat]) = Done (h', stack') ∧
    ((length h' = length [rootBlock] ∧
      (stack' = [0%nat] ∨ stack' = take (length [0%nat] - 1) [0%nat])) ∨
     (∃ l b',
        h' = <[0%nat := b']> [rootBlock] ++ [blockOfLine 0%nat l] ∧
        stack' = [0%nat] ++ [length [rootBlock]] ∧
        last (Block_Lines b') = Some l ∧ Line_Type l = LineTypeBlock ∧
        last (Block_Blocks b') = Some (length [rootBlock]))).
Proof.
  apply (X3_a_line_opens_one_block_at_most (runes "a 1; b { c 2; d {") 0%nat
           [rootBlock] [0%nat] rootBlock).
  reflexivity.
Defined.

(** ** The tree of blocks *)

Lemma family_init : family [rootBlock].
Proof.
  split_and!.
  - intros p b c Hp Hc. destruct p; [| done]. injection Hp as <-.
    by apply elem_of_nil in Hc.
  - intros c cb q Hc Hq. destruct c; [| done]. by injection Hc as <-.
  - intros p b Hp. destruct p; [| done]. injection Hp as <-. constructor.
  - intros c cb Hc. destruct c; [| done]. by injection Hc as <-.
Qed.

Lemma grow_keeps_parent (h : heap) cur b news c cb :
  h !! cur = Some b → h !! c = Some cb →
  ∃ cb', grow h cur b news !! c = Some cb' ∧ Block_ParentRef cb' = Block_ParentRef cb.
Proof.
  intros Hb Hc. destruct (decide (c = cur)) as [-> | Hne].
  - rewrite grow_lookup_cur by done. eexists. split; [done |].
    rewrite Hb in Hc. by injection Hc as ->.
  - exists cb. rewrite grow_lookup_old; [done | done | by eapply lookup_lt_Some].
Qed.

Lemma newBlocks_lookup cur news i nb :
  newBlocks cur news !! i = Some nb →
  Block_ParentRef nb = Some cur ∧ Block_Blocks nb = [] ∧ Block_Lines nb = [].
Proof.
  unfold newBlocks. rewrite list_lookup_fmap.
  destruct (blockLines news !! i); [| done]. by intros [= <-].
Qed.

Lemma family_grow (h : heap) cur b line :
  family h → h !! cur = Some b → family (grow h cur b (producedLines line)).
Proof.
  set (news := producedLines line). clearbody news.
  intros (Hchild & Hparent & Hnodup & Hroot) Hb.
  assert (cur < length h)%nat as Hlt by (by eapply lookup_lt_Some).
  set (k := length (newBlocks cur news)).
  split_and!.
  - intros p bp c Hp Hc.
    destruct (grow_lookup_inv _ _ _ _ _ _ Hb Hp) as [[-> ->] | [[Hne Hold] | (i & -> & Hnew)]].
    + cbn in Hc. apply elem_of_app in Hc as [Hc | Hc].
      * destruct (Hchild cur b c Hb Hc) as (cb & Hcb & Hpar).
        destruct (grow_keeps_parent h cur b news c cb Hb Hcb) as (cb' & H1 & H2).
        exists cb'. split; [done |]. by rewrite H2.
      * apply elem_of_seq in Hc as [Hc1 Hc2].
        destruct (lookup_lt_is_Some_2 (newBlocks cur news) (c - length h)) as [nb Hnb];
          [fold k; lia |].
        exists nb. replace c with (length h + (c - length h))%nat at 1 by lia.
        rewrite grow_lookup_new. split; [done |]. by apply newBlocks_lookup in Hnb as [? _].
    + destruct (Hchild p bp c Hold Hc) as (cb & Hcb & Hpar).
      destruct (grow_keeps_parent h cur b news c cb Hb Hcb) as (cb' & H1 & H2).
      exists cb'. split; [done |]. by rewrite H2.
    + apply newBlocks_lookup in Hnew as (_ & Hnil & _). rewrite Hnil in Hc.
      by apply elem_of_nil in Hc.
  - intros c cb q Hc Hq.
    destruct (grow_lookup_inv _ _ _ _ _ _ Hb Hc) as [[-> ->] | [[Hne Hold] | (i & -> & Hnew)]].
    + cbn in Hq. destruct (Hparent cur b q Hb Hq) as (Hlt' & bq & Hbq & Hin).
      split; [done |]. destruct (decide (q = cur)) as [-> | Hne]; [lia |].
      exists bq. rewrite grow_lookup_old; [done | done | by eapply lookup_lt_Some].
    + destruct (Hparent c cb q Hold Hq) as (Hlt' & bq & Hbq & Hin).
      split; [done |]. destruct (decide (q = cur)) as [-> | Hne'].
      * rewrite Hb in Hbq. injection Hbq as <-. eexists.
        rewrite grow_lookup_cur by done. split; [done |]. cbn.
        apply elem_of_app. by left.
      * exists bq. rewrite grow_lookup_old; [done | done | by eapply lookup_lt_Some].
    + pose proof (lookup_lt_Some _ _ _ Hnew) as Hi.
      apply newBlocks_lookup in Hnew as (Hpar & _). rewrite Hpar in Hq. injection Hq as <-.
      split; [lia |]. eexists. rewrite grow_lookup_cur by done. split; [done |]. cbn.
      apply elem_of_app. right. apply elem_of_seq. fold k. lia.
  - intros p bp Hp.
    destruct (grow_lookup_inv _ _ _ _ _ _ Hb Hp) as [[-> ->] | [[Hne Hold] | (i & -> & Hnew)]].
    + cbn. apply NoDup_app. split_and!; [by apply (Hnodup cur b) | | apply NoDup_seq].
      intros c Hc Hc'. apply elem_of_seq in Hc' as [Hc1 _].
      destruct (Hchild cur b c Hb Hc) as (cb & Hcb & _).
      apply lookup_lt_Some in Hcb. lia.
    + by apply (Hnodup p bp).
    + apply newBlocks_lookup in Hnew as (_ & -> & _). constructor.
  - intros c cb Hc.
    destruct (grow_lookup_inv _ _ _ _ _ _ Hb Hc) as [[-> ->] | [[Hne Hold] | (i & -> & Hnew)]].
    + cbn. by apply Hroot.
    + by apply Hroot.
    + apply newBlocks_lookup in Hnew as (Hpar & _). rewrite Hpar.
      split; [done | lia].
Qed.

Lemma ancestors_reach_root (h : heap) :
  family h → ∀ fuel p, (p ≤ fuel)%nat → (p < length h)%nat →
  last (p :: ancestors fuel h p) = Some 0%nat.
Proof.
  intros (_ & Hparent & _ & Hroot). induction fuel as [|fuel IH]; intros p Hp Hlt.
  - by replace p with 0%nat by lia.
  - destruct (lookup_lt_is_Some_2 h p Hlt) as [b Hb]. cbn [ancestors]. rewrite Hb.
    destruct (Block_ParentRef b) as [q|] eqn:Hq.
    + destruct (Hparent p b q Hb Hq) as (Hqp & _).
      rewrite last_cons_cons. apply IH; lia.
    + apply (Hroot p b Hb) in Hq. by subst.
Qed.

(** X4: in every parsed document the blocks are a tree.  The children of a
    block are exactly the blocks whose [ParentRef] is that block, no block
    is listed twice, a parent has a smaller address than its children, the
    root block alone has no parent, and following [ParentRef] from any
    block ends at the root block. *)
Theorem X4_blocks_are_a_tree lines :
  ∃ h stack,
    parseLines lines = Done (h, stack) ∧ family h ∧
    ∀ p, (p < length h)%nat → last (p :: ancestors p h p) = Some 0%nat.
Proof.
  destruct (parseLines_invariant family family_init family_grow lines)
    as (h & rest & Hrun & Hfam).
  exists h, (0%nat :: rest). split; [done |]. split; [done |].
  intros p Hp. by apply ancestors_reach_root.
Qed.

(** ** The stack is the path to the current block *)

Lemma scanLoop_state_invariant (Q : pstate → Prop) :
  (∀ line cur (st st' : pstate),
     Q st → stateOK st cur → parseLine line cur st = Done st' → Q st') →
  ∀ lines cur (st : pstate),
    Q st → stateOK st cur →
    ∃ st' cur', scanLoop lines cur st = Done st' ∧ Q st' ∧ stateOK st' cur'.
Proof.
  intros Hstep. induction lines as [|text lines IH]; intros cur [h stack] HQ Hok.
  - exists (h, stack), cur. done.
  - cbn [scanLoop]. destruct (gostring_eqb (TrimSpace text) []).
    { by apply IH. }
    assert (is_Some (h !! cur)) as [b Hb].
    { destruct Hok as (_ & Hlast & Hall). cbn [fst snd] in *.
      apply lookup_lt_is_Some. rewrite Forall_forall in Hall. apply Hall.
      rewrite last_Some in Hlast. destruct Hlast as (l' & ->).
      apply elem_of_app. right. by apply list_elem_of_singleton. }
    destruct (stateOK_parseLine (TrimSpace text) cur h stack b Hb Hok)
      as (stack' & cur' & Hrun & Hok' & Hne & Hlast').
    pose proof (Hstep _ _ _ _ HQ Hok Hrun) as HQ'.
    rewrite Hrun. cbn [mbind result_bind snd].
    assert ((0 <? length stack')%nat = true) as ->.
    { apply Nat.ltb_lt. destruct stack'; [done | simpl; lia]. }
    rewrite (index_last _ cur') by done.
    cbn [result_bind]. by apply IH.
Qed.

Lemma chain_parseLine line cur (st st' : pstate) :
  chain st → stateOK st cur → parseLine line cur st = Done st' → chain st'.
Proof.
  destruct st as [h stack]. intros Hchain (_ & Hlast & Hall) Hrun. cbn [fst snd] in *.
  assert (is_Some (h !! cur)) as [b Hb].
  { apply lookup_lt_is_Some. rewrite Forall_forall in Hall. apply Hall.
    rewrite last_Some in Hlast. destruct Hlast as (l' & ->).
    apply elem_of_app. right. by apply list_elem_of_singleton. }
  assert (∀ i a c, stack !! i = Some a → stack !! S i = Some c →
            ∃ cb, grow h cur b (producedLines line) !! c = Some cb ∧
                  Block_ParentRef cb = Some a) as Hold.
  { intros i a c Ha Hc. destruct (Hchain i a c Ha Hc) as (cb & Hcb & Hpar).
    destruct (grow_keeps_parent h cur b (producedLines line) c cb Hb Hcb)
      as (cb' & H1 & H2).
    exists cb'. split; [done |]. by rewrite H2. }
  rewrite (parseLine_effect _ _ _ _ b) in Hrun by done. injection Hrun as <-.
  intros i a c Ha Hc. cbn [fst snd] in *.
  destruct (closes line) eqn:Hcl.
  { destruct (1 <? length stack)%nat; [| by eapply Hold].
    apply lookup_take_Some in Ha as [Ha _]. apply lookup_take_Some in Hc as [Hc _].
    by eapply Hold. }
  destruct (producedLines_block_last line) as [Hno | (ls & l & Hls & Hno & Hl)].
  - rewrite newBlocks_nonblock in Hc, Ha by done. simpl in Ha, Hc.
    rewrite app_nil_r in Ha, Hc. by eapply Hold.
  - rewrite Hls, newBlocks_block_last in Ha, Hc by done. cbn [length seq] in Ha, Hc.
    destruct (decide (S i < length stack)%nat) as [Hi | Hi].
    + rewrite lookup_app_l in Ha, Hc by lia. by eapply Hold.
    + assert (i < length stack)%nat as Hi'.
      { apply lookup_lt_Some in Ha. rewrite length_app in Ha. simpl in Ha.
        apply lookup_lt_Some in Hc. rewrite length_app in Hc. simpl in Hc. lia. }
      assert (S i = length stack) as Hi'' by lia.
      rewrite lookup_app_l in Ha by lia.
      rewrite Hi'', lookup_app_r, Nat.sub_diag in Hc by lia. injection Hc as <-.
      assert (a = cur) as ->.
      { rewrite last_lookup in Hlast. replace (pred (length stack)) with i in Hlast by lia.
        congruence. }
      exists (blockOfLine cur l). split; [| done].
      rewrite <- (Nat.add_0_r (length h)), grow_lookup_new.
      by rewrite Hls, newBlocks_block_last.
Qed.

(** X5: whatever the lines, the stack that [ParseConfig] ends with is the
    path from the root block to the block that is current: the root block
    is at the bottom, and each block on the stack has the block below it as
    its [ParentRef]. *)
Theorem X5_stack_is_the_path_from_the_root lines :
  ∃ h rest, parseLines lines = Done (h, 0%nat :: rest) ∧ chain (h, 0%nat :: rest).
Proof.
  destruct (scanLoop_state_invariant chain chain_parseLine lines 0%nat
              ([rootBlock], [0%nat])) as ([h stack] & cur' & Hrun & Hchain & (rest & Hst) & _).
  - intros i a c Ha Hc. destruct i; done.
  - apply stateOK_init.
  - cbn [snd] in Hst. subst stack. by exists h, rest.
Qed.

(** ** What a parsed line is like *)

Lemma comments_ok_nil : comments_ok [].
Proof. split; [simpl; lia | constructor]. Qed.

Lemma extractComment_comments_ok line : comments_ok (extractComment line).1.
Proof.
  unfold extractComment. destruct (IndexRune line r_hash); [| apply comments_ok_nil].
  split; [simpl; lia |]. constructor; [apply TrimSpace_idemp | constructor].
Qed.

Lemma producedLines_comments_ok line :
  Forall (λ l, comments_ok (Line_Comments l)) (producedLines line).
Proof.
  pose proof (producedLines_first line) as H.
  destruct (producedLines line) as [|l rest]; [constructor |].
  destruct H as [H1 H2]. constructor.
  - rewrite H1. apply extractComment_comments_ok.
  - eapply Forall_impl; [done |]. simpl. intros l' ->. apply comments_ok_nil.
Qed.

Lemma tidy_init : tidy [rootBlock].
Proof.
  intros p b Hp. destruct p; [| done]. injection Hp as <-.
  split; [apply comments_ok_nil | constructor].
Qed.

Lemma tidy_grow (h : heap) cur b line :
  tidy h → h !! cur = Some b → tidy (grow h cur b (producedLines line)).
Proof.
  intros Ht Hb p bp Hp. pose proof (producedLines_comments_ok line) as Hnews.
  set (news := producedLines line) in *. clearbody news.
  destruct (grow_lookup_inv _ _ _ _ _ _ Hb Hp) as [[-> ->] | [[Hne Hold] | (i & -> & Hnew)]].
  - destruct (Ht cur b Hb) as [H1 H2]. cbn. split; [done |]. by apply Forall_app.
  - by apply (Ht p bp).
  - unfold newBlocks in Hnew. rewrite list_lookup_fmap in Hnew.
    destruct (blockLines news !! i) as [l|] eqn:El; [| done]. injection Hnew as <-.
    cbn. split; [| constructor].
    apply list_elem_of_lookup_2, list_elem_of_filter in El as [_ Hin].
    rewrite Forall_forall in Hnews. by apply Hnews.
Qed.

Lemma line_facts_of l : line_wf l → comments_ok (Line_Comments l) → line_facts l.
Proof.
  unfold line_wf, line_facts. intros Hwf Hc. split; [done |].
  destruct (Line_Type l) eqn:Hty.
  - destruct Hwf as (Hn & Hp & Hne). split_and!; [done | done |].
    destruct Hc as [Hle _]. destruct (Line_Comments l); [done | simpl in *; lia].
  - destruct Hwf as (Hw & Hh & _ & _ & _ & Hi). rewrite Hty in Hi.
    destruct (gostring_eqb (Line_Name l) (runes "include")) eqn:E; [| done].
    apply bool_decide_eq_true in E. apply Forall_cons in Hw as [_ Hw].
    split_and!; [done | done |]. intros Hin. apply Hh. simpl. apply elem_of_app. by right.
  - destruct Hwf as (Hw & Hh & _ & _ & _ & Hi). rewrite Hty in Hi.
    destruct (gostring_eqb (Line_Name l) (runes "include")) eqn:E; [done |].
    by apply bool_decide_eq_false in E.
  - by destruct Hwf as (Hw & Hh & _).
Qed.

(** X6: in every parsed document a line has one comment at most, trimmed;
    a comment line has no name, no parameter and one comment; the name and
    the parameters of any other line are not empty and hold no space and no
    hash; and a line that is not of type [LineTypeBlock] is of type
    [LineTypeInclude] exactly when its name is [include]. *)
Theorem X6_parsed_lines_are_well_formed lines :
  ∃ h stack,
    parseLines lines = Done (h, stack) ∧
    ∀ p b, h !! p = Some b →
      comments_ok (Block_Comments b) ∧ Forall line_facts (Block_Lines b).
Proof.
  destruct (parseLines_invariant (λ h, lines_wf h ∧ tidy h)) with (lines := lines)
    as (h & rest & Hrun & Hwf & Ht).
  - split; [apply lines_wf_init | apply tidy_init].
  - intros h cur b line [H1 H2] Hb. split; [by apply lines_wf_grow | by apply tidy_grow].
  - exists h, (0%nat :: rest). split; [done |]. intros p b Hb.
    destruct (Hwf p b Hb) as [Hl _]. destruct (Ht p b Hb) as [Hc Hlc].
    split; [done |]. rewrite Forall_forall in Hl, Hlc. apply Forall_forall.
    intros l Hin. apply line_facts_of; auto.
Qed.

(** ** Blank lines and indentation *)

Lemma scanLoop_trimmed lines cur (st : pstate) :
  scanLoop lines cur st = scanLoop (filter (λ l, l ≠ []) (TrimSpace <$> lines)) cur st.
Proof.
  revert cur st. induction lines as [|text lines IH]; intros cur st; [done |].
  cbn [fmap list_fmap]. destruct (decide (TrimSpace text = [])) as [E | E].
  - rewrite filter_cons_False by (by intros H). cbn [scanLoop]. rewrite E.
    change (gostring_eqb [] []) with true. cbn iota. apply IH.
  - rewrite filter_cons_True by done. cbn [scanLoop]. rewrite TrimSpace_idemp.
    unfold gostring_eqb. rewrite bool_decide_eq_false_2 by done.
    destruct (parseLine (TrimSpace text) cur st) as [st' | |]; [| done | done].
    cbn [mbind result_bind]. destruct (0 <? length st'.2)%nat; [| apply IH].
    destruct (index st'.2 (length st'.2 - 1)); [| done | done]. cbn [result_bind]. apply IH.
Qed.

(** X7: blank lines and the spaces around a line do not count: the lines
    of a file parse as the same lines trimmed, the empty ones left out. *)
Theorem X7_blank_lines_and_indentation_do_not_count lines :
  parseLines lines = parseLines (filter (λ l, l ≠ []) (TrimSpace <$> lines)).
Proof. apply scanLoop_trimmed. Qed.

(** ** Parsing only adds *)

Lemma extends_refl h : extends h h.
Proof. intros p b Hb. exists b. by repeat split. Qed.

Lemma extends_trans h1 h2 h3 : extends h1 h2 → extends h2 h3 → extends h1 h3.
Proof.
  intros H12 H23 p b Hb.
  destruct (H12 p b Hb) as (b2 & Hb2 & Hn & Hp & Hc & Hpar & Hl & Hk).
  destruct (H23 p b2 Hb2) as (b3 & Hb3 & Hn' & Hp' & Hc' & Hpar' & Hl' & Hk').
  exists b3. split; [done |]. split_and!; try congruence.
  - by etrans.
  - by etrans.
Qed.

Lemma extends_grow (h : heap) cur b news : h !! cur = Some b → extends h (grow h cur b news).
Proof.
  intros Hb p bp Hp. destruct (decide (p = cur)) as [-> | Hne].
  - rewrite Hb in Hp. injection Hp as <-. eexists. rewrite grow_lookup_cur by done.
    split; [done |]. cbn. split_and!; try done; by eexists.
  - exists bp. rewrite grow_lookup_old; [| done | by eapply lookup_lt_Some].
    by repeat split.
Qed.

(** The loop over two lists of lines is the loop over the second from where
    the loop over the first ends. *)
Lemma scanLoop_app l1 l2 cur (st : pstate) :
  stateOK st cur →
  ∃ st1 cur1,
    scanLoop l1 cur st = Done st1 ∧ stateOK st1 cur1 ∧ extends st.1 st1.1 ∧
    scanLoop (l1 ++ l2) cur st = scanLoop l2 cur1 st1.
Proof.
  revert cur st. induction l1 as [|text l1 IH]; intros cur [h stack] Hok.
  - exists (h, stack), cur. split_and!; [done | done | apply extends_refl | done].
  - cbn [scanLoop app]. destruct (gostring_eqb (TrimSpace text) []); [by apply IH |].
    assert (is_Some (h !! cur)) as [b Hb].
    { destruct Hok as (_ & Hlast & Hall). cbn [fst snd] in *.
      apply lookup_lt_is_Some. rewrite Forall_forall in Hall. apply Hall.
      rewrite last_Some in Hlast. destruct Hlast as (l' & ->).
      apply elem_of_app. right. by apply list_elem_of_singleton. }
    destruct (stateOK_parseLine (TrimSpace text) cur h stack b Hb Hok)
      as (stack' & cur' & Hrun & Hok' & Hne & Hlast').
    rewrite Hrun. cbn [mbind result_bind snd].
    assert ((0 <? length stack')%nat = true) as ->.
    { apply Nat.ltb_lt. destruct stack'; [done | simpl; lia]. }
    rewrite (index_last _ cur') by done. cbn [result_bind].
    destruct (IH cur' _ Hok') as (st1 & cur1 & H1 & H2 & H3 & H4).
    exists st1, cur1. split_and!; [done | done | | done].
    eapply extends_trans; [| done]. cbn [fst]. by apply extends_grow.
Qed.

(** X8: parsing the lines of a file after its first lines only adds to what
    the first lines gave: every block is still at its address with its
    name, parameters, comments and parent, and its lines and children are
    kept, in order, before the new ones. *)
Theorem X8_parsing_only_adds l1 l2 :
  ∃ h1 s1 h2 s2,
    parseLines l1 = Done (h1, s1) ∧ parseLines (l1 ++ l2) = Done (h2, s2) ∧
    extends h1 h2.
Proof.
  destruct (scanLoop_app l1 l2 0%nat ([rootBlock], [0%nat]) stateOK_init)
    as ([h1 s1] & cur1 & Hrun1 & Hok1 & _ & Happ).
  destruct (scanLoop_app l2 [] cur1 (h1, s1) Hok1)
    as ([h2 s2] & cur2 & Hrun2 & _ & Hext & _).
  exists h1, s1, h2, s2. split; [done |]. split; [| done].
  unfold parseLines. by rewrite Happ.
Qed.

(** ** The flat printer on a parsed document *)

Lemma forEach_Forall {A B} (P : B → Prop) (f : A → result (list B)) l outs :
  (∀ a out, a ∈ l → f a = Done out → Forall P out) →
  forEach f l = Done outs → Forall P outs.
Proof.
  revert outs. induction l as [|a l IH]; intros outs Hf Hrun.
  - injection Hrun as <-. constructor.
  - apply forEach_cons_Done in Hrun as (o & os & Ha & Hos & ->).
    apply Forall_app. split.
    + eapply Hf; [| done]. by left.
    + apply IH; [| done]. intros a' out' Hin. apply Hf. by right.
Qed.

(** The printed string of a well-formed line is not blank, open quote or
    not. *)
Lemma lineStr_nonblank indentStr l :
  blank indentStr → Line_Type l ≠ LineTypeBlock → line_wf l →
  TrimSpace (lineStrOf indentStr l) ≠ [].
Proof.
  intros Hind Hty Hwf.
  destruct (decide (Line_Type l = LineTypeComment)) as [Hc | Hc].
  { by apply reparse_comment. }
  assert (directive_wf l) as (Hws & Hhash & _).
  { unfold line_wf in Hwf. by destruct (Line_Type l). }
  set (core := Join (Line_Name l :: Line_Params l) (runes " ")) in *.
  assert (core ≠ []) as Hcne by (by apply word_hashfree_ne).
  assert (TrimSpace core = core) as Hct by (by apply TrimSpace_Join).
  rewrite lineStrOf_directive by done. fold core.
  apply (extractComment_printed (indentStr ++ runes "  ") (core ++ [r_semi])).
  - apply Forall_app. split; [done |]. by repeat constructor.
  - by destruct core.
  - by rewrite TrimSpace_app.
  - rewrite not_elem_of_app. split; [by apply Join_hashfree |].
    apply not_elem_of_cons; split; [done | apply not_elem_of_nil].
Qed.

Lemma printLines_nonblank indentStr ls :
  blank indentStr → Forall line_wf ls →
  Forall (λ s, TrimSpace s ≠ []) (printLines indentStr ls).
Proof.
  intros Hind. induction 1 as [|l ls Hl _ IH]; [constructor |]. cbn [printLines].
  destruct (bool_decide (Line_Type l = LineTypeBlock)) eqn:E; [done |].
  apply bool_decide_eq_false in E. constructor; [by apply lineStr_nonblank | done].
Qed.

Lemma printBlock_nonblank (h : heap) :
  lines_wf h → root_at_0 h →
  ∀ fuel p indent out,
    printBlock fuel h p indent = Done out → Forall (λ s, TrimSpace s ≠ []) out.
Proof.
  intros Hwf (b0 & Hb0 & Hname0 & _). induction fuel as [|fuel IH]; intros p indent out Hrun;
    [done |].
  cbn [printBlock] in Hrun. unfold load, index in Hrun.
  destruct (h !! p) as [b|] eqn:Hb; [| done]. cbn [mbind result_bind] in Hrun.
  destruct (forEach _ (Block_Blocks b)) as [couts | |] eqn:Hcouts; [| done | done].
  cbn [mbind result_bind mret result_ret] in Hrun. injection Hrun as <-.
  pose proof (blank_Repeat indent) as Hblank.
  destruct (Hwf p b Hb) as [Hlines Hhdr].
  apply Forall_app. split.
  { destruct (negb _) eqn:Hnamed; [| constructor]. constructor; [| constructor].
    apply reparse_header; [done |]. apply Hhdr. intros ->.
    rewrite Hb0 in Hb. injection Hb as <-. rewrite Hname0 in Hnamed.
    by vm_compute in Hnamed. }
  apply Forall_app. split; [by apply printLines_nonblank |].
  apply Forall_app. split.
  { eapply forEach_Forall; [| exact Hcouts]. intros c o _ Ho. simpl in Ho. by eapply IH. }
  destruct (negb _); [| constructor]. constructor; [| constructor].
  by apply reparse_footer.
Qed.

(** X9: the flat printer ends on every parsed document, without a panic,
    with a recursion depth of the number of blocks; and no line that it
    prints is blank. *)
Theorem X9_PrintConfig_ends_on_parsed_documents lines h stack filePath :
  parseLines lines = Done (h, stack) →
  ∃ out,
    PrintConfig (length h) h (mkConfig 0%nat filePath) = Done out ∧
    Forall (λ s, TrimSpace s ≠ []) out.
Proof.
  intros Hrun. destruct (parseLines_parsed_ok _ _ _ Hrun) as (Hwf & _ & Hord & Hroot).
  assert (0 < length h)%nat as Hlen.
  { destruct Hroot as (b & Hb & _). by eapply lookup_lt_Some. }
  destruct (fuel_enough h Hord (length h) 0%nat Hlen) as [_ Hout]; [lia |].
  destruct (Hout 0%nat) as [out Hprint]. exists out. split; [done |].
  by eapply printBlock_nonblank.
Qed.

Lemma X9_PrintConfig_ends_witness :
  ∃ out,
    PrintConfig (length (heap_of doc_open_quote)) (heap_of doc_open_quote)
      (mkConfig 0%nat []) = Done out ∧
    Forall (λ s, TrimSpace s ≠ []) out.
Proof.
  apply (X9_PrintConfig_ends_on_parsed_documents doc_open_quote (heap_of doc_open_quote)
           (stack_of doc_open_quote) []).
  by vm_compute.
Defined.

(** ** The tree view *)

(** *** Columns *)

Lemma col_after_prefix (prefix : gostring) r (x rest : gostring) :
  (prefix ++ (r :: x) ++ rest) !! length prefix = Some r.
Proof. rewrite lookup_app_r by lia. by rewrite Nat.sub_diag. Qed.

Lemma col_of_prefix n r (p s : gostring) : p !! n = Some r → p `prefix_of` s → s !! n = Some r.
Proof. intros Hp (k & ->). by apply lookup_app_l_Some. Qed.

Lemma col_pipe (prefix s : gostring) :
  (prefix ++ pipeIndent) `prefix_of` s → midAt (length prefix) s.
Proof.
  intros H. right. eapply col_of_prefix; [| done].
  rewrite <- (app_nil_r pipeIndent). apply col_after_prefix.
Qed.

Lemma col_blank (prefix s : gostring) :
  (prefix ++ blankIndent) `prefix_of` s → blankAt (length prefix) s.
Proof.
  intros H. eapply col_of_prefix; [| done].
  rewrite <- (app_nil_r blankIndent). apply col_after_prefix.
Qed.

Lemma prefix_of_weaken (p x s : gostring) : (p ++ x) `prefix_of` s → p `prefix_of` s.
Proof. intros (k & ->). exists (x ++ k). by rewrite <- app_assoc. Qed.

(** *** The loops over the comments and the lines *)

Lemma treeComments_prefix cp n corner j cs :
  Forall (λ s, cp `prefix_of` s) (treeComments cp n corner j cs).
Proof.
  revert j. induction cs as [|c cs IH]; intros j; [constructor |].
  cbn [treeComments]. constructor; [by eexists | apply IH].
Qed.

Lemma treeLines_prefix prefix nL nB i lines :
  Forall (λ s, prefix `prefix_of` s) (treeLines prefix nL nB i lines).
Proof.
  revert i. induction lines as [|l lines IH]; intros i; [constructor |].
  cbn [treeLines]. constructor; [by eexists |]. apply Forall_app. split; [| apply IH].
  destruct (_ && _); [| constructor].
  eapply Forall_impl; [apply treeComments_prefix |]. simpl. intros s.
  apply prefix_of_weaken.
Qed.

Lemma treeLines_mid prefix nL nB i lines :
  (nB ≠ 0 ∨ i + length lines ≤ nL - 1)%nat →
  Forall (midAt (length prefix)) (treeLines prefix nL nB i lines).
Proof.
  revert i. induction lines as [|l lines IH]; intros i Hmid; [constructor |].
  cbn [treeLines].
  assert ((i =? nL - 1)%nat && (nB =? 0)%nat = false) as ->.
  { apply andb_false_iff. destruct Hmid as [H | H].
    - right. by apply Nat.eqb_neq.
    - left. apply Nat.eqb_neq. simpl in H. lia. }
  constructor; [left; apply col_after_prefix |]. apply Forall_app. split.
  - destruct (_ && _); [| constructor].
    eapply Forall_impl; [apply treeComments_prefix |]. simpl. intros s. apply col_pipe.
  - apply IH. destruct Hmid as [H | H]; [by left | right; simpl in H; lia].
Qed.

Lemma treeLines_cons prefix nL nB i l rest :
  treeLines prefix nL nB i (l :: rest) =
  treeLines prefix nL nB i [l] ++ treeLines prefix nL nB (S i) rest.
Proof. cbn [treeLines]. rewrite app_nil_r. cbn [app]. by rewrite <- ?app_assoc. Qed.

Lemma drawn_after_mid n mids out :
  Forall (midAt n) mids → drawn n out → drawn n (mids ++ out).
Proof.
  intros Hm (before & l & after & -> & H1 & H2 & H3).
  exists (mids ++ before), l, after. split; [by rewrite <- app_assoc |].
  split; [by apply Forall_app | done].
Qed.

Lemma treeLines_drawn prefix nL i lines :
  lines ≠ [] → (i + length lines = nL)%nat →
  drawn (length prefix) (treeLines prefix nL 0 i lines).
Proof.
  revert i. induction lines as [|l lines IH]; intros i Hne Hlen; [done |].
  destruct lines as [|l' lines].
  - cbn [treeLines].
    assert ((i =? nL - 1)%nat && (0 =? 0)%nat = true) as ->.
    { apply andb_true_iff. split; [| done]. apply Nat.eqb_eq. simpl in Hlen. lia. }
    eexists [], _, _. split; [done |]. split; [constructor |].
    split; [apply col_after_prefix |]. rewrite app_nil_r.
    destruct (_ && _); [| constructor].
    eapply Forall_impl; [apply treeComments_prefix |]. simpl. intros s. apply col_blank.
  - rewrite treeLines_cons. apply drawn_after_mid.
    + apply treeLines_mid. right. simpl in *. lia.
    + apply IH; [done | simpl in *; lia].
Qed.

(** *** The loop over the child blocks *)

Lemma forEachI_cons_Done {A B} (f : nat → A → result (list B)) i a l outs :
  forEachI f i (a :: l) = Done outs →
  ∃ o os, f i a = Done o ∧ forEachI f (S i) l = Done os ∧ outs = o ++ os.
Proof.
  cbn [forEachI]. destruct (f i a) as [o | |]; [| done | done]. cbn.
  destruct (forEachI f (S i) l) as [os | |]; [| done | done]. cbn.
  intros [= <-]. eauto.
Qed.

Section TreeChild.
Variable rec : ptr → gostring → result (list gostring).
Variable h : heap.
Hypothesis Hrec : ∀ c np out, rec c np = Done out → Forall (λ s, np `prefix_of` s) out.

Lemma treeChild_inv prefix nB i c o :
treeChild rec h prefix nB i c = Done o →
∃ hdr rest,
  o = (prefix ++ (if (i =? nB - 1)%nat then branchLast else branchMid) ++ hdr) :: rest ∧
  Forall (λ s, (prefix ++ (if (i =? nB - 1)%nat then blankIndent else pipeIndent))
               `prefix_of` s) rest.
Proof.
unfold treeChild, load, index. destruct (h !! c) as [cb|]; [| done].
cbn [mbind result_bind].
destruct (rec c _) as [out | |] eqn:Hout; [| done | done].
cbn [mbind result_bind mret result_ret]. intros [= <-].
eexists _, _. split; [done |]. apply Forall_app. split; [| by eapply Hrec].
destruct (0 <? _)%nat; [apply treeComments_prefix | constructor].
Qed.

Lemma treeChild_prefix prefix nB i c o :
treeChild rec h prefix nB i c = Done o → Forall (λ s, prefix `prefix_of` s) o.
Proof.
intros H. apply treeChild_inv in H as (hdr & rest & -> & Hrest).
constructor; [by eexists |].
eapply Forall_impl; [done |]. simpl. intros s. apply prefix_of_weaken.
Qed.

Lemma treeChild_mid prefix nB i c o :
i ≠ (nB - 1)%nat → treeChild rec h prefix nB i c = Done o →
Forall (midAt (length prefix)) o.
Proof.
intros Hi H. apply treeChild_inv in H as (hdr & rest & -> & Hrest).
apply Nat.eqb_neq in Hi. rewrite Hi in *.
constructor; [left; apply col_after_prefix |].
eapply Forall_impl; [done |]. simpl. intros s. apply col_pipe.
Qed.

Lemma treeChild_last prefix nB i c o :
i = (nB - 1)%nat → treeChild rec h prefix nB i c = Done o →
drawn (length prefix) o.
Proof.
intros Hi H. apply treeChild_inv in H as (hdr & rest & -> & Hrest).
apply Nat.eqb_eq in Hi. rewrite Hi in *.
eexists [], _, rest. split; [done |]. split; [constructor |].
split; [apply col_after_prefix |].
eapply Forall_impl; [done |]. simpl. intros s. apply col_blank.
Qed.

Lemma forEachI_prefix prefix nB i cs out :
forEachI (treeChild rec h prefix nB) i cs = Done out →
Forall (λ s, prefix `prefix_of` s) out.
Proof.
revert i out. induction cs as [|c cs IH]; intros i out H.
- injection H as <-. constructor.
- apply forEachI_cons_Done in H as (o & os & Ho & Hos & ->).
  apply Forall_app. split; [by eapply treeChild_prefix | by eapply IH].
Qed.

Lemma forEachI_drawn prefix nB i cs out :
cs ≠ [] → (i + length cs = nB)%nat →
forEachI (treeChild rec h prefix nB) i cs = Done out →
drawn (length prefix) out.
Proof.
revert i out. induction cs as [|c cs IH]; intros i out Hne Hlen H; [done |].
apply forEachI_cons_Done in H as (o & os & Ho & Hos & ->).
destruct cs as [|c' cs].
- injection Hos as <-. rewrite app_nil_r.
  eapply treeChild_last; [| done]. simpl in Hlen. lia.
- apply drawn_after_mid.
  + eapply treeChild_mid; [| done]. simpl in Hlen. lia.
  + apply (IH (S i)); [done | simpl in *; lia | done].
Qed.
End TreeChild.

(** *** printTreeBlock *)

Lemma printTreeBlock_prefix (h : heap) fuel :
  ∀ p prefix out,
    printTreeBlock fuel h p prefix = Done out → Forall (λ s, prefix `prefix_of` s) out.
Proof.
  induction fuel as [|fuel IH]; intros p prefix out H; [done |].
  cbn [printTreeBlock] in H. unfold load, index in H.
  destruct (h !! p) as [b|]; [| done]. cbn [mbind result_bind] in H.
  destruct (forEachI _ 0 (Block_Blocks b)) as [bo | |] eqn:Hbo; [| done | done].
  cbn [mbind result_bind mret result_ret] in H. injection H as <-.
  apply Forall_app. split; [apply treeLines_prefix |].
  eapply forEachI_prefix; [| done]. apply IH.
Qed.

Lemma printTreeBlock_drawn (h : heap) fuel p prefix out :
  printTreeBlock fuel h p prefix = Done out →
  ∃ b, h !! p = Some b ∧
       match Block_Lines b, Block_Blocks b with
       | [], [] => out = []
       | _, _ => drawn (length prefix) out
       end.
Proof.
  intros H. destruct fuel as [|fuel]; [done |].
  cbn [printTreeBlock] in H. unfold load, index in H.
  destruct (h !! p) as [b|]; [| done]. cbn [mbind result_bind] in H.
  destruct (forEachI _ 0 (Block_Blocks b)) as [bo | |] eqn:Hbo; [| done | done].
  cbn [mbind result_bind mret result_ret] in H. injection H as <-.
  exists b. split; [done |].
  destruct (Block_Blocks b) as [|c cs] eqn:Hcs.
  - injection Hbo as <-. rewrite app_nil_r. cbn [length].
    destruct (Block_Lines b) as [|l ls] eqn:Hls; [done |].
    by apply treeLines_drawn.
  - assert (drawn (length prefix) (treeLines prefix (length (Block_Lines b))
              (length (c :: cs)) 0 (Block_Lines b) ++ bo)) as Hd.
    { apply drawn_after_mid.
      - apply treeLines_mid. by left.
      - apply (forEachI_drawn (printTreeBlock fuel h) h (printTreeBlock_prefix h fuel)
                 prefix (length (c :: cs)) 0%nat (c :: cs) bo); [done | done | done]. }
    by destruct (Block_Lines b).
Qed.

(** X10: the tree view is drawn as a tree.  Every line that
    [printTreeBlock] prints for a block starts with the prefix it was given;
    and in the column after the prefix, the lines have a tee or a bar down
    to the line of the last entry of the block, which has a corner, and a
    space below it.  A block without lines and children prints nothing. *)
Theorem X10_tree_view_is_drawn_as_a_tree fuel (h : heap) p prefix out :
  printTreeBlock fuel h p prefix = Done out →
  Forall (λ s, prefix `prefix_of` s) out ∧
  ∃ b, h !! p = Some b ∧
       match Block_Lines b, Block_Blocks b with
       | [], [] => out = []
       | _, _ => drawn (length prefix) out
       end.
Proof.
  intros H. split; [by eapply printTreeBlock_prefix | by eapply printTreeBlock_drawn].
Qed.

Lemma X10_tree_view_witness :
  Forall (λ s, runes "    " `prefix_of` s)
    [runes "    " ++ branchMid ++ runes "Directive: a 1";
     runes "    " ++ branchLast ++ runes "Directive: b 2"] ∧
  ∃ b, heap_of [runes "a 1; b 2;"] !! 0%nat = Some b ∧
       match Block_Lines b, Block_Blocks b with
       | [], [] =>
           [runes "    " ++ branchMid ++ runes "Directive: a 1";
            runes "    " ++ branchLast ++ runes "Directive: b 2"] = []
       | _, _ =>
           drawn (length (runes "    "))
             [runes "    " ++ branchMid ++ runes "Directive: a 1";
              runes "    " ++ branchLast ++ runes "Directive: b 2"]
       end.
Proof.
  apply (X10_tree_view_is_drawn_as_a_tree 1 (heap_of [runes "a 1; b 2;"]) 0%nat
           (runes "    ")).
  by vm_compute.
Defined.

(** *** The tree view of a parsed document *)

Lemma forEachI_Done {A B} (f : nat → A → result (list B)) l :
  (∀ i a, a ∈ l → ∃ out, f i a = Done out) → ∀ i, ∃ outs, forEachI f i l = Done outs.
Proof.
  induction l as [|a l IH]; intros Hf i; [by exists [] |].
  destruct (Hf i a) as [out Ha]; [by left |].
  destruct (IH (λ j a' Hin, Hf j a' (list_elem_of_further _ _ _ Hin)) (S i)) as [outs Hl].
  exists (out ++ outs). cbn [forEachI]. by rewrite Ha, Hl.
Qed.

Lemma printTree_fuel_enough (h : heap) :
  ordered h →
  ∀ fuel p, (p < length h)%nat → (length h - p ≤ fuel)%nat →
    ∀ prefix, ∃ out, printTreeBlock fuel h p prefix = Done out.
Proof.
  intros Hord. induction fuel as [|fuel IH]; intros p Hp Hfuel prefix; [lia |].
  destruct (lookup_lt_is_Some_2 h p Hp) as [b Hb].
  pose proof (Hord p b Hb) as Hcs. rewrite Forall_forall in Hcs.
  cbn [printTreeBlock]. unfold load. rewrite (index_Done _ _ b) by done.
  cbn [mbind result_bind].
  destruct (forEachI_Done (treeChild (printTreeBlock fuel h) h prefix
                             (length (Block_Blocks b))) (Block_Blocks b)) with (i := 0%nat)
    as [outs ->]; [| by eexists].
  intros i c Hc. specialize (Hcs c Hc).
  destruct (lookup_lt_is_Some_2 h c) as [cb Hcb]; [lia |].
  unfold treeChild, load. rewrite (index_Done _ _ cb) by done. cbn [mbind result_bind].
  destruct (IH c) with (prefix := prefix ++ (if (i =? length (Block_Blocks b) - 1)%nat
                                             then blankIndent else pipeIndent))
    as [out ->]; [lia | lia |].
  by eexists.
Qed.

(** X11: the tree view ends on every parsed document, without a panic,
    with a recursion depth of the number of blocks: it prints the line of
    the file path, the line of the root, and then the entries of the root
    block, drawn as a tree behind four spaces; nothing more for a document
    without lines. *)
Theorem X11_PrintTree_ends_on_parsed_documents lines h stack filePath :
  parseLines lines = Done (h, stack) →
  ∃ out,
    PrintTree (length h) h (mkConfig 0%nat filePath) =
      Done ((runes "Configuration File: " ++ filePath) :: (branchLast ++ runes "Root") :: out) ∧
    Forall (λ s, runes "    " `prefix_of` s) out ∧
    ∃ b, h !! 0%nat = Some b ∧
         match Block_Lines b with
         | [] => out = []
         | _ => drawn 4 out
         end.
Proof.
  intros Hrun. destruct (parseLines_parsed_ok _ _ _ Hrun) as (_ & _ & Hord & Hroot).
  assert (0 < length h)%nat as Hlen.
  { destruct Hroot as (b & Hb & _). by eapply lookup_lt_Some. }
  destruct (printTree_fuel_enough h Hord (length h) 0%nat Hlen) with (prefix := runes "    ")
    as [out Hout]; [lia |].
  exists out. split; [unfold PrintTree; cbn [RootBlock FilePath]; by rewrite Hout |].
  split; [by eapply printTreeBlock_prefix |].
  destruct (printTreeBlock_drawn _ _ _ _ _ Hout) as (b & Hb & Hd).
  exists b. split; [done |].
  destruct (Block_Lines b) as [|l ls] eqn:Hls; [| done].
  destruct (Block_Blocks b) as [|c cs] eqn:Hcs; [done |].
  destruct (parseLines_parsed_ok _ _ _ Hrun) as (_ & Hmir & _ & _).
  specialize (Hmir 0%nat b Hb). rewrite Hls, Hcs in Hmir. by inversion Hmir.
Qed.

Lemma X11_PrintTree_ends_witness :
  ∃ out,
    PrintTree (length (heap_of doc_nested)) (heap_of doc_nested) (mkConfig 0%nat (runes "f")) =
      Done ((runes "Configuration File: " ++ runes "f") :: (branchLast ++ runes "Root") :: out) ∧
    Forall (λ s, runes "    " `prefix_of` s) out ∧
    ∃ b, heap_of doc_nested !! 0%nat = Some b ∧
         match Block_Lines b with
         | [] => out = []
         | _ => drawn 4 out
         end.
Proof.
  apply (X11_PrintTree_ends_on_parsed_documents doc_nested (heap_of doc_nested)
           (stack_of doc_nested) (runes "f")).
  by vm_compute.
Defined.

(** *** formatLineInfo *)

Lemma Fields_name_params name params :
  Forall word (name :: params) →
  Fields (name ++ runes " " ++ Join params (runes " ")) = name :: params.
Proof.
  intros Hw. destruct params as [|p ps].
  - apply Forall_cons in Hw as [[Hne Hsp] _]. unfold Fields.
    rewrite fieldsLoop_spacefree by done. cbn [Join app].
    change (runes " " ++ []) with [r_space]. rewrite fieldsLoop_space by done.
    by destruct name.
  - rewrite <- Join_cons by done. by apply Fields_Join.
Qed.

(** X12: the text that [formatLineInfo] gives for a line tells its type;
    and for two lines that are not comment lines, with names and
    parameters that are words, as in a parsed document, the same text means
    the same name and the same parameters. *)
Theorem X12_formatLineInfo_tells_the_line l1 l2 :
  formatLineInfo l1 = formatLineInfo l2 →
  Line_Type l1 = Line_Type l2 ∧
  (Line_Type l1 ≠ LineTypeComment →
   Forall word (Line_Name l1 :: Line_Params l1) →
   Forall word (Line_Name l2 :: Line_Params l2) →
   Line_Name l1 = Line_Name l2 ∧ Line_Params l1 = Line_Params l2).
Proof.
  intros H.
  assert (Line_Type l1 = Line_Type l2) as Hty.
  { apply (f_equal head) in H. unfold formatLineInfo in H.
    destruct (Line_Type l1), (Line_Type l2); try done; by vm_compute in H. }
  split; [done |]. intros Hnc Hw1 Hw2.
  assert (Line_Name l1 ++ runes " " ++ Join (Line_Params l1) (runes " ") =
          Line_Name l2 ++ runes " " ++ Join (Line_Params l2) (runes " ")) as Heq.
  { unfold formatLineInfo in H. rewrite <- Hty in H.
    destruct (Line_Type l1); [done | | |]; by apply app_inv_head in H. }
  apply (f_equal Fields) in Heq. rewrite !Fields_name_params in Heq by done.
  by injection Heq.
Qed.

Lemma X12_formatLineInfo_witness :
  Line_Type (mkLine (runes "listen") [runes "80"] [] LineTypeDirective) =
  Line_Type (mkLine (runes "listen") [runes "80"] [runes "x"] LineTypeDirective) ∧
  (Line_Type (mkLine (runes "listen") [runes "80"] [] LineTypeDirective) ≠ LineTypeComment →
   Forall word [runes "listen"; runes "80"] →
   Forall word [runes "listen"; runes "80"] →
   runes "listen" = runes "listen" ∧ [runes "80"] = [runes "80"]).
Proof.
  apply (X12_formatLineInfo_tells_the_line
           (mkLine (runes "listen") [runes "80"] [] LineTypeDirective)
           (mkLine (runes "listen") [runes "80"] [runes "x"] LineTypeDirective)).
  reflexivity.
Defined.
